(** * Shallow embedding of the TMR reconstruction, error-estimation and
      aggregate-functional kernels (src/src/TMRGeometry.c).

    Scalars ([TacsScalar], [double]) are modelled as real numbers; C arrays
    are lists read with [nth] (default 0); [fabs] is [Rabs], [sqrt] is
    [sqrt], [log] is [ln], [exp] is [exp].  Collaborators that live outside
    this repository (the forest basis [evalInterp], [FElibrary::jacobian3d],
    LAPACK, the element and constitutive callbacks, the TACS vector and MPI)
    are parameters of Sections, with their contracts as hypotheses. *)

From Stdlib Require Import Reals Psatz List Arith Lia ZArith Sorted.
Import ListNotations.
Open Scope R_scope.

(** ** Array helpers *)

(** [a[i]] for a C array modelled as a list. *)
Definition at_ (a : list R) (i : nat) : R := nth i a 0.

(** [sum_{i < n} f i], accumulated in the order of a C [for] loop. *)
Fixpoint sum_upto (n : nat) (f : nat -> R) : R :=
  match n with
  | O => 0
  | S n' => sum_upto n' f + f n'
  end.

(** Sum of the elements of a list. *)
Fixpoint list_sum (l : list R) : R :=
  match l with
  | [] => 0
  | x :: l' => x + list_sum l'
  end.

(** ** Curvature constraint: [TMRCurvatureConstraint::evalCurvature] *)

Module Curvature.

Section Curv.

(** [aggregate_weight], the KS weight of the curvature object. *)
Variable aggregate_weight : R.

(** Squared norm of the gradient: [gn = g[0]*g[0] + g[1]*g[1] + g[2]*g[2]]. *)
Definition grad_norm2 (g : list R) : R :=
  at_ g 0 * at_ g 0 + at_ g 1 * at_ g 1 + at_ g 2 * at_ g 2.

(** The six entries [Hf[0..5]] of the cofactor matrix of the symmetric
    Hessian stored as [H = [H00; H01; H02; H11; H12; H22]]. *)
Definition cofactor (H : list R) : list R :=
  [ at_ H 3 * at_ H 5 - at_ H 4 * at_ H 4;
    at_ H 4 * at_ H 2 - at_ H 1 * at_ H 5;
    at_ H 1 * at_ H 4 - at_ H 3 * at_ H 2;
    at_ H 0 * at_ H 5 - at_ H 2 * at_ H 2;
    at_ H 1 * at_ H 2 - at_ H 0 * at_ H 4;
    at_ H 0 * at_ H 3 - at_ H 1 * at_ H 1 ].

(** [g^T S g] for a symmetric [S] stored in the six-entry layout; this is
    the common shape of [Hfact] and [Hprod] in the source. *)
Definition sym_quad (g S : list R) : R :=
  at_ g 0 * (at_ S 0 * at_ g 0 + at_ S 1 * at_ g 1 + at_ S 2 * at_ g 2) +
  at_ g 1 * (at_ S 1 * at_ g 0 + at_ S 3 * at_ g 1 + at_ S 4 * at_ g 2) +
  at_ g 2 * (at_ S 2 * at_ g 0 + at_ S 4 * at_ g 1 + at_ S 5 * at_ g 2).

(** [KG = 0.0; if (gn != 0.0) KG = Hfact/(gn*gn);] *)
Definition curv_KG (g H : list R) : R :=
  let gn := grad_norm2 g in
  let Hfact := sym_quad g (cofactor H) in
  if Req_EM_T gn 0 then 0 else Hfact / (gn * gn).

(** [KM = 0.0; if (gn != 0.0)
       KM = 0.5*(Hprod - gn*(H[0] + H[3] + H[5]))/(gn*sqrtgn);] *)
Definition curv_KM (g H : list R) : R :=
  let gn := grad_norm2 g in
  let sqrtgn := sqrt gn in
  let Hprod := sym_quad g H in
  if Req_EM_T gn 0 then 0
  else 0.5 * (Hprod - gn * (at_ H 0 + at_ H 3 + at_ H 5)) / (gn * sqrtgn).

(** The indicator factor [1.0 - 16*(val - 0.5)^4]. *)
Definition indicator_factor (val : R) : R :=
  1 - 16 * (val - 0.5) * (val - 0.5) * (val - 0.5) * (val - 0.5).

(** The principal-curvature selection: [(kmax, kdiff)]. *)
Definition curv_kmax_kdiff (KG KM : R) : R * R :=
  let sqrtk := sqrt (KM * KM - KG) in
  let k1 := Rabs (KM + sqrtk) in
  let k2 := Rabs (KM - sqrtk) in
  if Rgt_dec k1 k2 then (k1, k2 - k1) else (k2, k1 - k2).

Definition evalCurvature (val : R) (g H : list R) : R :=
  let KG := curv_KG g H in
  let KM := curv_KM g H in
  let '(kmax, kdiff) := curv_kmax_kdiff KG KM in
  let factor := indicator_factor val in
  factor * (kmax + ln (1 + exp (aggregate_weight * kdiff)) / aggregate_weight).

(** The formulas of the specification (section 4.6.4), written out with the
    Euclidean norm [||g|| = sqrt gn], for comparison with the code. *)
Definition spec_kappa_G (g H : list R) : R :=
  sym_quad g (cofactor H) / (sqrt (grad_norm2 g) ^ 4).

Definition spec_kappa_M (g H : list R) : R :=
  (sym_quad g H - sqrt (grad_norm2 g) ^ 2 * (at_ H 0 + at_ H 3 + at_ H 5))
  / (2 * sqrt (grad_norm2 g) ^ 3).

Definition spec_curvature (val : R) (g H : list R) : R :=
  let kG := spec_kappa_G g H in
  let kM := spec_kappa_M g H in
  let kappa_max := Rabs kM + sqrt (kM ^ 2 - kG) in
  let kappa_min := Rabs kM - sqrt (kM ^ 2 - kG) in
  indicator_factor val *
  (kappa_max + ln (1 + exp (aggregate_weight * (kappa_min - kappa_max)))
               / aggregate_weight).

End Curv.

End Curvature.

(** ** Enrichment basis (component C1 of the spec) *)

Module Enrichment.

(** [getNum2dEnrich], [getNum3dEnrich]. *)
Definition getNum2dEnrich (order : nat) : nat :=
  if Nat.eqb order 2 then 5 else if Nat.eqb order 3 then 7 else 9.

Definition getNum3dEnrich (order : nat) : nat :=
  if Nat.eqb order 2 then 9 else 15.

(** The derivative form of [evalEnrichmentFuncs2D]: returns [(N, Na, Nb)].
    [knots] is the knot array passed to the function ([knots[1]],
    [knots[2]] are used by the fourth-order branch). *)
Definition evalEnrichmentFuncs2D (order : nat) (pt knots : list R)
  : list R * list R * list R :=
  let x := at_ pt 0 in
  let y := at_ pt 1 in
  if Nat.eqb order 2 then
    let ca := (1 + x) * (1 - x) in
    let cb := (1 + y) * (1 - y) in
    let da := -2 * x in
    let db := -2 * y in
    ([ca; y * ca; cb; x * cb; ca * cb],
     [da; y * da; 0; cb; da * cb],
     [0; ca; db; x * db; ca * db])
  else if Nat.eqb order 3 then
    let ca := (1 + x) * x * (1 - x) in
    let cb := (1 + y) * y * (1 - y) in
    let da := 1 - 3 * x * x in
    let db := 1 - 3 * y * y in
    ([ca; y * ca; y * y * ca; cb; x * cb; x * x * cb; ca * cb],
     [da; y * da; y * y * da; 0; cb; 2 * x * cb; da * cb],
     [0; ca; 2 * y * ca; db; x * db; x * x * db; ca * db])
  else
    let k1 := at_ knots 1 in
    let k2 := at_ knots 2 in
    let ca := (1 + x) * (1 - x) * ((x - k1) * (x - k2)) in
    let da := -2 * x * (x - k1) * (x - k2) +
              (1 + x) * (1 - x) * (2 * x - k1 - k2) in
    let cb := (1 + y) * (1 - y) * ((y - k1) * (y - k2)) in
    let db := -2 * y * (y - k1) * (y - k2) +
              (1 + y) * (1 - y) * (2 * y - k1 - k2) in
    ([ca; y * ca; y * y * ca; y * y * y * ca;
      cb; x * cb; x * x * cb; x * x * x * cb; ca * cb],
     [da; y * da; y * y * da; y * y * y * da;
      0; cb; 2 * x * cb; 3 * x * x * cb; da * cb],
     [0; ca; 2 * y * ca; 3 * y * y * ca;
      db; x * db; x * x * db; x * x * x * db; ca * db]).

(** The derivative form of [eval2ndEnrichmentFuncs3D]: [(N, Na, Nb, Nc)]. *)
Definition eval2ndEnrichmentFuncs3D (pt : list R)
  : list R * list R * list R * list R :=
  let x := at_ pt 0 in
  let y := at_ pt 1 in
  let z := at_ pt 2 in
  let ca := (1 + x) * (1 - x) in
  let cb := (1 + y) * (1 - y) in
  let cc := (1 + z) * (1 - z) in
  let da := -2 * x in
  let db := -2 * y in
  let dc := -2 * z in
  ([ca; y * ca; z * ca; cb; x * cb; z * cb; cc; x * cc; y * cc],
   [da; y * da; z * da; 0; cb; 0; 0; cc; 0],
   [0; ca; 0; db; x * db; z * db; 0; 0; cc],
   [0; 0; ca; 0; 0; cb; dc; x * dc; y * dc]).

(** The derivative form of [eval3rdEnrichmentFuncs3D]: [(N, Na, Nb, Nc)]. *)
Definition eval3rdEnrichmentFuncs3D (pt : list R)
  : list R * list R * list R * list R :=
  let x := at_ pt 0 in
  let y := at_ pt 1 in
  let z := at_ pt 2 in
  let ca := (1 + x) * x * (1 - x) in
  let cb := (1 + y) * y * (1 - y) in
  let cc := (1 + z) * z * (1 - z) in
  let da := 1 - 3 * x * x in
  let db := 1 - 3 * y * y in
  let dc := 1 - 3 * z * z in
  ([ca; y * ca; y * y * ca; z * ca; z * z * ca;
    cb; x * cb; x * x * cb; z * cb; z * z * cb;
    cc; x * cc; x * x * cc; y * cc; y * y * cc],
   [da; y * da; y * y * da; z * da; z * z * da;
    0; cb; 2 * x * cb; 0; 0;
    0; cc; 2 * x * cc; 0; 0],
   [0; ca; 2 * y * ca; 0; 0;
    db; x * db; x * x * db; z * db; z * z * db;
    0; 0; 0; cc; 2 * y * cc],
   [0; 0; 0; ca; 2 * z * ca;
    0; 0; 0; cb; 2 * z * cb;
    dc; x * dc; x * x * dc; y * dc; y * y * dc]).

End Enrichment.

(** ** Refined-field builder: the [uref] scratch buffer of
       [addRefinedSolution2D] / [addRefinedSolution3D] *)

Module RefinedBuffer.
Local Open Scope nat_scope.

(** Element count of [uref] in [addRefinedSolution3D]:
    [new TacsScalar[ vars_per_node*order*order*order ]]. *)
Definition uref_size_3D (vars_per_node order : nat) : nat :=
  vars_per_node * order * order * order.

(** Offsets written into [uref] by [addRefinedSolution3D] (either branch):
    the [memset] of [vars_per_node*num_refined_nodes] entries, the
    accumulation [uref[vars_per_node*offset + i]] with
    [offset = n + refined_order*m + refined_order*refined_order*p], and the
    dependent-node zeroing [uref[vars_per_node*i + j]],
    [i < num_refined_nodes]. *)
Definition uref_writes_3D (vars_per_node refined_order : nat) : list nat :=
  let num_refined_nodes := refined_order * refined_order * refined_order in
  seq 0 (vars_per_node * num_refined_nodes) ++
  flat_map (fun p =>
    flat_map (fun m =>
      flat_map (fun n =>
        map (fun i => vars_per_node * (n + refined_order * m +
                                       refined_order * refined_order * p) + i)
            (seq 0 vars_per_node))
        (seq 0 refined_order))
      (seq 0 refined_order))
    (seq 0 refined_order) ++
  flat_map (fun i => map (fun j => vars_per_node * i + j) (seq 0 vars_per_node))
           (seq 0 num_refined_nodes).

(** The 2D sibling allocates [new TacsScalar[ vars_per_node*num_refined_nodes ]]
    with [num_refined_nodes = refined_order*refined_order]. *)
Definition uref_size_2D (vars_per_node refined_order : nat) : nat :=
  vars_per_node * (refined_order * refined_order).

Definition uref_writes_2D (vars_per_node refined_order : nat) : list nat :=
  let num_refined_nodes := refined_order * refined_order in
  seq 0 (vars_per_node * num_refined_nodes) ++
  flat_map (fun m =>
    flat_map (fun n =>
      map (fun i => vars_per_node * (n + refined_order * m) + i)
          (seq 0 vars_per_node))
      (seq 0 refined_order))
    (seq 0 refined_order) ++
  flat_map (fun i => map (fun j => vars_per_node * i + j) (seq 0 vars_per_node))
           (seq 0 num_refined_nodes).

End RefinedBuffer.

(** ** Adjoint-weighted residual estimator: [TMR_AdjointErrorEst] *)

Module AdjointError.

(** What one element of one process contributes.  [ae_nodes] are the
    refined-mesh node numbers from [tacs_refined->getElement(elem, ...)];
    [ae_err] is the [err] buffer after [memset] and the element's and its
    auxiliary elements' [addLocalizedError] calls ([numNodes()] entries). *)
Record AdjElem := mkAdjElem { ae_nodes : list Z; ae_err : list R }.

(** One process holds the list of its local elements. *)
Definition Proc := list AdjElem.

(** [for (x = start; x < bound; x += step)], executed for at most [fuel]
    iterations (the loop of the source has no other bound; for [step >= 1]
    it ends before [bound + 1] iterations). *)
Fixpoint stride_loop (fuel start step bound : nat) : list nat :=
  match fuel with
  | O => []
  | S f => if Nat.ltb start bound
           then start :: stride_loop f (start + step) step bound
           else []
  end.

(** The corner indices visited by the quadrilateral indicator loop
    [for (j = 0; j < refined_order; j += refined_order-1)
       for (i = 0; i < refined_order; i += refined_order-1)
         ... err[i + j*refined_order]]. *)
Definition corners_2D (refined_order : nat) : list nat :=
  flat_map (fun j =>
    map (fun i => (i + j * refined_order)%nat)
        (stride_loop (S refined_order) 0 (refined_order - 1) refined_order))
    (stride_loop (S refined_order) 0 (refined_order - 1) refined_order).

(** The corner indices of the octree loop
    [err[(r-1)*i + (r-1)*j*r + (r-1)*k*r*r]], [i, j, k < 2]. *)
Definition corners_3D (refined_order : nat) : list nat :=
  let r := refined_order in
  flat_map (fun k =>
    flat_map (fun j =>
      map (fun i => ((r - 1) * i + (r - 1) * j * r + (r - 1) * k * r * r)%nat)
          (seq 0 2))
      (seq 0 2))
    (seq 0 2).

Section Est.

(** The nodal error vector as read back by [nodal_error->getValues] after
    [beginSetValues/endSetValues(TACS_ADD_VALUES)] and the distribution. *)
Variable nodal_error : Z -> R.

(** [err] after [nodal_error->getValues(len, nodes, err)]. *)
Definition nodal_err_of (e : AdjElem) : list R := map nodal_error (ae_nodes e).

(** Element indicator, quadrilateral version:
    [error[elem] = 0.25*fabs(sum of TacsRealPart(err[corner]))]. *)
Definition elem_indicator_2D (refined_order : nat) (e : AdjElem) : R :=
  let err := nodal_err_of e in
  0.25 * Rabs (fold_left (fun acc c => acc + at_ err c)
                         (corners_2D refined_order) 0).

(** Element indicator, octree version: [0.125*fabs(estimate)]. *)
Definition elem_indicator_3D (refined_order : nat) (e : AdjElem) : R :=
  let err := nodal_err_of e in
  0.125 * Rabs (fold_left (fun acc c => acc + at_ err c)
                          (corners_3D refined_order) 0).

(** [total_adjoint_corr += err[i]] over the [numNodes()] deposited values. *)
Definition local_corr (p : Proc) : R :=
  fold_left (fun acc e => fold_left Rplus (ae_err e) acc) p 0.

Definition local_error_remain (indicator : AdjElem -> R) (p : Proc) : R :=
  fold_left (fun acc e => acc + indicator e) p 0.

(** [MPI_Allreduce(..., MPI_SUM)] of a per-process scalar. *)
Definition allreduce_sum (f : Proc -> R) (procs : list Proc) : R :=
  list_sum (map f procs).

(** Result of [TMR_AdjointErrorEst]: the [error[]] arrays of each process,
    the returned [total_error_remain] and [*adj_corr]. *)
Definition TMR_AdjointErrorEst (indicator : AdjElem -> R) (procs : list Proc)
  : list (list R) * R * R :=
  (map (map indicator) procs,
   allreduce_sum (local_error_remain indicator) procs,
   allreduce_sum local_corr procs).

Definition TMR_AdjointErrorEst_2D (refined_order : nat) :=
  TMR_AdjointErrorEst (elem_indicator_2D refined_order).

Definition TMR_AdjointErrorEst_3D (refined_order : nat) :=
  TMR_AdjointErrorEst (elem_indicator_3D refined_order).

End Est.

End AdjointError.

(** ** Strain-energy estimator: [TMR_StrainEnergyErrorEst] (octree version) *)

Module StrainEnergy.
Import Enrichment.

(** The value-only overloads [eval2ndEnrichmentFuncs3D(pt, N)] and
    [eval3rdEnrichmentFuncs3D(pt, N)]. *)
Definition eval2ndEnrichmentFuncs3D_N (pt : list R) : list R :=
  let x := at_ pt 0 in
  let y := at_ pt 1 in
  let z := at_ pt 2 in
  let ca := (1 + x) * (1 - x) in
  let cb := (1 + y) * (1 - y) in
  let cc := (1 + z) * (1 - z) in
  [ca; y * ca; z * ca; cb; x * cb; z * cb; cc; x * cc; y * cc].

Definition eval3rdEnrichmentFuncs3D_N (pt : list R) : list R :=
  let x := at_ pt 0 in
  let y := at_ pt 1 in
  let z := at_ pt 2 in
  let ca := (1 + x) * x * (1 - x) in
  let cb := (1 + y) * y * (1 - y) in
  let cc := (1 + z) * z * (1 - z) in
  [ca; y * ca; y * y * ca; z * ca; z * z * ca;
   cb; x * cb; x * x * cb; z * cb; z * z * cb;
   cc; x * cc; x * x * cc; y * cc; y * y * cc].

(** [vars_interp] as filled by the refined-knot loop of the octree
    [TMR_StrainEnergyErrorEst]: at [offset = n + m*r + p*r*r],
    [v[kk] = sum_k ubar[vars_per_node*k + kk]*Nr[k]] (listed in offset
    order, then by variable). *)
Definition se_vars_interp_3D (order refined_order vars_per_node : nat)
  (refined_knots ubar : list R) : list R :=
  let nenrich := getNum3dEnrich order in
  flat_map (fun p =>
    flat_map (fun m =>
      flat_map (fun n =>
        let pt := [at_ refined_knots n; at_ refined_knots m; at_ refined_knots p] in
        let Nr := if Nat.eqb order 2 then eval2ndEnrichmentFuncs3D_N pt
                  else eval3rdEnrichmentFuncs3D_N pt in
        map (fun kk =>
               fold_left (fun acc k => acc + at_ ubar (vars_per_node * k + kk) * at_ Nr k)
                         (seq 0 nenrich) 0)
            (seq 0 vars_per_node))
        (seq 0 refined_order))
      (seq 0 refined_order))
    (seq 0 refined_order).

Section SE.

(** [elem->computeEnergies(time, &Te, &Pe, Xpts, vars, dvars)]: the
    potential energy [Pe] returned by the element collaborator. *)
Variable computeEnergies_Pe : list R -> list R -> R.

(** Parameters of the mesh pair. *)
Variables order refined_order vars_per_node : nat.
Variable refined_knots : list R.

(** Content of the scratch buffer [vars_elem]: the octree version never
    loads it (no [getElement(i, NULL, vars_elem)]), so it is a fixed but
    unspecified array. *)
Variable vars_elem : list R.

(** The octree loop body: [ubar] from [computeElemRecon3D], [vars_interp]
    filled, then [computeEnergies(..., Xpts, vars_elem, dvars)] and
    [error[i] = fabs(TacsRealPart(Pe))]. *)
Definition se_elem_error_3D (Xpts ubar : list R) : R :=
  let vars_interp := se_vars_interp_3D order refined_order vars_per_node
                                       refined_knots ubar in
  let Pe := computeEnergies_Pe Xpts vars_elem in
  Rabs Pe.

(** The indicator the specification describes: the energy of the field
    reconstructed at the refined knots ([vars_interp]). *)
Definition spec_se_elem_error_3D (Xpts ubar : list R) : R :=
  Rabs (computeEnergies_Pe Xpts
          (se_vars_interp_3D order refined_order vars_per_node refined_knots ubar)).

End SE.

End StrainEnergy.

(** ** KS stress constraint: [TMRStressConstraint::evalConstraint] *)

Module KS.

(** The state of a [TMRStressConstraint] object that [evalConstraint]
    reads, over the abstract type [Elem] of local elements.  [recon] is
    [computeElemRecon3D] applied to the element's [vars], [varderiv] and
    refined [Xpts] (a deterministic function of the element, so both sweeps
    obtain the same [ubar]); [evalStrain pt el ubar] returns the pair
    [(detJ, e)] of [evalStrain(pt, Xpts, vars, ubar, J, e)]; [failure el pt e]
    is [con->failure(pt, e, &fval)]. *)
Record StressConstraint (Elem : Type) := {
  num_quad_pts : nat;
  gaussPts : list R;
  gaussWts : list R;
  recon : Elem -> list R;
  evalStrain : list R -> Elem -> list R -> R * list R;
  failure : Elem -> list R -> list R -> R;
  ks_weight : R
}.
Arguments num_quad_pts {Elem}.
Arguments gaussPts {Elem}.
Arguments gaussWts {Elem}.
Arguments recon {Elem}.
Arguments evalStrain {Elem}.
Arguments failure {Elem}.
Arguments ks_weight {Elem}.

Section Eval.
Context {Elem : Type} (c : StressConstraint Elem).

(** The triple loop [for kk, for jj, for ii] over the tensor Gauss rule;
    each entry is [(ii, jj, kk)]. *)
Definition quad_loop : list (nat * nat * nat) :=
  let n := num_quad_pts c in
  flat_map (fun kk =>
    flat_map (fun jj =>
      map (fun ii => (ii, jj, kk)) (seq 0 n))
      (seq 0 n))
    (seq 0 n).

(** [pt = {gaussPts[ii], gaussPts[jj], gaussPts[kk]}]. *)
Definition quad_pt (q : nat * nat * nat) : list R :=
  let '(ii, jj, kk) := q in
  [at_ (gaussPts c) ii; at_ (gaussPts c) jj; at_ (gaussPts c) kk].

(** [fval] at quadrature point [q] of element [el]. *)
Definition fval_at (el : Elem) (q : nat * nat * nat) : R :=
  let pt := quad_pt q in
  let e := snd (evalStrain c pt el (recon c el)) in
  failure c el pt e.

(** [detJ *= gaussWts[ii]*gaussWts[jj]*gaussWts[kk]]. *)
Definition detJw_at (el : Elem) (q : nat * nat * nat) : R :=
  let '(ii, jj, kk) := q in
  let pt := quad_pt q in
  fst (evalStrain c pt el (recon c el)) *
    (at_ (gaussWts c) ii * at_ (gaussWts c) jj * at_ (gaussWts c) kk).

(** First sweep, one element:
    [if (fval > ks_max_fail) ks_max_fail = fval]. *)
Definition max_fail_elem (m : R) (el : Elem) : R :=
  let ubar := recon c el in
  fold_left (fun m q =>
      let pt := quad_pt q in
      let e := snd (evalStrain c pt el ubar) in
      let fval := failure c el pt e in
      if Rgt_dec fval m then fval else m)
    quad_loop m.

(** First sweep on one process, from [ks_max_fail = -1e20]. *)
Definition local_max_fail (elems : list Elem) : R :=
  fold_left max_fail_elem elems (-1e20).

(** [MPI_Allreduce(..., MPI_MAX)] over the processes' values. *)
Definition allreduce_max (vals : list R) : R :=
  match vals with
  | [] => -1e20
  | v :: vs => fold_left Rmax vs v
  end.

(** Second sweep, one element:
    [ks_fail_sum += detJ*exp(ks_weight*(fval - ks_max_fail))]. *)
Definition fail_sum_elem (ks_max_fail s : R) (el : Elem) : R :=
  let ubar := recon c el in
  fold_left (fun s q =>
      let '(ii, jj, kk) := q in
      let pt := quad_pt q in
      let r := evalStrain c pt el ubar in
      let detJ := fst r * (at_ (gaussWts c) ii * at_ (gaussWts c) jj *
                           at_ (gaussWts c) kk) in
      let fval := failure c el pt (snd r) in
      s + detJ * exp (ks_weight c * (fval - ks_max_fail)))
    quad_loop s.

(** Second sweep on one process, from [ks_fail_sum = 0.0]. *)
Definition local_fail_sum (ks_max_fail : R) (elems : list Elem) : R :=
  fold_left (fail_sum_elem ks_max_fail) elems 0.

(** [evalConstraint] over the processes, each holding its local elements:
    returns [ks_max_fail + log(ks_fail_sum)/ks_weight]. *)
Definition evalConstraint (procs : list (list Elem)) : R :=
  let ks_max_fail := allreduce_max (map local_max_fail procs) in
  let ks_fail_sum := list_sum (map (local_fail_sum ks_max_fail) procs) in
  ks_max_fail + ln ks_fail_sum / ks_weight c.

(** All (element, quadrature point) pairs of the sweep, process by process. *)
Definition sweep (procs : list (list Elem)) : list (Elem * (nat * nat * nat)) :=
  flat_map (fun elems => flat_map (fun el => map (pair el) quad_loop) elems) procs.

(** The degenerate-geometry rule of the specification: a point whose
    weighted Jacobian determinant is not positive adds nothing. *)
Definition spec_fail_sum_elem (ks_max_fail s : R) (el : Elem) : R :=
  fold_left (fun s q =>
      if Rle_dec (detJw_at el q) 0 then s
      else s + detJw_at el q * exp (ks_weight c * (fval_at el q - ks_max_fail)))
    quad_loop s.

Definition spec_local_fail_sum (ks_max_fail : R) (elems : list Elem) : R :=
  fold_left (spec_fail_sum_elem ks_max_fail) elems 0.

End Eval.

End KS.

(** ** Nodal-derivative projector and element reconstruction:
       [computeLocalWeights], [computeNodeDeriv2D/3D],
       [computeElemRecon2D/3D] *)

Module Projector.
Import Enrichment.

(** An element as returned by [tacs->getElement]: its node numbers
    (negative numbers are dependent nodes) and its node locations. *)
Record PElem := { el_nodes : list Z; el_Xpts : list R }.

(** The dependent nodes of the [TACSAssembler]: dependent node [-(i+1)],
    [i < num_dep], is the combination [sum w*x[m]] over [(m, w)] in
    [dep_conn i]. *)
Record DepNodes := { num_dep : nat; dep_conn : nat -> list (Z * R) }.

(** The routines of the TACS and FElibrary libraries used here:
    [FElibrary::jacobian3d(Xd, J)] returns [detJ] and fills [J];
    [Tensor::crossProduct3D] and [Tensor::normalize3D]. *)
Record FElib := {
  jacobian3d : list R -> R * list R;
  crossProduct3D : list R -> list R -> list R;
  normalize3D : list R -> list R
}.

(** [forest->getInterpKnots(&knots)] (its return value [order]) and
    [forest->evalInterp(pt, N, Na, Nb, Nc)] of an octree forest. *)
Record OctForest := {
  oct_order : nat;
  oct_knots : list R;
  oct_evalInterp : list R -> list R * list R * list R * list R
}.

(** The same for a quadtree forest: [evalInterp(pt, N, Na, Nb)]. *)
Record QuadForest := {
  quad_order : nat;
  quad_knots : list R;
  quad_evalInterp : list R -> list R * list R * list R
}.

(** A [TACSBVec] with [bs] values per node, as a function of the node number
    (a negative number addresses the dependent-node storage) and of the
    component.  The parallel assembly is modelled by one global store: the
    sum of the contributions of all processes. *)
Definition Store := Z -> nat -> R.

(** [zeroEntries()]. *)
Definition zeroEntries : Store := fun _ _ => 0.

(** One block of [setValues(len, nodes, vals, TACS_ADD_VALUES)]: node
    [nodes[j]] receives [vals[bs*j + comp]] for [comp < bs]. *)
Definition add_entry (bs : nat) (node : Z) (vals : list R) (j : nat)
  (st : Store) : Store :=
  fun n comp =>
    if (Z.eqb n node && Nat.ltb comp bs)%bool
    then st n comp + at_ vals (bs * j + comp)%nat
    else st n comp.

Definition setValues_add (bs : nat) (nodes : list Z) (vals : list R)
  (st : Store) : Store :=
  fold_left (fun st j => add_entry bs (nth j nodes 0%Z) vals j st)
            (seq 0 (length nodes)) st.

Section Vec.
Variable dn : DepNodes.

(** What [beginSetValues/endSetValues(TACS_ADD_VALUES)] adds to an
    independent node [n]: the dependent-node contributions, weighted. *)
Definition dep_transfer (st : Store) (n : Z) (comp : nat) : R :=
  fold_left (fun acc i =>
      fold_left (fun acc (p : Z * R) =>
          if Z.eqb (fst p) n then acc + snd p * st (- Z.of_nat i - 1)%Z comp
          else acc)
        (dep_conn dn i) acc)
    (seq 0 (num_dep dn)) 0.

Definition endSetValues_add (st : Store) : Store :=
  fun n comp =>
    if Z.leb 0 n then st n comp + dep_transfer st n comp else st n comp.

(** [getValues] after [beginDistributeValues/endDistributeValues]: an
    independent node reads its entry, a dependent node the weighted
    combination of its independent nodes. *)
Definition getValue (st : Store) (n : Z) (comp : nat) : R :=
  if Z.leb 0 n then st n comp
  else fold_left (fun acc (p : Z * R) => acc + snd p * st (fst p) comp)
                 (dep_conn dn (Z.to_nat (- n - 1))) 0.

Definition getValues (st : Store) (bs : nat) (nodes : list Z) : list R :=
  flat_map (fun n => map (getValue st n) (seq 0 bs)) nodes.

(** [computeLocalWeights(tacs, weights)] over the elements [elems] it
    visits (all local elements, or those of [element_nums]). *)
Definition computeLocalWeights (elems : list PElem) : Store :=
  let st := fold_left (fun st el =>
      let welem := map (fun n => if Z.ltb n 0 then 0 else 1) (el_nodes el) in
      setValues_add 1 (el_nodes el) welem st) elems zeroEntries in
  endSetValues_add st.

Section Deriv.
Variable fe : FElib.
Variable vars_per_node : nat.

(** [computeJacobianTrans3D(Xpts, Na, Nb, Nc, Xd, J, num_nodes)]: the
    triple [(detJ, Xd, J)]. *)
Definition computeJacobianTrans3D (Xpts Na Nb Nc : list R) (num_nodes : nat)
  : R * list R * list R :=
  let sx N s := sum_upto num_nodes (fun i => at_ Xpts (3 * i + s)%nat * at_ N i) in
  let Xd := [sx Na 0%nat; sx Na 1%nat; sx Na 2%nat;
             sx Nb 0%nat; sx Nb 1%nat; sx Nb 2%nat;
             sx Nc 0%nat; sx Nc 1%nat; sx Nc 2%nat] in
  let r := jacobian3d fe Xd in
  (fst r, Xd, snd r).

(** [computeJacobianTrans2D(Xpts, Na, Nb, Xd, J, num_nodes)]: the third
    row of [Xd] is the normalised cross product of the first two. *)
Definition computeJacobianTrans2D (Xpts Na Nb : list R) (num_nodes : nat)
  : R * list R * list R :=
  let sx N s := sum_upto num_nodes (fun i => at_ Xpts (3 * i + s)%nat * at_ N i) in
  let Xa := [sx Na 0%nat; sx Na 1%nat; sx Na 2%nat] in
  let Xb := [sx Nb 0%nat; sx Nb 1%nat; sx Nb 2%nat] in
  let Xd := Xa ++ Xb ++ normalize3D fe (crossProduct3D fe Xa Xb) in
  let r := jacobian3d fe Xd in
  (fst r, Xd, snd r).

Definition dot3 (u v : list R) : R :=
  at_ u 0 * at_ v 0 + at_ u 1 * at_ v 1 + at_ u 2 * at_ v 2.

Section Deriv3D.
Variable forest : OctForest.

(** The body of the [kk, jj, ii] loop of [computeNodeDeriv3D]: the
    [deriv_per_node] values written through [d] for the knot [(ii, jj, kk)]
    of element [el], from [uelem] and [welem]. *)
Definition node_deriv_block3D (el : PElem) (uelem welem : list R)
  (ii jj kk : nat) : list R :=
  let order := oct_order forest in
  let knots := oct_knots forest in
  let pt := [at_ knots ii; at_ knots jj; at_ knots kk] in
  let '(_, Na, Nb, Nc) := oct_evalInterp forest pt in
  let J := snd (computeJacobianTrans3D (el_Xpts el) Na Nb Nc
                                       (order * order * order)) in
  let nn := (order * order * order)%nat in
  let Ua k := sum_upto nn (fun i => at_ uelem (vars_per_node * i + k)%nat * at_ Na i) in
  let Ub k := sum_upto nn (fun i => at_ uelem (vars_per_node * i + k)%nat * at_ Nb i) in
  let Uc k := sum_upto nn (fun i => at_ uelem (vars_per_node * i + k)%nat * at_ Nc i) in
  let s := (ii + jj * order + kk * order * order)%nat in
  let winv := 1 / at_ welem s in
  if Z.leb 0 (nth s (el_nodes el) 0%Z) then
    flat_map (fun k =>
      [winv * (Ua k * at_ J 0 + Ub k * at_ J 1 + Uc k * at_ J 2);
       winv * (Ua k * at_ J 3 + Ub k * at_ J 4 + Uc k * at_ J 5);
       winv * (Ua k * at_ J 6 + Ub k * at_ J 7 + Uc k * at_ J 8)])
      (seq 0 vars_per_node)
  else flat_map (fun _ => [0; 0; 0]) (seq 0 vars_per_node).

(** [delem], filled in loop order by the moving pointer [d]. *)
Definition delem3D (el : PElem) (uelem welem : list R) : list R :=
  let order := oct_order forest in
  flat_map (fun kk =>
    flat_map (fun jj =>
      flat_map (fun ii => node_deriv_block3D el uelem welem ii jj kk)
               (seq 0 order))
      (seq 0 order))
    (seq 0 order).

(** The element loop of [computeNodeDeriv3D], up to the final
    [beginSetValues]: [uderiv->zeroEntries()], then for each element
    [weights->getValues], [uvec->getValues] and
    [uderiv->setValues(len, nodes, delem, TACS_ADD_VALUES)]. *)
Definition computeNodeDeriv3D_raw (uvec weights : Store) (elems : list PElem)
  : Store :=
  fold_left (fun st el =>
      let welem := getValues weights 1 (el_nodes el) in
      let uelem := getValues uvec vars_per_node (el_nodes el) in
      setValues_add (3 * vars_per_node) (el_nodes el)
                    (delem3D el uelem welem) st)
    elems zeroEntries.

(** [computeNodeDeriv3D(forest, tacs, uvec, weights, uderiv)]: the vector
    [uderiv] after [beginSetValues/endSetValues(TACS_ADD_VALUES)] (it is
    read with [getValue], which accounts for the distribution). *)
Definition computeNodeDeriv3D (uvec weights : Store) (elems : list PElem)
  : Store :=
  endSetValues_add (computeNodeDeriv3D_raw uvec weights elems).

(** The physical gradient of the element interpolant at the knot of
    element-local node [s] (tensor indices [s mod order],
    [(s / order) mod order], [s / order^2]): component [a] of
    [J * (dU/dxi, dU/deta, dU/dzeta)] for variable [k]. *)
Definition spec_grad_sample3D (uvec : Store) (el : PElem) (s k a : nat) : R :=
  let order := oct_order forest in
  let knots := oct_knots forest in
  let ii := (s mod order)%nat in
  let jj := ((s / order) mod order)%nat in
  let kk := (s / (order * order))%nat in
  let pt := [at_ knots ii; at_ knots jj; at_ knots kk] in
  let '(_, Na, Nb, Nc) := oct_evalInterp forest pt in
  let J := snd (computeJacobianTrans3D (el_Xpts el) Na Nb Nc
                                       (order * order * order)) in
  let u i := getValue uvec (nth i (el_nodes el) 0%Z) k in
  let g N := sum_upto (order * order * order) (fun i => u i * at_ N i) in
  at_ J (3 * a)%nat * g Na + at_ J (3 * a + 1)%nat * g Nb +
  at_ J (3 * a + 2)%nat * g Nc.

(** The [(kk, jj, ii)] loop of [computeElemRecon3D], in loop order. *)
Definition recon_slots3D : list (nat * nat * nat) :=
  let order := oct_order forest in
  flat_map (fun kk =>
    flat_map (fun jj => map (fun ii => (ii, jj, kk)) (seq 0 order))
      (seq 0 order))
    (seq 0 order).

Variable refined_forest : OctForest.

(** Contents of storage the code reads without having written it: [wvals]
    for an order other than 2 and 3, and [Nar], [Nbr], [Ncr] when neither
    enrichment branch runs. *)
Variable uninit : list R.

Definition recon_wvals3D : list R :=
  let order := oct_order forest in
  if Nat.eqb order 2 then [1; 1]
  else if Nat.eqb order 3 then [0.5; 1; 0.5]
  else uninit.

(** [b[neq*k + c + a]] for [a = 0, 1, 2] at the knot [q] of the loop, for
    variable [k]: [wvals*ud[a]], then [-= wvals*d[a]]. *)
Definition recon_rhs3D (Xpts uvals uderiv : list R) (k : nat)
  (q : nat * nat * nat) : list R :=
  let order := oct_order forest in
  let knots := oct_knots forest in
  let refined_order := oct_order refined_forest in
  let '(ii, jj, kk) := q in
  let pt := [at_ knots ii; at_ knots jj; at_ knots kk] in
  let '(_, Nar, Nbr, Ncr) := oct_evalInterp refined_forest pt in
  let J := snd (computeJacobianTrans3D Xpts Nar Nbr Ncr
                  (refined_order * refined_order * refined_order)) in
  let wv := recon_wvals3D in
  let w := at_ wv ii * at_ wv jj * at_ wv kk in
  let ud a := at_ uderiv (3 * vars_per_node * (ii + order * jj + order * order * kk)
                          + 3 * k + a)%nat in
  let '(_, Na, Nb, Nc) := oct_evalInterp forest pt in
  let nn := (order * order * order)%nat in
  let Ua := sum_upto nn (fun i => at_ uvals (vars_per_node * i + k)%nat * at_ Na i) in
  let Ub := sum_upto nn (fun i => at_ uvals (vars_per_node * i + k)%nat * at_ Nb i) in
  let Uc := sum_upto nn (fun i => at_ uvals (vars_per_node * i + k)%nat * at_ Nc i) in
  let d0 := Ua * at_ J 0 + Ub * at_ J 1 + Uc * at_ J 2 in
  let d1 := Ua * at_ J 3 + Ub * at_ J 4 + Uc * at_ J 5 in
  let d2 := Ua * at_ J 6 + Ub * at_ J 7 + Uc * at_ J 8 in
  [w * ud 0%nat - w * d0; w * ud 1%nat - w * d1; w * ud 2%nat - w * d2].

(** [A[neq*i + c + a]] for enrichment function [i] at the knot [q]. *)
Definition recon_lhs3D (Xpts : list R) (i : nat) (q : nat * nat * nat) : list R :=
  let order := oct_order forest in
  let knots := oct_knots forest in
  let refined_order := oct_order refined_forest in
  let '(ii, jj, kk) := q in
  let pt := [at_ knots ii; at_ knots jj; at_ knots kk] in
  let '(_, Nar, Nbr, Ncr) := oct_evalInterp refined_forest pt in
  let J := snd (computeJacobianTrans3D Xpts Nar Nbr Ncr
                  (refined_order * refined_order * refined_order)) in
  let wv := recon_wvals3D in
  let w := at_ wv ii * at_ wv jj * at_ wv kk in
  let '(_, Nae, Nbe, Nce) :=
    if Nat.eqb order 2 then eval2ndEnrichmentFuncs3D pt
    else if Nat.eqb order 3 then eval3rdEnrichmentFuncs3D pt
    else (uninit, uninit, uninit, uninit) in
  let d0 := at_ Nae i * at_ J 0 + at_ Nbe i * at_ J 1 + at_ Nce i * at_ J 2 in
  let d1 := at_ Nae i * at_ J 3 + at_ Nbe i * at_ J 4 + at_ Nce i * at_ J 5 in
  let d2 := at_ Nae i * at_ J 6 + at_ Nbe i * at_ J 7 + at_ Nce i * at_ J 8 in
  [w * d0; w * d1; w * d2].

(** The least-squares system handed to [LAPACKdgelss]: [A] ([neq] by
    [nenrich]) and [b] ([neq] by [vars_per_node]), both column-major with
    leading dimension [neq = 3*order^3]; the entry at [neq*col + c + a] is
    the one the loop writes at [c = 3*(ii + order*jj + order^2*kk)]. *)
Definition computeElemRecon3D_system (Xpts uvals uderiv : list R)
  : list R * list R :=
  let nenrich := getNum3dEnrich (oct_order forest) in
  (flat_map (fun i => flat_map (recon_lhs3D Xpts i) recon_slots3D) (seq 0 nenrich),
   flat_map (fun k => flat_map (recon_rhs3D Xpts uvals uderiv k) recon_slots3D)
            (seq 0 vars_per_node)).

(** [ubar[vars_per_node*i + j] = b[m*j + i]]: the copy of the solution
    [X] that [LAPACKdgelss] left in [b]. *)
Definition computeElemRecon3D_ubar (X : list R) : list R :=
  let order := oct_order forest in
  let m := (3 * order * order * order)%nat in
  flat_map (fun i => map (fun j => at_ X (m * j + i)%nat) (seq 0 vars_per_node))
           (seq 0 (getNum3dEnrich order)).

End Deriv3D.

Section Deriv2D.
Variable forest : QuadForest.

(** The body of the [jj, ii] loop of [computeNodeDeriv2D]. *)
Definition node_deriv_block2D (el : PElem) (uelem welem : list R)
  (ii jj : nat) : list R :=
  let order := quad_order forest in
  let knots := quad_knots forest in
  let pt := [at_ knots ii; at_ knots jj] in
  let '(_, Na, Nb) := quad_evalInterp forest pt in
  let J := snd (computeJacobianTrans2D (el_Xpts el) Na Nb (order * order)) in
  let nn := (order * order)%nat in
  let Ua k := sum_upto nn (fun i => at_ uelem (vars_per_node * i + k)%nat * at_ Na i) in
  let Ub k := sum_upto nn (fun i => at_ uelem (vars_per_node * i + k)%nat * at_ Nb i) in
  let s := (ii + jj * order)%nat in
  let winv := 1 / at_ welem s in
  if Z.leb 0 (nth s (el_nodes el) 0%Z) then
    flat_map (fun k =>
      [winv * (Ua k * at_ J 0 + Ub k * at_ J 1);
       winv * (Ua k * at_ J 3 + Ub k * at_ J 4);
       winv * (Ua k * at_ J 6 + Ub k * at_ J 7)])
      (seq 0 vars_per_node)
  else flat_map (fun _ => [0; 0; 0]) (seq 0 vars_per_node).

Definition delem2D (el : PElem) (uelem welem : list R) : list R :=
  let order := quad_order forest in
  flat_map (fun jj =>
    flat_map (fun ii => node_deriv_block2D el uelem welem ii jj) (seq 0 order))
    (seq 0 order).

Definition computeNodeDeriv2D_raw (uvec weights : Store) (elems : list PElem)
  : Store :=
  fold_left (fun st el =>
      let welem := getValues weights 1 (el_nodes el) in
      let uelem := getValues uvec vars_per_node (el_nodes el) in
      setValues_add (3 * vars_per_node) (el_nodes el)
                    (delem2D el uelem welem) st)
    elems zeroEntries.

Definition computeNodeDeriv2D (uvec weights : Store) (elems : list PElem)
  : Store :=
  endSetValues_add (computeNodeDeriv2D_raw uvec weights elems).

(** The physical gradient sample of the quadrilateral interpolant at
    element-local node [s] (tensor indices [s mod order], [s / order]). *)
Definition spec_grad_sample2D (uvec : Store) (el : PElem) (s k a : nat) : R :=
  let order := quad_order forest in
  let knots := quad_knots forest in
  let ii := (s mod order)%nat in
  let jj := (s / order)%nat in
  let pt := [at_ knots ii; at_ knots jj] in
  let '(_, Na, Nb) := quad_evalInterp forest pt in
  let J := snd (computeJacobianTrans2D (el_Xpts el) Na Nb (order * order)) in
  let u i := getValue uvec (nth i (el_nodes el) 0%Z) k in
  let g N := sum_upto (order * order) (fun i => u i * at_ N i) in
  at_ J (3 * a)%nat * g Na + at_ J (3 * a + 1)%nat * g Nb.

Definition recon_slots2D : list (nat * nat) :=
  let order := quad_order forest in
  flat_map (fun jj => map (fun ii => (ii, jj)) (seq 0 order)) (seq 0 order).

Variable refined_forest : QuadForest.

Definition recon_wvals2D : list R :=
  let order := quad_order forest in
  if Nat.eqb order 2 then [1; 1]
  else if Nat.eqb order 3 then [0.5; 1; 0.5]
  else [0.5; 1; 1; 0.5].

(** [b[neq*k + c]], [b[neq*k + c + 1]] at the knot [q], variable [k]: the
    derivatives along the tangent frame [d1], [d2]. *)
Definition recon_rhs2D (Xpts uvals uderiv : list R) (k : nat)
  (q : nat * nat) : list R :=
  let order := quad_order forest in
  let knots := quad_knots forest in
  let refined_order := quad_order refined_forest in
  let '(ii, jj) := q in
  let pt := [at_ knots ii; at_ knots jj] in
  let '(_, Nar, Nbr) := quad_evalInterp refined_forest pt in
  let '(_, Xd, J) := computeJacobianTrans2D Xpts Nar Nbr
                       (refined_order * refined_order) in
  let d1 := normalize3D fe [at_ Xd 0; at_ Xd 1; at_ Xd 2] in
  let d2 := crossProduct3D fe [at_ Xd 6; at_ Xd 7; at_ Xd 8] d1 in
  let wv := recon_wvals2D in
  let w := at_ wv ii * at_ wv jj in
  let ud := [at_ uderiv (3 * vars_per_node * (ii + order * jj) + 3 * k)%nat;
             at_ uderiv (3 * vars_per_node * (ii + order * jj) + 3 * k + 1)%nat;
             at_ uderiv (3 * vars_per_node * (ii + order * jj) + 3 * k + 2)%nat] in
  let '(_, Na, Nb) := quad_evalInterp forest pt in
  let nn := (order * order)%nat in
  let Ua := sum_upto nn (fun i => at_ uvals (vars_per_node * i + k)%nat * at_ Na i) in
  let Ub := sum_upto nn (fun i => at_ uvals (vars_per_node * i + k)%nat * at_ Nb i) in
  let d := [Ua * at_ J 0 + Ub * at_ J 1;
            Ua * at_ J 3 + Ub * at_ J 4;
            Ua * at_ J 6 + Ub * at_ J 7] in
  [w * dot3 d1 ud - w * dot3 d1 d; w * dot3 d2 ud - w * dot3 d2 d].

(** [A[neq*i + c]], [A[neq*i + c + 1]] for enrichment function [i]. *)
Definition recon_lhs2D (Xpts : list R) (i : nat) (q : nat * nat) : list R :=
  let order := quad_order forest in
  let knots := quad_knots forest in
  let refined_order := quad_order refined_forest in
  let refined_knots := quad_knots refined_forest in
  let '(ii, jj) := q in
  let pt := [at_ knots ii; at_ knots jj] in
  let '(_, Nar, Nbr) := quad_evalInterp refined_forest pt in
  let '(_, Xd, J) := computeJacobianTrans2D Xpts Nar Nbr
                       (refined_order * refined_order) in
  let d1 := normalize3D fe [at_ Xd 0; at_ Xd 1; at_ Xd 2] in
  let d2 := crossProduct3D fe [at_ Xd 6; at_ Xd 7; at_ Xd 8] d1 in
  let wv := recon_wvals2D in
  let w := at_ wv ii * at_ wv jj in
  let '(_, Nae, Nbe) := evalEnrichmentFuncs2D order pt refined_knots in
  let d := [at_ Nae i * at_ J 0 + at_ Nbe i * at_ J 1;
            at_ Nae i * at_ J 3 + at_ Nbe i * at_ J 4;
            at_ Nae i * at_ J 6 + at_ Nbe i * at_ J 7] in
  [w * dot3 d1 d; w * dot3 d2 d].

(** [A] and [b] of [computeElemRecon2D], column-major with leading
    dimension [neq = 2*order^2]. *)
Definition computeElemRecon2D_system (Xpts uvals uderiv : list R)
  : list R * list R :=
  let nenrich := getNum2dEnrich (quad_order forest) in
  (flat_map (fun i => flat_map (recon_lhs2D Xpts i) recon_slots2D) (seq 0 nenrich),
   flat_map (fun k => flat_map (recon_rhs2D Xpts uvals uderiv k) recon_slots2D)
            (seq 0 vars_per_node)).

Definition computeElemRecon2D_ubar (X : list R) : list R :=
  let order := quad_order forest in
  let m := (2 * order * order)%nat in
  flat_map (fun i => map (fun j => at_ X (m * j + i)%nat) (seq 0 vars_per_node))
           (seq 0 (getNum2dEnrich order)).

End Deriv2D.
End Deriv.
End Vec.

(** The contract of [LAPACKdgelss(m, n, nrhs, A, m, b, m, ...)]: for each
    right-hand side [j], the solution left in [b[m*j + i]], [i < n], is a
    least-squares solution of [A x = b_j] of minimum norm. *)
Definition lsq_residual (m n : nat) (A B : list R) (j : nat) (x : nat -> R) : R :=
  sum_upto m (fun r =>
    (sum_upto n (fun i => at_ A (m * i + r)%nat * x i) - at_ B (m * j + r)%nat) ^ 2).

Definition sq_norm (n : nat) (x : nat -> R) : R := sum_upto n (fun i => x i ^ 2).

Definition dgelss_minnorm (m n nrhs : nat) (A B X : list R) : Prop :=
  forall j, (j < nrhs)%nat -> forall y : nat -> R,
    let x := fun i => at_ X (m * j + i)%nat in
    lsq_residual m n A B j x <= lsq_residual m n A B j y /\
    (lsq_residual m n A B j x = lsq_residual m n A B j y ->
     sq_norm n x <= sq_norm n y).

End Projector.

(** ** Curves: [pointDist], [integrateEdge], [TMRCurve::integrate],
       [TMRCurve::evalDeriv] *)

Module Curve.

(** [TMRPoint]. *)
Record Point := { px : R; py : R; pz : R }.

Definition pointDist (a b : Point) : R :=
  sqrt ((px a - px b) * (px a - px b) +
        (py a - py b) * (py a - py b) +
        (pz a - pz b) * (pz a - pz b)).

Section Integrate.

(** [edge->evalPoint(t, &p)]; its return code is ignored by
    [integrateEdge] and [integrate]. *)
Variable evalPoint : R -> Point.

(** The linked list of [IntegralPt] entries [(t, dist)] is kept in reverse
    order: its head is the entry [*_pt] points to, the last one.
    [integrateEdge] stops when [(ncalls > 5 && error < tol) || ncalls > 20],
    so it recurses at most [21 - ncalls] levels; [fuel] counts them. *)
Fixpoint integrateEdge_fuel (fuel : nat) (t1 : R) (p1 : Point) (t2 tol : R)
  (ncalls : nat) (pts : list (R * R)) : list (R * R) :=
  let tmid := 0.5 * (t1 + t2) in
  let pmid := evalPoint tmid in
  let p2 := evalPoint t2 in
  let int1 := (tmid - t1) * pointDist p1 pmid in
  let int2 := (t2 - tmid) * pointDist pmid p2 in
  let int3 := (tmid - t1) * pointDist p1 p2 in
  let error := Rabs (int3 - int1 - int2) in
  if ((Nat.ltb 5 ncalls && (if Rlt_dec error tol then true else false))
      || Nat.ltb 20 ncalls)%bool then
    let d := snd (hd (t1, 0) pts) in
    (t2, d + int1 + int2) :: (tmid, d + int1) :: pts
  else
    match fuel with
    | O => pts
    | S f =>
        let pts1 := integrateEdge_fuel f t1 p1 tmid tol (S ncalls) pts in
        integrateEdge_fuel f tmid pmid t2 tol (S ncalls) pts1
    end.

Definition integrateEdge (t1 : R) (p1 : Point) (t2 tol : R) (ncalls : nat)
  (pts : list (R * R)) : list (R * R) :=
  integrateEdge_fuel (21 - ncalls) t1 p1 t2 tol ncalls pts.

(** [TMRCurve::integrate(t1, t2, tol, &tvals, &dist, &nvals)]: returns
    [(len, tvals, dist, nvals)]. *)
Definition integrate (t1 t2 tol : R) : R * list R * list R * nat :=
  let root := [(t1, 0)] in
  let pts := rev (integrateEdge t1 (evalPoint t1) t2 tol 0 root) in
  (snd (last pts (t1, 0)), map fst pts, map snd pts, length pts).

End Integrate.

Section Deriv.

(** A curve: [getRange(&tmin, &tmax)] and [evalPoint(t, &p)] with its
    return code ([0] for success). *)
Variable tmin tmax : R.
Variable evalPoint : R -> Z * Point.
(** The static [TMRCurve::deriv_step_size] (initially [1e-6]). *)
Variable deriv_step_size : R.

(** [TMRCurve::evalDeriv(t, Xt)]: returns the status and the content of
    [*Xt] ([Xt] on entry when it is not written). *)
Definition evalDeriv (t : R) (Xt : Point) : Z * Point :=
  if (Rge_dec t tmin) then
    if (Rle_dec t tmax) then
      let '(fail, p) := evalPoint t in
      if negb (Z.eqb fail 0) then (fail, Xt) else
      if Rle_dec (t + deriv_step_size) tmax then
        let '(fail2, p2) := evalPoint (t + deriv_step_size) in
        if negb (Z.eqb fail2 0) then (fail2, Xt) else
        (fail2, {| px := (px p2 - px p) / deriv_step_size;
                   py := (py p2 - py p) / deriv_step_size;
                   pz := (pz p2 - pz p) / deriv_step_size |})
      else if Rge_dec t (tmin + deriv_step_size) then
        let '(fail2, p2) := evalPoint (t - deriv_step_size) in
        if negb (Z.eqb fail2 0) then (fail2, Xt) else
        (fail2, {| px := (px p - px p2) / deriv_step_size;
                   py := (py p - py p2) / deriv_step_size;
                   pz := (pz p - pz p2) / deriv_step_size |})
      else (fail, Xt)
    else (1%Z, Xt)
  else (1%Z, Xt).

End Deriv.

End Curve.

(** ** [TMR_PrintErrorBins] *)

Module ErrorBins.

Definition NUM_BINS : nat := 30.
Definition low : R := -15.
Definition high : R := 0.

(** [bin_bounds[k] = pow(10.0, low + 1.0*k*(high - low)/NUM_BINS)]. *)
Definition bin_bounds (k : nat) : R :=
  Rpower 10 (low + 1 * INR k * (high - low) / INR NUM_BINS).

(** The array [int bins[NUM_BINS+2]], zeroed by [memset]. *)
Definition Bins := nat -> nat.
Definition bins_zero : Bins := fun _ => 0%nat.
Definition bins_incr (bins : Bins) (i : nat) : Bins :=
  fun j => if Nat.eqb j i then S (bins j) else bins j.

(** The body of the loop over the local elements for one [error[i]]. *)
Definition bin_error (bins : Bins) (e : R) : Bins :=
  if Rle_dec e (bin_bounds 0) then bins_incr bins 0
  else if Rge_dec e (bin_bounds NUM_BINS) then bins_incr bins (NUM_BINS + 1)
  else fold_left (fun bs j =>
         if ((if Rge_dec e (bin_bounds j) then true else false) &&
             (if Rlt_dec e (bin_bounds (j + 1)) then true else false))%bool
         then bins_incr bs (j + 1) else bs)
       (seq 0 NUM_BINS) bins.

Definition local_bins (error : list R) : Bins :=
  fold_left bin_error error bins_zero.

(** [MPI_Allreduce(..., MPI_SUM, comm)] on integers, one list of element
    errors per process. *)
Definition allreduce_bins (procs : list (list R)) : Bins :=
  fun i => fold_right (fun errs acc => (local_bins errs i + acc)%nat) 0%nat procs.
Definition ntotal (procs : list (list R)) : nat :=
  fold_right (fun errs acc => (length errs + acc)%nat) 0%nat procs.

(** [for (i = 0; i < n; i++) total += bins[i]]. *)
Fixpoint nsum_upto (n : nat) (f : nat -> nat) : nat :=
  match n with O => 0%nat | S n' => (nsum_upto n' f + f n')%nat end.

(** The global bins and the [total] printed by the root process. *)
Definition TMR_PrintErrorBins_bins (procs : list (list R)) : Bins * nat :=
  let bins := allreduce_bins procs in
  (bins, nsum_upto (NUM_BINS + 2) bins).

(** The bin an error belongs to, read as intervals of the bounds: bin [0]
    holds [e <= bin_bounds[0]], bin [j+1] (for [j < NUM_BINS]) holds
    [bin_bounds[0] < e] with [bin_bounds[j] <= e < bin_bounds[j+1]], and
    bin [NUM_BINS+1] holds [e >= bin_bounds[NUM_BINS]]. *)
Definition spec_in_bin (i : nat) (e : R) : bool :=
  match i with
  | O => if Rle_dec e (bin_bounds 0) then true else false
  | S j =>
      if Nat.ltb j NUM_BINS then
        ((if Rlt_dec (bin_bounds 0) e then true else false) &&
         (if Rle_dec (bin_bounds j) e then true else false) &&
         (if Rlt_dec e (bin_bounds (S j)) then true else false))%bool
      else if Nat.eqb j NUM_BINS then
        (if Rle_dec (bin_bounds NUM_BINS) e then true else false)
      else false
  end.

End ErrorBins.

(** ** The value-only overload of [evalEnrichmentFuncs2D] *)

Module EnrichmentValues.
Import Enrichment.

(** [evalEnrichmentFuncs2D(order, pt, knots, N)]: the output array [N]
    is returned with the entries the call assigns overwritten; for an
    order other than 2, 3 and 4 no branch is taken and [N] is untouched. *)
Definition evalEnrichmentFuncs2D_N (order : nat) (pt knots N : list R) : list R :=
  let x := at_ pt 0 in
  let y := at_ pt 1 in
  if Nat.eqb order 2 then
    let ca := (1 + x) * (1 - x) in
    let cb := (1 + y) * (1 - y) in
    [ca; y * ca; cb; x * cb; ca * cb] ++ skipn 5 N
  else if Nat.eqb order 3 then
    let ca := (1 + x) * x * (1 - x) in
    let cb := (1 + y) * y * (1 - y) in
    [ca; y * ca; y * y * ca; cb; x * cb; x * x * cb; ca * cb] ++ skipn 7 N
  else if Nat.eqb order 4 then
    let k1 := at_ knots 1 in
    let k2 := at_ knots 2 in
    let ca := (1 + x) * (1 - x) * ((x - k1) * (x - k2)) in
    let cb := (1 + y) * (1 - y) * ((y - k1) * (y - k2)) in
    [ca; y * ca; y * y * ca; y * y * y * ca;
     cb; x * cb; x * x * cb; x * x * x * cb; ca * cb] ++ skipn 9 N
  else N.

End EnrichmentValues.

(** ** Curvature constraint: [evalPoly], [estimateHessian],
       [evalCurvDeriv], the element [evalCurvature], [addCurvDeriv] and
       [TMRCurvatureConstraint::evalConstraint] *)

Module CurvatureConstraint.
Import Curvature.

(** [evalPoly(x, N, Nx, Ny, Nz)]: the 20 polynomial basis functions and
    their derivatives. *)
Definition evalPoly (x : list R) : list R * list R * list R * list R :=
  let x0 := at_ x 0 in let x1 := at_ x 1 in let x2 := at_ x 2 in
  ([1; x0; x1; x2;
    x2*x1; x0*x2; x0*x1; x0*x0; x1*x1; x2*x2;
    x0*x1*x2;
    x0*x0*x1; x0*x0*x2; x0*x0*x1*x2;
    x1*x1*x0; x1*x1*x2; x1*x1*x0*x2;
    x2*x2*x0; x2*x2*x1; x2*x2*x0*x1],
   [0; 1; 0; 0;
    0; x2; x1; 2*x0; 0; 0;
    x1*x2;
    2*x0*x1; 2*x0*x2; 2*x0*x1*x2;
    x1*x1; 0; x1*x1*x2;
    x2*x2; 0; x2*x2*x1],
   [0; 0; 1; 0;
    x2; 0; x0; 0; 2*x1; 0;
    x0*x2;
    x0*x0; 0; x0*x0*x2;
    2*x1*x0; 2*x1*x2; 2*x1*x0*x2;
    0; x2*x2; x2*x2*x0],
   [0; 0; 0; 1;
    x1; x0; 0; 0; 0; 2*x2;
    x0*x1;
    0; x0*x0; x0*x0*x1;
    0; x1*x1; x1*x1*x0;
    2*x2*x0; 2*x2*x1; 2*x2*x0*x1]).

(** The local coordinates [x = Xpts[i] - c] of node [i], [c] the centroid
    accumulated as [c[k] += 0.125*elem_Xpts[3*i+k]]. *)
Definition centroid (Xpts : list R) : list R :=
  [sum_upto 8 (fun i => 0.125 * at_ Xpts (3 * i));
   sum_upto 8 (fun i => 0.125 * at_ Xpts (3 * i + 1));
   sum_upto 8 (fun i => 0.125 * at_ Xpts (3 * i + 2))].

Definition local_x (Xpts : list R) (i : nat) : list R :=
  let c := centroid Xpts in
  [at_ Xpts (3 * i) - at_ c 0; at_ Xpts (3 * i + 1) - at_ c 1;
   at_ Xpts (3 * i + 2) - at_ c 2].

(** The column-major [32 x 20] matrix [A] ([A[4*i+q + 32*j]]) and the
    right-hand side [rhs[4*i+q]] of [estimateHessian]. *)
Definition hessian_A (Xpts : list R) : list R :=
  map (fun k =>
    let j := (k / 32)%nat in
    let r := (k mod 32)%nat in
    let '(N, Nx, Ny, Nz) := evalPoly (local_x Xpts (r / 4)) in
    match (r mod 4)%nat with
    | O => at_ N j
    | 1%nat => at_ Nx j
    | 2%nat => at_ Ny j
    | _ => at_ Nz j
    end) (seq 0 640).

Definition hessian_rhs (vals derivs : list R) : list R :=
  map (fun k =>
    let i := (k / 4)%nat in
    match (k mod 4)%nat with
    | O => at_ vals i
    | 1%nat => at_ derivs (3 * i)
    | 2%nat => at_ derivs (3 * i + 1)
    | _ => at_ derivs (3 * i + 2)
    end) (seq 0 32).

Section Hessian.

(** [LAPACKdgelss(&m, &n, &nrhs, A, &m, rhs, &m, ...)] with [m = 32],
    [n = 20]: returns the overwritten [rhs], whose first 20 entries are the
    least-squares coefficients. *)
Variable dgelss : list R -> list R -> list R.

(** [if (g[i] < 0.0) g[i] = g[i] - 1e-6; else g[i] = g[i] + 1e-6;] *)
Definition perturb (x : R) : R :=
  if Rlt_dec x 0 then x - 1 / 1000000 else x + 1 / 1000000.

(** [estimateHessian(elem_Xpts, elem_vals, elem_derivs, &val, g, H)]. *)
Definition estimateHessian (Xpts vals derivs : list R) : R * list R * list R :=
  let rhs := dgelss (hessian_A Xpts) (hessian_rhs vals derivs) in
  (at_ rhs 0,
   [perturb (at_ rhs 1); perturb (at_ rhs 2); perturb (at_ rhs 3)],
   [at_ rhs 7; at_ rhs 6; at_ rhs 5; at_ rhs 8; at_ rhs 4; at_ rhs 9]).

End Hessian.

(** The fitted model [sum_j c[j] N[j](x)] in the local coordinates, and its
    three partial derivatives as [evalPoly] writes them: a reading aid for
    the statements about [estimateHessian]. *)
Definition spec_fitted_model (c x : list R) : R :=
  let '(N, _, _, _) := evalPoly x in sum_upto 20 (fun j => at_ c j * at_ N j).
Definition spec_fitted_model_x (c x : list R) : R :=
  let '(_, Nx, _, _) := evalPoly x in sum_upto 20 (fun j => at_ c j * at_ Nx j).
Definition spec_fitted_model_y (c x : list R) : R :=
  let '(_, _, Ny, _) := evalPoly x in sum_upto 20 (fun j => at_ c j * at_ Ny j).
Definition spec_fitted_model_z (c x : list R) : R :=
  let '(_, _, _, Nz) := evalPoly x in sum_upto 20 (fun j => at_ c j * at_ Nz j).

Section Curv.
Variable aggregate_weight : R.

(** [evalCurvDeriv(val, g, H, &dval, dg, dH)]: returns
    [(result, dval, dg, dH)].  The computation of [gn], [Hf], [Hfact],
    [Hprod], [KG], [KM], [kmax] and [kdiff] is the same code as in
    [evalCurvature]. *)
Definition evalCurvDeriv (val : R) (g H : list R) : R * R * list R * list R :=
  let gn := grad_norm2 g in
  let sqrtgn := sqrt gn in
  let Hf := cofactor H in
  let Hfact := sym_quad g Hf in
  let Hprod := sym_quad g H in
  let KG := curv_KG g H in
  let KM := curv_KM g H in
  let sqrtk := sqrt (KM * KM - KG) in
  let k1 := Rabs (KM + sqrtk) in
  let k2 := Rabs (KM - sqrtk) in
  let '(kmax, kdiff) := curv_kmax_kdiff KG KM in
  let factor := indicator_factor val in
  let expdiff := exp (aggregate_weight * kdiff) in
  let ksres := kmax + ln (1 + expdiff) / aggregate_weight in
  let result := factor * ksres in
  let dfactor := ksres in
  let dkmax := factor in
  let dkdiff := factor * expdiff / (1 + expdiff) in
  let '(dk1, dk2) :=
    if Rgt_dec k1 k2 then (dkmax - dkdiff, dkdiff) else (dkdiff, dkmax - dkdiff) in
  let '(dKM0, dsqrtk0) :=
    if Rgt_dec (KM + sqrtk) 0 then (dk1, dk1) else (- dk1, - dk1) in
  let '(dKM1, dsqrtk) :=
    if Rgt_dec (KM - sqrtk) 0 then (dKM0 + dk2, dsqrtk0 - dk2)
    else (dKM0 - dk2, dsqrtk0 + dk2) in
  let dKG := -0.5 * dsqrtk / sqrtk in
  let dKM := dKM1 + dsqrtk * KM / sqrtk in
  let dHprod := 0.5 * dKM / (gn * sqrtgn) in
  let dHfact := dKG / (gn * gn) in
  let dgn := -0.5 * dKM * ((1.5 * Hprod - 0.5 * gn * (at_ H 0 + at_ H 3 + at_ H 5))
                          / (gn * gn * sqrtgn))
             - 2 * dKG * Hfact / (gn * gn * gn) in
  let g0 := at_ g 0 in let g1 := at_ g 1 in let g2 := at_ g 2 in
  let dH0 := -0.5 * dKM / sqrtgn + dHprod * g0 * g0 in
  let dH1 := 2 * dHprod * g0 * g1 in
  let dH2 := 2 * dHprod * g0 * g2 in
  let dH3 := -0.5 * dKM / sqrtgn + dHprod * g1 * g1 in
  let dH4 := 2 * dHprod * g1 * g2 in
  let dH5 := -0.5 * dKM / sqrtgn + dHprod * g2 * g2 in
  let dg :=
    [2 * dgn * g0 + 2 * (dHprod * (at_ H 0 * g0 + at_ H 1 * g1 + at_ H 2 * g2) +
                         dHfact * (at_ Hf 0 * g0 + at_ Hf 1 * g1 + at_ Hf 2 * g2));
     2 * dgn * g1 + 2 * (dHprod * (at_ H 1 * g0 + at_ H 3 * g1 + at_ H 4 * g2) +
                         dHfact * (at_ Hf 1 * g0 + at_ Hf 3 * g1 + at_ Hf 4 * g2));
     2 * dgn * g2 + 2 * (dHprod * (at_ H 2 * g0 + at_ H 4 * g1 + at_ H 5 * g2) +
                         dHfact * (at_ Hf 2 * g0 + at_ Hf 4 * g1 + at_ Hf 5 * g2))] in
  let dHf0 := dHfact * g0 * g0 in
  let dHf1 := 2 * dHfact * g0 * g1 in
  let dHf2 := 2 * dHfact * g0 * g2 in
  let dHf3 := dHfact * g1 * g1 in
  let dHf4 := 2 * dHfact * g1 * g2 in
  let dHf5 := dHfact * g2 * g2 in
  let dH :=
    [dH0 + (at_ H 5 * dHf3 - at_ H 4 * dHf4 + at_ H 3 * dHf5);
     dH1 + (- at_ H 5 * dHf1 + at_ H 4 * dHf2 + at_ H 2 * dHf4 - 2 * at_ H 1 * dHf5);
     dH2 + (at_ H 4 * dHf1 - at_ H 3 * dHf2 - 2 * at_ H 2 * dHf3 + at_ H 1 * dHf4);
     dH3 + (at_ H 5 * dHf0 - at_ H 2 * dHf2 + at_ H 0 * dHf5);
     dH4 + (-2 * at_ H 4 * dHf0 + at_ H 2 * dHf1 + at_ H 1 * dHf2 - at_ H 0 * dHf4);
     dH5 + (at_ H 3 * dHf0 - at_ H 1 * dHf1 + at_ H 0 * dHf3)] in
  let dval := -64 * dfactor * (val - 0.5) * (val - 0.5) * (val - 0.5) in
  (result, dval, dg, dH).

(** The loop over the [elem_size] nodes and the Hessian assembly that open
    both the element [evalCurvature(elem_size, N, Na, Nb, Nc, J, Xpts,
    elem_vals, elem_deriv)] and [addCurvDeriv] (the same code in both):
    returns [(val, g, H)]. *)
Definition curv_assemble (elem_size : nat) (N Na Nb Nc J vals deriv : list R)
  : R * list R * list R :=
  let val := sum_upto elem_size (fun j => at_ vals j * at_ N j) in
  let gr r := sum_upto elem_size (fun j => at_ deriv (3 * j + r) * at_ N j) in
  let hr r Nq := sum_upto elem_size (fun j => at_ deriv (3 * j + r) * at_ Nq j) in
  let h0 := hr 0%nat Na in let h1 := hr 0%nat Nb in let h2 := hr 0%nat Nc in
  let h3 := hr 1%nat Na in let h4 := hr 1%nat Nb in let h5 := hr 1%nat Nc in
  let h6 := hr 2%nat Na in let h7 := hr 2%nat Nb in let h8 := hr 2%nat Nc in
  (val, [gr 0%nat; gr 1%nat; gr 2%nat],
   [at_ J 0 * h0 + at_ J 3 * h1 + at_ J 6 * h2;
    0.5 * ((at_ J 1 * h0 + at_ J 4 * h1 + at_ J 7 * h2) + (at_ J 0 * h3 + at_ J 3 * h4 + at_ J 6 * h5));
    0.5 * ((at_ J 2 * h0 + at_ J 5 * h1 + at_ J 8 * h2) + (at_ J 0 * h6 + at_ J 3 * h7 + at_ J 6 * h8));
    at_ J 1 * h3 + at_ J 4 * h4 + at_ J 7 * h5;
    0.5 * ((at_ J 2 * h3 + at_ J 5 * h4 + at_ J 8 * h5) + (at_ J 1 * h6 + at_ J 4 * h7 + at_ J 7 * h8));
    at_ J 2 * h6 + at_ J 5 * h7 + at_ J 8 * h8]).

(** The element [TMRCurvatureConstraint::evalCurvature]. *)
Definition evalCurvature_elem (elem_size : nat) (N Na Nb Nc J vals deriv : list R) : R :=
  let '(val, g, H) := curv_assemble elem_size N Na Nb Nc J vals deriv in
  evalCurvature aggregate_weight val g H.

(** [dvals[j] += v] on an array. *)
Definition add_at (a : nat -> R) (j : nat) (v : R) : nat -> R :=
  fun k => if Nat.eqb k j then a k + v else a k.

(** [addCurvDeriv(alpha, elem_size, N, Na, Nb, Nc, J, Xpts, elem_vals,
    elem_deriv, dvals, dderiv)]: returns [(result, dvals, dderiv)]. *)
Definition addCurvDeriv (alpha : R) (elem_size : nat) (N Na Nb Nc J vals deriv : list R)
  (dvals dderiv : nat -> R) : R * (nat -> R) * (nat -> R) :=
  let '(val, g, H) := curv_assemble elem_size N Na Nb Nc J vals deriv in
  let '(result, dval, dg, dH) := evalCurvDeriv val g H in
  let dh0 := at_ J 0 * at_ dH 0 + 0.5 * at_ J 1 * at_ dH 1 + 0.5 * at_ J 2 * at_ dH 2 in
  let dh1 := at_ J 3 * at_ dH 0 + 0.5 * at_ J 4 * at_ dH 1 + 0.5 * at_ J 5 * at_ dH 2 in
  let dh2 := at_ J 6 * at_ dH 0 + 0.5 * at_ J 7 * at_ dH 1 + 0.5 * at_ J 8 * at_ dH 2 in
  let dh3 := 0.5 * at_ J 0 * at_ dH 1 + at_ J 1 * at_ dH 3 + 0.5 * at_ J 2 * at_ dH 4 in
  let dh4 := 0.5 * at_ J 3 * at_ dH 1 + at_ J 4 * at_ dH 3 + 0.5 * at_ J 5 * at_ dH 4 in
  let dh5 := 0.5 * at_ J 6 * at_ dH 1 + at_ J 7 * at_ dH 3 + 0.5 * at_ J 8 * at_ dH 4 in
  let dh6 := 0.5 * at_ J 0 * at_ dH 2 + 0.5 * at_ J 1 * at_ dH 4 + at_ J 2 * at_ dH 5 in
  let dh7 := 0.5 * at_ J 3 * at_ dH 2 + 0.5 * at_ J 4 * at_ dH 4 + at_ J 5 * at_ dH 5 in
  let dh8 := 0.5 * at_ J 6 * at_ dH 2 + 0.5 * at_ J 7 * at_ dH 4 + at_ J 8 * at_ dH 5 in
  let '(dv, dd) :=
    fold_left (fun st j =>
      let '(dv, dd) := st in
      let dv := add_at dv j (alpha * dval * at_ N j) in
      let dd := add_at dd (3 * j)
                  (alpha * (at_ N j * at_ dg 0 + at_ Na j * dh0 +
                            at_ Nb j * dh1 + at_ Nc j * dh2)) in
      let dd := add_at dd (3 * j + 1)
                  (alpha * (at_ N j * at_ dg 1 + at_ Na j * dh3 +
                            at_ Nb j * dh4 + at_ Nc j * dh5)) in
      let dd := add_at dd (3 * j + 2)
                  (alpha * (at_ N j * at_ dg 2 + at_ Na j * dh6 +
                            at_ Nb j * dh7 + at_ Nc j * dh8)) in
      (dv, dd)) (seq 0 elem_size) (dvals, dderiv) in
  (result, dv, dd).

(** One element of [TMRCurvatureConstraint::evalConstraint]: the node
    locations, values and nodal derivatives gathered for its 8 nodes. *)
Record CElem := { ce_Xpts : list R; ce_vals : list R; ce_derivs : list R }.

Variable dgelss : list R -> list R -> list R.

(** [estimateHessian], then [val = sum_j 0.125*elem_vals[j]] and
    [result = evalCurvature(val, g, H)]. *)
Definition curv_elem_result (e : CElem) : R :=
  let '(_, g, H) := estimateHessian dgelss (ce_Xpts e) (ce_vals e) (ce_derivs e) in
  let val := sum_upto 8 (fun j => 0.125 * at_ (ce_vals e) j) in
  evalCurvature aggregate_weight val g H.

(** First sweep on one process: [max_curvature = 0.0] and
    [if (result > max_curvature) max_curvature = result]. *)
Definition local_max_curvature (elems : list CElem) : R :=
  fold_left (fun m e =>
    let result := curv_elem_result e in
    if Rgt_dec result m then result else m) elems 0.

(** Second sweep on one process: [(aggregate_numer, aggregate_denom)]. *)
Definition local_aggregate (max_curvature : R) (elems : list CElem) : R * R :=
  fold_left (fun nd e =>
    let result := curv_elem_result e in
    let expres := exp (aggregate_weight * (result - max_curvature)) in
    (fst nd + result * expres, snd nd + expres)) elems (0, 0).

(** [TMRCurvatureConstraint::evalConstraint] over the processes:
    [MPI_MAX] of [max_curvature], [MPI_SUM] of numerator and denominator,
    and [func_val = aggregate_numer/aggregate_denom]. *)
Definition curv_evalConstraint (procs : list (list CElem)) : R :=
  let max_curvature := KS.allreduce_max (map local_max_curvature procs) in
  let nds := map (local_aggregate max_curvature) procs in
  list_sum (map fst nds) / list_sum (map snd nds).

End Curv.

End CurvatureConstraint.

(** ** [TMRStressConstraint::evalStrain] and [addStrainDeriv] *)

Module Strain.
Import Enrichment Projector.

Section StrainSec.
(** [FElibrary::jacobian3d], the two forests of the constraint
    ([forest->evalInterp] and [interp_forest->evalInterp]) and the member
    [order]. *)
Variable fe : FElib.
Variable forest interp_forest : OctForest.
Variable order : nat.

(** [if (order == 2) eval2ndEnrichmentFuncs3D(pt, Nr, Nar, Nbr, Ncr);]
    [(else) if (order == 3) eval3rdEnrichmentFuncs3D(pt, Nr, Nar, Nbr, Ncr);]
    on the local arrays [Nr, Nar, Nbr, Ncr] of the calling function, whose
    contents are [uninit_enrich] when neither branch is taken. *)
Definition enrich3D (uninit_enrich : list R * list R * list R * list R) (pt : list R)
  : list R * list R * list R * list R :=
  if Nat.eqb order 2 then eval2ndEnrichmentFuncs3D pt
  else if Nat.eqb order 3 then eval3rdEnrichmentFuncs3D pt
  else uninit_enrich.

(** [evalStrain(pt, Xpts, vars, ubar, J, e)]: returns [(detJ, J, e)];
    [uninit] is what its stack arrays [Nr, ...] hold before the call. *)
Definition evalStrain (uninit : list R * list R * list R * list R)
  (pt Xpts vars ubar : list R) : R * list R * list R :=
  let '(_, Na, Nb, Nc) := oct_evalInterp forest pt in
  let ulen := (order * order * order)%nat in
  let ud (N : list R) (r : nat) :=
    sum_upto ulen (fun i => at_ N i * at_ vars (3 * i + r)) in
  let '(_, Nax, Nbx, Ncx) := oct_evalInterp interp_forest pt in
  let xlen := ((order + 1) * (order + 1) * (order + 1))%nat in
  let xd (N : list R) (r : nat) :=
    sum_upto xlen (fun i => at_ N i * at_ Xpts (3 * i + r)) in
  let Xd := [xd Nax 0%nat; xd Nbx 0%nat; xd Ncx 0%nat;
             xd Nax 1%nat; xd Nbx 1%nat; xd Ncx 1%nat;
             xd Nax 2%nat; xd Nbx 2%nat; xd Ncx 2%nat] in
  let '(detJ, J) := jacobian3d fe Xd in
  let '(_, Nar, Nbr, Ncr) := enrich3D uninit pt in
  let nenrich := getNum3dEnrich order in
  let ue (N : list R) (r : nat) :=
    sum_upto nenrich (fun i => at_ ubar (3 * i + r) * at_ N i) in
  let Ud := [ud Na 0%nat + ue Nar 0%nat; ud Nb 0%nat + ue Nbr 0%nat; ud Nc 0%nat + ue Ncr 0%nat;
             ud Na 1%nat + ue Nar 1%nat; ud Nb 1%nat + ue Nbr 1%nat; ud Nc 1%nat + ue Ncr 1%nat;
             ud Na 2%nat + ue Nar 2%nat; ud Nb 2%nat + ue Nbr 2%nat; ud Nc 2%nat + ue Ncr 2%nat] in
  let ux (r c : nat) :=
    at_ Ud (3 * r) * at_ J c + at_ Ud (3 * r + 1) * at_ J (3 + c) +
    at_ Ud (3 * r + 2) * at_ J (6 + c) in
  let e := [ux 0%nat 0%nat; ux 1%nat 1%nat; ux 2%nat 2%nat;
            ux 1%nat 2%nat + ux 2%nat 1%nat; ux 0%nat 2%nat + ux 2%nat 0%nat;
            ux 0%nat 1%nat + ux 1%nat 0%nat] in
  (detJ, J, e).

(** One pass of either loop of [addStrainDeriv], at basis index [i]:
    [Dx, Dy, Dz] from [J], and the three increments of [d[3*i+r]]. *)
Definition strain_deriv_step (alpha : R) (dfde J Na Nb Nc : list R)
  (d : nat -> R) (i : nat) : nat -> R :=
  let Dx := at_ Na i * at_ J 0 + at_ Nb i * at_ J 3 + at_ Nc i * at_ J 6 in
  let Dy := at_ Na i * at_ J 1 + at_ Nb i * at_ J 4 + at_ Nc i * at_ J 7 in
  let Dz := at_ Na i * at_ J 2 + at_ Nb i * at_ J 5 + at_ Nc i * at_ J 8 in
  let d0 := CurvatureConstraint.add_at d (3 * i)
              (alpha * (at_ dfde 0 * Dx + at_ dfde 4 * Dz + at_ dfde 5 * Dy)) in
  let d1 := CurvatureConstraint.add_at d0 (3 * i + 1)
              (alpha * (at_ dfde 1 * Dy + at_ dfde 3 * Dz + at_ dfde 5 * Dx)) in
  CurvatureConstraint.add_at d1 (3 * i + 2)
    (alpha * (at_ dfde 2 * Dz + at_ dfde 3 * Dy + at_ dfde 4 * Dx)).

(** [addStrainDeriv(pt, J, alpha, dfde, dfdu, dfdubar)]: returns
    [(0.0, dfdu, dfdubar)]; [uninit] is what its own stack arrays
    [Nr, ...] hold before the call. *)
Definition addStrainDeriv (uninit : list R * list R * list R * list R)
  (pt J : list R) (alpha : R) (dfde : list R)
  (dfdu dfdubar : nat -> R) : R * (nat -> R) * (nat -> R) :=
  let '(_, Na, Nb, Nc) := oct_evalInterp forest pt in
  let '(_, Nar, Nbr, Ncr) := enrich3D uninit pt in
  let nenrich := getNum3dEnrich order in
  let len := (order * order * order)%nat in
  (0,
   fold_left (strain_deriv_step alpha dfde J Na Nb Nc) (seq 0 len) dfdu,
   fold_left (strain_deriv_step alpha dfde J Nar Nbr Ncr) (seq 0 nenrich) dfdubar).

End StrainSec.

End Strain.

(** * Theorems *)

Module CurvatureFacts.
Import Curvature.

Lemma grad_norm2_nonneg (g : list R) : 0 <= grad_norm2 g.
Proof. unfold grad_norm2. nra. Qed.

(** For [s >= 0], [max(|m+s|, |m-s|) = |m| + s] and
    [min(|m+s|, |m-s|) = | |m| - s |]: the code's selection. *)
Lemma kmax_kdiff_abs (KG KM : R) :
  curv_kmax_kdiff KG KM =
  (Rabs KM + sqrt (KM * KM - KG),
   Rabs (Rabs KM - sqrt (KM * KM - KG)) - (Rabs KM + sqrt (KM * KM - KG))).
Proof.
  unfold curv_kmax_kdiff.
  pose proof (sqrt_pos (KM * KM - KG)) as Hs.
  set (s := sqrt (KM * KM - KG)) in *.
  destruct (Rgt_dec _ _) as [Hgt | Hle];
  unfold Rabs in *;
  repeat match goal with
         | |- context [Rcase_abs ?x] => destruct (Rcase_abs x)
         | H : context [Rcase_abs ?x] |- _ => destruct (Rcase_abs x)
         end;
  f_equal; lra.
Qed.

Lemma KG_spec (g H : list R) : curv_KG g H = spec_kappa_G g H.
Proof.
  unfold curv_KG, spec_kappa_G.
  pose proof (grad_norm2_nonneg g) as Hn.
  destruct (Req_EM_T (grad_norm2 g) 0) as [E | E].
  - rewrite E, sqrt_0. unfold Rdiv. simpl. rewrite Rmult_0_l, Rinv_0. ring.
  - replace (sqrt (grad_norm2 g) ^ 4)
      with ((sqrt (grad_norm2 g) ^ 2) * (sqrt (grad_norm2 g) ^ 2)) by ring.
    rewrite pow2_sqrt by lra. reflexivity.
Qed.

Lemma KM_spec (g H : list R) : curv_KM g H = spec_kappa_M g H.
Proof.
  unfold curv_KM, spec_kappa_M.
  pose proof (grad_norm2_nonneg g) as Hn.
  destruct (Req_EM_T (grad_norm2 g) 0) as [E | E].
  - rewrite E, sqrt_0. unfold Rdiv. simpl.
    rewrite !Rmult_0_l, Rmult_0_r, Rinv_0. ring.
  - assert (Hsq : sqrt (grad_norm2 g) ^ 2 = grad_norm2 g) by (apply pow2_sqrt; lra).
    assert (Hpos : 0 < sqrt (grad_norm2 g)) by (apply sqrt_lt_R0; lra).
    replace (sqrt (grad_norm2 g) ^ 3)
      with (sqrt (grad_norm2 g) ^ 2 * sqrt (grad_norm2 g)) by ring.
    rewrite Hsq. replace 0.5 with (/ 2) by lra. field. split; lra.
Qed.

(** The result of [evalCurvature] in closed form: the larger principal
    curvature in absolute value is [|KM| + sqrt(KM^2 - KG)], the smaller one
    is [| |KM| - sqrt(KM^2 - KG) |]. *)
Lemma evalCurvature_closed_form (w val : R) (g H : list R) :
  evalCurvature w val g H =
  indicator_factor val *
  ((Rabs (spec_kappa_M g H) + sqrt (spec_kappa_M g H ^ 2 - spec_kappa_G g H)) +
   ln (1 + exp (w * (Rabs (Rabs (spec_kappa_M g H)
                              - sqrt (spec_kappa_M g H ^ 2 - spec_kappa_G g H))
                     - (Rabs (spec_kappa_M g H)
                        + sqrt (spec_kappa_M g H ^ 2 - spec_kappa_G g H))))) / w).
Proof.
  unfold evalCurvature. rewrite kmax_kdiff_abs, KG_spec, KM_spec.
  replace (spec_kappa_M g H ^ 2) with (spec_kappa_M g H * spec_kappa_M g H)
    by ring.
  reflexivity.
Qed.

Lemma ln2_ne_ln_1_exp_m2 : ln 2 <> ln (1 + exp (-2)).
Proof.
  intro E.
  pose proof (exp_pos (-2)) as Hp.
  apply ln_inv in E; [| lra | lra].
  pose proof (exp_increasing (-2) 0 ltac:(lra)) as Hlt.
  rewrite exp_0 in Hlt. lra.
Qed.

(** C2 (claim as stated, refuted).  With [g = (1,0,0)] and
    [H = diag(0, 1, -1)] one has [kappa_G = -1], [kappa_M = 0]: the code
    returns [1 + ln 2] (both principal curvatures have absolute value 1),
    while the stated formula with [kappa_min = |kappa_M| - sqrt(..) = -1]
    gives [1 + ln (1 + exp (-2))]. *)
Lemma evalCurvature_spec_counterexample :
  evalCurvature 1 0.5 [1; 0; 0] [0; 0; 0; 1; 0; -1] <>
  spec_curvature 1 0.5 [1; 0; 0] [0; 0; 0; 1; 0; -1].
Proof.
  rewrite evalCurvature_closed_form. unfold spec_curvature.
  assert (Hn : grad_norm2 [1; 0; 0] = 1)
    by (unfold grad_norm2, at_; simpl; ring).
  assert (HG : spec_kappa_G [1; 0; 0] [0; 0; 0; 1; 0; -1] = -1).
  { unfold spec_kappa_G. rewrite Hn, sqrt_1.
    unfold sym_quad, cofactor, at_; simpl. field. }
  assert (HM : spec_kappa_M [1; 0; 0] [0; 0; 0; 1; 0; -1] = 0).
  { unfold spec_kappa_M. rewrite Hn, sqrt_1.
    unfold sym_quad, at_; simpl. field. }
  rewrite HG, HM. unfold indicator_factor.
  replace (0 ^ 2 - -1) with 1 by ring. rewrite sqrt_1, Rabs_R0.
  replace (Rabs (0 - 1)) with 1
    by (rewrite Rabs_left; lra).
  replace (1 - 16 * (0.5 - 0.5) * (0.5 - 0.5) * (0.5 - 0.5) * (0.5 - 0.5))
    with 1 by lra.
  replace (1 * (1 - (0 + 1))) with 0 by ring.
  replace (1 * (0 - 1 - (0 + 1))) with (-2) by ring.
  rewrite exp_0. replace (1 + 1) with 2 by ring.
  intro E. apply ln2_ne_ln_1_exp_m2.
  assert (E' : ln 2 / 1 = ln (1 + exp (-2)) / 1) by lra.
  unfold Rdiv in E'. rewrite Rinv_1, !Rmult_1_r in E'. exact E'.
Qed.

(** C2 (amended).  For every [x], [g] and [H], [evalCurvature] returns
    [b*(kappa_max + log(1 + exp(k*(kappa_min - kappa_max)))/k)] with
    [b = 1 - 16 (x - 1/2)^4], [kappa_G = g^T cof(H) g/||g||^4],
    [kappa_M = (g^T H g - ||g||^2 tr H)/(2||g||^3)],
    [kappa_max = |kappa_M| + sqrt(kappa_M^2 - kappa_G)] and
    [kappa_min = | |kappa_M| - sqrt(kappa_M^2 - kappa_G) |]: the two principal
    curvatures [kappa_M +- sqrt(..)] are taken in absolute value before the
    larger and the smaller are selected. *)
Theorem evalCurvature_abs_principal (k x : R) (g H : list R) :
  let kG := spec_kappa_G g H in
  let kM := spec_kappa_M g H in
  let kappa_max := Rabs kM + sqrt (kM ^ 2 - kG) in
  let kappa_min := Rabs (Rabs kM - sqrt (kM ^ 2 - kG)) in
  evalCurvature k x g H =
  indicator_factor x *
  (kappa_max + ln (1 + exp (k * (kappa_min - kappa_max))) / k).
Proof. simpl. apply evalCurvature_closed_form. Qed.

(** C10.  At a zero gradient ([gn = 0]) both guarded divisions are skipped:
    [KG = KM = 0], so [kmax = kdiff = 0] and [evalCurvature] returns
    [factor*(0 + log(1 + exp(k*0))/k)]. *)
Theorem evalCurvature_zero_gradient (k x : R) (g H : list R)
  (Hg : grad_norm2 g = 0) :
  curv_KG g H = 0 /\ curv_KM g H = 0 /\
  evalCurvature k x g H =
  indicator_factor x * (0 + ln (1 + exp (k * 0)) / k).
Proof.
  assert (HKG : curv_KG g H = 0).
  { unfold curv_KG. destruct (Req_EM_T (grad_norm2 g) 0); [reflexivity | contradiction]. }
  assert (HKM : curv_KM g H = 0).
  { unfold curv_KM. destruct (Req_EM_T (grad_norm2 g) 0); [reflexivity | contradiction]. }
  split; [exact HKG | split; [exact HKM |]].
  unfold evalCurvature. rewrite HKG, HKM, kmax_kdiff_abs.
  replace (0 * 0 - 0) with 0 by ring. rewrite sqrt_0, Rabs_R0.
  replace (0 - 0) with 0 by ring. rewrite Rabs_R0.
  replace (0 - (0 + 0)) with 0 by ring. replace (0 + 0) with 0 by ring.
  reflexivity.
Qed.

Lemma evalCurvature_zero_gradient_witness :
  grad_norm2 [0; 0; 0] = 0 /\
  (curv_KG [0; 0; 0] [1; 2; 3; 4; 5; 6] = 0 /\
   curv_KM [0; 0; 0] [1; 2; 3; 4; 5; 6] = 0 /\
   evalCurvature 10 0.3 [0; 0; 0] [1; 2; 3; 4; 5; 6] =
   indicator_factor 0.3 * (0 + ln (1 + exp (10 * 0)) / 10)).
Proof.
  assert (Hg : grad_norm2 [0; 0; 0] = 0)
    by (unfold grad_norm2, at_; simpl; ring).
  split; [exact Hg |].
  apply (evalCurvature_zero_gradient 10 0.3 [0; 0; 0] [1; 2; 3; 4; 5; 6] Hg).
Defined.

End CurvatureFacts.

Module EnrichmentFacts.
Import Enrichment.

(** Derivative rules stated on explicit lambdas, so that they apply to the
    bodies produced by unfolding the evaluators. *)
Lemma dpl_value (f : R -> R) (x l l' : R) :
  derivable_pt_lim f x l' -> l' = l -> derivable_pt_lim f x l.
Proof. intros H E; subst; exact H. Qed.

Lemma dpl_const (c x : R) : derivable_pt_lim (fun _ => c) x 0.
Proof. apply derivable_pt_lim_const. Qed.

Lemma dpl_id (x : R) : derivable_pt_lim (fun t => t) x 1.
Proof. apply derivable_pt_lim_id. Qed.

Lemma dpl_plus (f g : R -> R) (x l1 l2 : R) :
  derivable_pt_lim f x l1 -> derivable_pt_lim g x l2 ->
  derivable_pt_lim (fun t => f t + g t) x (l1 + l2).
Proof. apply derivable_pt_lim_plus. Qed.

Lemma dpl_minus (f g : R -> R) (x l1 l2 : R) :
  derivable_pt_lim f x l1 -> derivable_pt_lim g x l2 ->
  derivable_pt_lim (fun t => f t - g t) x (l1 - l2).
Proof. apply derivable_pt_lim_minus. Qed.

Lemma dpl_mult (f g : R -> R) (x l1 l2 : R) :
  derivable_pt_lim f x l1 -> derivable_pt_lim g x l2 ->
  derivable_pt_lim (fun t => f t * g t) x (l1 * g x + f x * l2).
Proof. apply derivable_pt_lim_mult. Qed.

Lemma dpl_opp (f : R -> R) (x l : R) :
  derivable_pt_lim f x l -> derivable_pt_lim (fun t => - f t) x (- l).
Proof. apply derivable_pt_lim_opp. Qed.

(** Builds the derivative of a polynomial body by the sum, product and
    constant rules. *)
Ltac dpl_build :=
  lazymatch goal with
  | |- derivable_pt_lim (fun _ => ?c) _ _ => apply dpl_const
  | |- derivable_pt_lim (fun t => t) _ _ => apply dpl_id
  | |- derivable_pt_lim (fun t => @?f t + @?g t) _ _ =>
      eapply dpl_plus; [dpl_build | dpl_build]
  | |- derivable_pt_lim (fun t => @?f t - @?g t) _ _ =>
      eapply dpl_minus; [dpl_build | dpl_build]
  | |- derivable_pt_lim (fun t => @?f t * @?g t) _ _ =>
      eapply dpl_mult; [dpl_build | dpl_build]
  | |- derivable_pt_lim (fun t => - @?f t) _ _ =>
      eapply dpl_opp; dpl_build
  | |- derivable_pt_lim (Rplus ?c) ?x ?l =>
      change (derivable_pt_lim (fun t => c + t) x l); dpl_build
  | |- derivable_pt_lim (Rminus ?c) ?x ?l =>
      change (derivable_pt_lim (fun t => c - t) x l); dpl_build
  | |- derivable_pt_lim (Rmult ?c) ?x ?l =>
      change (derivable_pt_lim (fun t => c * t) x l); dpl_build
  end.

Ltac dpl_solve :=
  cbn [at_ evalEnrichmentFuncs2D eval2ndEnrichmentFuncs3D
       eval3rdEnrichmentFuncs3D fst snd nth Nat.eqb];
  eapply dpl_value; [dpl_build | cbv beta; ring].

Ltac by_index i tac :=
  destruct i as [|i]; [tac | first [lia | by_index i tac]].

End EnrichmentFacts.
Module EnrichmentTheorems.
Import Enrichment EnrichmentFacts.

(** C9.  For the supported orders (2, 3, 4 in 2D; 2, 3 in 3D) and every
    parametric point, each derivative array emitted by an enrichment
    evaluator is the exact partial derivative, along the corresponding
    parametric coordinate, of the shape-function value [N] emitted by the
    same call ([derivable_pt_lim] is the limit of the difference quotient). *)
Theorem enrichment_derivatives_exact (knots : list R) (x y z : R) :
  (forall order i, In order [2; 3; 4]%nat -> (i < getNum2dEnrich order)%nat ->
     derivable_pt_lim
       (fun t => at_ (fst (fst (evalEnrichmentFuncs2D order [t; y] knots))) i) x
       (at_ (snd (fst (evalEnrichmentFuncs2D order [x; y] knots))) i) /\
     derivable_pt_lim
       (fun t => at_ (fst (fst (evalEnrichmentFuncs2D order [x; t] knots))) i) y
       (at_ (snd (evalEnrichmentFuncs2D order [x; y] knots)) i)) /\
  (forall i, (i < getNum3dEnrich 2)%nat ->
     derivable_pt_lim
       (fun t => at_ (fst (fst (fst (eval2ndEnrichmentFuncs3D [t; y; z])))) i) x
       (at_ (snd (fst (fst (eval2ndEnrichmentFuncs3D [x; y; z])))) i) /\
     derivable_pt_lim
       (fun t => at_ (fst (fst (fst (eval2ndEnrichmentFuncs3D [x; t; z])))) i) y
       (at_ (snd (fst (eval2ndEnrichmentFuncs3D [x; y; z]))) i) /\
     derivable_pt_lim
       (fun t => at_ (fst (fst (fst (eval2ndEnrichmentFuncs3D [x; y; t])))) i) z
       (at_ (snd (eval2ndEnrichmentFuncs3D [x; y; z])) i)) /\
  (forall i, (i < getNum3dEnrich 3)%nat ->
     derivable_pt_lim
       (fun t => at_ (fst (fst (fst (eval3rdEnrichmentFuncs3D [t; y; z])))) i) x
       (at_ (snd (fst (fst (eval3rdEnrichmentFuncs3D [x; y; z])))) i) /\
     derivable_pt_lim
       (fun t => at_ (fst (fst (fst (eval3rdEnrichmentFuncs3D [x; t; z])))) i) y
       (at_ (snd (fst (eval3rdEnrichmentFuncs3D [x; y; z]))) i) /\
     derivable_pt_lim
       (fun t => at_ (fst (fst (fst (eval3rdEnrichmentFuncs3D [x; y; t])))) i) z
       (at_ (snd (eval3rdEnrichmentFuncs3D [x; y; z])) i)).
Proof.
  split; [| split].
  - intros order i Hord Hi.
    destruct Hord as [<- | [<- | [<- | []]]]; cbn in Hi;
      by_index i ltac:(split; dpl_solve).
  - intros i Hi. cbn in Hi.
    by_index i ltac:(split; [dpl_solve | split; dpl_solve]).
  - intros i Hi. cbn in Hi.
    by_index i ltac:(split; [dpl_solve | split; dpl_solve]).
Qed.

Lemma enrichment_derivatives_exact_witness :
  (In 4%nat [2; 3; 4]%nat /\ (8 < getNum2dEnrich 4)%nat) /\
  (derivable_pt_lim
     (fun t => at_ (fst (fst (evalEnrichmentFuncs2D 4 [t; 0.25] [-1; -0.5; 0.5; 1]))) 8)
     0.1 (at_ (snd (fst (evalEnrichmentFuncs2D 4 [0.1; 0.25] [-1; -0.5; 0.5; 1]))) 8) /\
   derivable_pt_lim
     (fun t => at_ (fst (fst (evalEnrichmentFuncs2D 4 [0.1; t] [-1; -0.5; 0.5; 1]))) 8)
     0.25 (at_ (snd (evalEnrichmentFuncs2D 4 [0.1; 0.25] [-1; -0.5; 0.5; 1])) 8)).
Proof.
  assert (Hin : In 4%nat [2; 3; 4]%nat) by (simpl; tauto).
  assert (Hlt : (8 < getNum2dEnrich 4)%nat) by (vm_compute; lia).
  split; [split; assumption |].
  exact (proj1 (enrichment_derivatives_exact [-1; -0.5; 0.5; 1] 0.1 0.25 0)
               4%nat 8%nat Hin Hlt).
Defined.

End EnrichmentTheorems.

Module RefinedBufferFacts.
Import RefinedBuffer.
Local Open Scope nat_scope.

(** Every offset written by the 2D builder lies below its allocation. *)
Lemma uref_writes_2D_in_bounds (vars_per_node refined_order off : nat) :
  In off (uref_writes_2D vars_per_node refined_order) ->
  (off < uref_size_2D vars_per_node refined_order)%nat.
Proof.
  unfold uref_writes_2D, uref_size_2D.
  rewrite !in_app_iff.
  intros [H | [H | H]].
  3: apply in_flat_map in H; destruct H as [i [Hi H]].
  2: apply in_flat_map in H; destruct H as [m [Hm H]];
     apply in_flat_map in H; destruct H as [n [Hn H]].
  - apply in_seq in H. lia.
  - apply in_map_iff in H. destruct H as [j [<- Hj]].
    apply in_seq in Hm, Hn, Hj.
    assert (n + refined_order * m < refined_order * refined_order)%nat by nia.
    nia.
  - apply in_map_iff in H. destruct H as [j [<- Hj]].
    apply in_seq in Hi, Hj. nia.
Qed.

(** Whenever the refined order exceeds the coarse order, the 3D builder
    writes at an offset at or past the end of [uref]. *)
Lemma uref_writes_3D_out_of_bounds (vars_per_node order refined_order : nat) :
  (0 < vars_per_node)%nat -> (order < refined_order)%nat ->
  In (uref_size_3D vars_per_node order)
     (uref_writes_3D vars_per_node refined_order).
Proof.
  intros Hv Ho. unfold uref_writes_3D, uref_size_3D.
  apply in_or_app. left. apply in_seq.
  split; [lia |].
  assert (order * order * order < refined_order * refined_order * refined_order)%nat.
  { apply Nat.mul_lt_mono_nonneg; [lia | | lia | lia].
    apply Nat.mul_lt_mono_nonneg; lia. }
  nia.
Qed.

(** C5 (code bug).  With [order = 2], [refined_order = 3] (the
    order-elevated refined forest) and [vars_per_node = 3], [uref] holds
    [3*2*2*2 = 24] entries, yet [addRefinedSolution3D] writes offset 80
    ([vars_per_node*26 + 2], the last refined node); the 2D sibling sizes the
    buffer with [refined_order] and stays in bounds
    ([uref_writes_2D_in_bounds]). *)
Theorem addRefinedSolution3D_uref_overflow :
  uref_size_3D 3 2 = 24%nat /\
  In 80%nat (uref_writes_3D 3 3) /\
  (forall off, In off (uref_writes_3D 3 3) -> (off <= 80)%nat) /\
  (24 <= 80)%nat.
Proof.
  split; [reflexivity |].
  split; [vm_compute; tauto |].
  split; [| lia].
  intros off H. unfold uref_writes_3D in H.
  rewrite !in_app_iff in H.
  destruct H as [H | [H | H]].
  3: apply in_flat_map in H; destruct H as [i [Hi H]].
  2: apply in_flat_map in H; destruct H as [p [Hp H]];
     apply in_flat_map in H; destruct H as [m [Hm H]];
     apply in_flat_map in H; destruct H as [n [Hn H]].
  - apply in_seq in H. lia.
  - apply in_map_iff in H. destruct H as [j [<- Hj]].
    apply in_seq in Hp, Hm, Hn, Hj. lia.
  - apply in_map_iff in H. destruct H as [j [<- Hj]].
    apply in_seq in Hi, Hj. lia.
Qed.

End RefinedBufferFacts.

Module AdjointErrorFacts.
Import AdjointError.

Lemma stride_loop_corners (r : nat) :
  (2 <= r)%nat -> stride_loop (S r) 0 (r - 1) r = [0%nat; (r - 1)%nat].
Proof.
  intros Hr. destruct r as [|[|r']]; [lia | lia |].
  cbn [stride_loop]. replace (Nat.ltb 0 (S (S r'))) with true by reflexivity.
  replace (0 + (S (S r') - 1))%nat with (S r') by lia.
  replace (S (S r') - 1)%nat with (S r') by lia.
  cbn [stride_loop].
  replace (Nat.ltb (S r') (S (S r'))) with true
    by (symmetry; apply Nat.ltb_lt; lia).
  destruct r' as [|r''].
  - reflexivity.
  - cbn [stride_loop].
    replace (Nat.ltb (S (S r'') + S (S r'')) (S (S (S r'')))) with false
      by (symmetry; apply Nat.ltb_ge; lia).
    reflexivity.
Qed.

Lemma fold_left_plus_shift (l : list R) (a : R) :
  fold_left Rplus l a = a + list_sum l.
Proof.
  revert a; induction l as [|x l IH]; intros a; simpl; [ring |].
  rewrite IH. ring.
Qed.

Lemma fold_left_accum_shift {A : Type} (f : A -> R) (l : list A) (a : R) :
  fold_left (fun acc x => acc + f x) l a = a + list_sum (map f l).
Proof.
  revert a; induction l as [|x l IH]; intros a; simpl; [ring |].
  rewrite IH. ring.
Qed.

Lemma local_corr_sum (p : Proc) :
  local_corr p = list_sum (map (fun e => list_sum (ae_err e)) p).
Proof.
  unfold local_corr.
  assert (G : forall a, fold_left (fun acc e => fold_left Rplus (ae_err e) acc) p a
                        = a + list_sum (map (fun e => list_sum (ae_err e)) p)).
  { induction p as [|e p IH]; intros a; simpl; [ring |].
    rewrite IH, fold_left_plus_shift. ring. }
  rewrite G. ring.
Qed.

(** C7.  After the nodal error vector has been assembled and distributed
    (read back through [nodal_error]), each element indicator is the corner
    weight ([1/4] in 2D, [1/8] in 3D) times the absolute value of the sum of
    the nodal errors at the refined-element corners (tensor indices [0] and
    [refined_order - 1] along each axis); the returned total error is the
    sum-reduce over processes of the sum of the indicators, and the returned
    correction the sum-reduce of the sum of all deposited [err] values. *)
Theorem adjoint_indicator_corners (nodal_error : Z -> R) (ro : nat)
  (procs : list Proc) (Hro : (2 <= ro)%nat) :
  let err e := map nodal_error (ae_nodes e) in
  let idx2 a b := (a + b * ro)%nat in
  let idx3 a b c := (a + b * ro + c * ro * ro)%nat in
  let q := (ro - 1)%nat in
  (forall e, elem_indicator_2D nodal_error ro e =
     1/4 * Rabs (at_ (err e) (idx2 0%nat 0%nat) + at_ (err e) (idx2 q 0%nat) +
                 at_ (err e) (idx2 0%nat q) + at_ (err e) (idx2 q q))) /\
  (forall e, elem_indicator_3D nodal_error ro e =
     1/8 * Rabs (at_ (err e) (idx3 0%nat 0%nat 0%nat) + at_ (err e) (idx3 q 0%nat 0%nat) +
                 at_ (err e) (idx3 0%nat q 0%nat) + at_ (err e) (idx3 q q 0%nat) +
                 at_ (err e) (idx3 0%nat 0%nat q) + at_ (err e) (idx3 q 0%nat q) +
                 at_ (err e) (idx3 0%nat q q) + at_ (err e) (idx3 q q q))) /\
  (forall ind, ind = elem_indicator_2D nodal_error ro \/
               ind = elem_indicator_3D nodal_error ro ->
     let res := TMR_AdjointErrorEst ind procs in
     fst (fst res) = map (map ind) procs /\
     snd (fst res) = list_sum (map (fun p => list_sum (map ind p)) procs) /\
     snd res = list_sum (map (fun p => list_sum (map (fun e => list_sum (ae_err e)) p))
                             procs)).
Proof.
  intros err idx2 idx3 q.
  split; [| split].
  - intros e. unfold elem_indicator_2D, corners_2D, nodal_err_of.
    rewrite stride_loop_corners by exact Hro.
    cbn [flat_map map app fold_left].
    replace 0.25 with (1/4) by lra.
    f_equal. f_equal. unfold err, idx2, q. ring.
  - intros e. unfold elem_indicator_3D, corners_3D, nodal_err_of.
    cbn [flat_map map app fold_left seq].
    unfold err, idx3, q.
    rewrite ?Nat.mul_0_r, ?Nat.mul_0_l, ?Nat.mul_1_r, ?Nat.add_0_r, ?Nat.add_0_l.
    replace 0.125 with (1/8) by lra.
    f_equal. f_equal. ring.
  - intros ind _ res. unfold res, TMR_AdjointErrorEst, allreduce_sum. simpl.
    split; [reflexivity | split].
    + f_equal. apply map_ext. intros p. unfold local_error_remain.
      rewrite fold_left_accum_shift. ring.
    + f_equal. apply map_ext. intros p. apply local_corr_sum.
Qed.

Lemma adjoint_indicator_corners_witness :
  (2 <= 3)%nat /\
  elem_indicator_2D (fun n => IZR n) 3 (mkAdjElem [0; 1; 2; 3; 4; 5; 6; 7; 8]%Z []) =
  1/4 * Rabs (at_ (map (fun n => IZR n) [0; 1; 2; 3; 4; 5; 6; 7; 8]%Z) 0%nat +
              at_ (map (fun n => IZR n) [0; 1; 2; 3; 4; 5; 6; 7; 8]%Z) 2%nat +
              at_ (map (fun n => IZR n) [0; 1; 2; 3; 4; 5; 6; 7; 8]%Z) 6%nat +
              at_ (map (fun n => IZR n) [0; 1; 2; 3; 4; 5; 6; 7; 8]%Z) 8%nat).
Proof.
  split; [lia |].
  exact (proj1 (adjoint_indicator_corners (fun n => IZR n) 3 [] ltac:(lia))
               (mkAdjElem [0; 1; 2; 3; 4; 5; 6; 7; 8]%Z [])).
Defined.

End AdjointErrorFacts.

Module StrainEnergyFacts.
Import StrainEnergy.

Lemma se_center_value :
  at_ (se_vars_interp_3D 2 3 1 [-1; 0; 1] [1; 0; 0; 0; 0; 0; 0; 0; 0]) 13 = 1.
Proof.
  unfold se_vars_interp_3D, eval2ndEnrichmentFuncs3D_N, at_.
  cbn -[Rplus Rmult Rminus Ropp IZR].
  ring.
Qed.

Lemma se_zero_value :
  at_ (se_vars_interp_3D 2 3 1 [-1; 0; 1] [0; 0; 0; 0; 0; 0; 0; 0; 0]) 13 = 0.
Proof.
  unfold se_vars_interp_3D, eval2ndEnrichmentFuncs3D_N, at_.
  cbn -[Rplus Rmult Rminus Ropp IZR].
  ring.
Qed.

(** C6 (code bug, octree version).  The octree [TMR_StrainEnergyErrorEst]
    fills [vars_interp] with the reconstruction at the refined knots but
    hands [vars_elem] (never loaded) to [computeEnergies]: its indicator does
    not depend on the reconstruction [ubar] at all.  With a collaborator
    whose energy is the square of the centre-node value, order 2, refined
    order 3 and one variable per node, the indicator the claim describes is
    0 for [ubar = 0] and 1 for [ubar = e_0], while the code returns the same
    value for both. *)
Theorem strainEnergy3D_ignores_reconstruction :
  (forall Pe order refined_order vars_per_node refined_knots vars_elem
          Xpts ubar1 ubar2,
     se_elem_error_3D Pe order refined_order vars_per_node refined_knots
                      vars_elem Xpts ubar1 =
     se_elem_error_3D Pe order refined_order vars_per_node refined_knots
                      vars_elem Xpts ubar2) /\
  let Pe := fun (X v : list R) => at_ v 13 * at_ v 13 in
  spec_se_elem_error_3D Pe 2 3 1 [-1; 0; 1] [] [0; 0; 0; 0; 0; 0; 0; 0; 0] = 0 /\
  spec_se_elem_error_3D Pe 2 3 1 [-1; 0; 1] [] [1; 0; 0; 0; 0; 0; 0; 0; 0] = 1 /\
  se_elem_error_3D Pe 2 3 1 [-1; 0; 1] [] [] [0; 0; 0; 0; 0; 0; 0; 0; 0] =
  se_elem_error_3D Pe 2 3 1 [-1; 0; 1] [] [] [1; 0; 0; 0; 0; 0; 0; 0; 0].
Proof.
  split.
  - intros. reflexivity.
  - intros Pe. unfold spec_se_elem_error_3D, Pe.
    rewrite se_zero_value, se_center_value.
    split; [| split].
    + rewrite Rmult_0_l. apply Rabs_R0.
    + rewrite Rmult_1_l. apply Rabs_R1.
    + reflexivity.
Qed.

End StrainEnergyFacts.

Module KSFacts.
Import KS.

Lemma list_sum_app (l1 l2 : list R) :
  list_sum (l1 ++ l2) = list_sum l1 + list_sum l2.
Proof.
  induction l1 as [|x l1 IH]; simpl; [ring | rewrite IH; ring].
Qed.

Lemma fold_left_map_comp {A B C : Type} (g : C -> B -> C) (h : A -> B)
  (l : list A) (a : C) :
  fold_left g (map h l) a = fold_left (fun a x => g a (h x)) l a.
Proof.
  revert a; induction l as [|x l IH]; intros a; simpl; auto.
Qed.

Lemma fold_left_accum_ext {A : Type} (G : R -> A -> R) (T : A -> R)
  (HG : forall a x, G a x = a + T x) (l : list A) (a : R) :
  fold_left G l a = a + list_sum (map T l).
Proof.
  revert a; induction l as [|x l IH]; intros a; simpl; [ring |].
  rewrite IH, HG. ring.
Qed.

(** A fold whose step keeps the larger of the accumulator and the new value
    returns an upper bound of the seed and of the list, equal to one of
    them. *)
Lemma fold_max_like (g : R -> R -> R)
  (Hg : forall m f, m <= g m f /\ f <= g m f /\ (g m f = m \/ g m f = f))
  (l : list R) (m0 : R) :
  m0 <= fold_left g l m0 /\
  (forall y, In y l -> y <= fold_left g l m0) /\
  (fold_left g l m0 = m0 \/ In (fold_left g l m0) l).
Proof.
  revert m0; induction l as [|x l IH]; intros m0; simpl.
  - split; [lra | split; [tauto | auto]].
  - destruct (IH (g m0 x)) as [H1 [H2 H3]].
    destruct (Hg m0 x) as [G1 [G2 G3]].
    split; [lra |]. split.
    + intros y [<- | Hy]; [lra | auto].
    + destruct H3 as [H3 | H3]; [| auto].
      rewrite H3. destruct G3 as [G3 | G3]; [left | right; left]; auto.
Qed.

Lemma fval_step_max (m f : R) :
  let r := if Rgt_dec f m then f else m in
  m <= r /\ f <= r /\ (r = m \/ r = f).
Proof.
  simpl. destruct (Rgt_dec f m); lra.
Qed.

Lemma Rmax_step_max (m f : R) :
  m <= Rmax m f /\ f <= Rmax m f /\ (Rmax m f = m \/ Rmax m f = f).
Proof.
  unfold Rmax. destruct (Rle_dec m f); lra.
Qed.

Section Facts.
Context {Elem : Type} (c : StressConstraint Elem).

Let F := fun q : Elem * (nat * nat * nat) => fval_at c (fst q) (snd q).
Let term := fun (M : R) (q : Elem * (nat * nat * nat)) =>
  detJw_at c (fst q) (snd q) * exp (ks_weight c * (fval_at c (fst q) (snd q) - M)).
Let lsweep := fun elems : list Elem =>
  flat_map (fun el => map (pair el) (quad_loop c)) elems.

Lemma local_max_fail_fold (elems : list Elem) (a : R) :
  fold_left (max_fail_elem c) elems a =
  fold_left (fun m f => if Rgt_dec f m then f else m) (map F (lsweep elems)) a.
Proof.
  unfold lsweep. revert a; induction elems as [|el elems IH]; intros a; simpl; auto.
  rewrite map_app, fold_left_app, IH. f_equal.
  rewrite map_map, fold_left_map_comp. reflexivity.
Qed.

Lemma local_max_fail_spec (elems : list Elem) :
  -1e20 <= local_max_fail c elems /\
  (forall q, In q (lsweep elems) -> F q <= local_max_fail c elems) /\
  (local_max_fail c elems = -1e20 \/ In (local_max_fail c elems) (map F (lsweep elems))).
Proof.
  unfold local_max_fail. rewrite local_max_fail_fold.
  destruct (fold_max_like _ fval_step_max (map F (lsweep elems)) (-1e20))
    as [H1 [H2 H3]].
  split; [auto | split; [| auto]].
  intros q Hq. apply H2, in_map, Hq.
Qed.

Lemma fail_sum_elem_sum (M s : R) (el : Elem) :
  fail_sum_elem c M s el = s + list_sum (map (fun q => term M (el, q)) (quad_loop c)).
Proof.
  unfold fail_sum_elem. apply fold_left_accum_ext.
  intros a [[ii jj] kk]. reflexivity.
Qed.

Lemma local_fail_sum_sum (M : R) (elems : list Elem) :
  local_fail_sum c M elems = list_sum (map (term M) (lsweep elems)).
Proof.
  unfold local_fail_sum, lsweep.
  assert (G : forall a, fold_left (fail_sum_elem c M) elems a =
                        a + list_sum (map (term M)
                              (flat_map (fun el => map (pair el) (quad_loop c)) elems))).
  { induction elems as [|el elems IH]; intros a; simpl; [ring |].
    rewrite IH, fail_sum_elem_sum, map_app, list_sum_app, map_map. ring. }
  rewrite G. ring.
Qed.

Lemma sweep_fail_sum (M : R) (procs : list (list Elem)) :
  list_sum (map (local_fail_sum c M) procs) = list_sum (map (term M) (sweep c procs)).
Proof.
  unfold sweep. induction procs as [|p procs IH]; simpl; [reflexivity |].
  rewrite map_app, list_sum_app, IH, local_fail_sum_sum. reflexivity.
Qed.

Lemma allreduce_max_spec (vals : list R) :
  vals <> [] ->
  (forall v, In v vals -> v <= allreduce_max vals) /\ In (allreduce_max vals) vals.
Proof.
  destruct vals as [|v vs]; [congruence | intros _]; simpl.
  destruct (fold_max_like Rmax Rmax_step_max vs v) as [H1 [H2 H3]].
  split.
  - intros y [<- | Hy]; auto.
  - destruct H3 as [H3 | H3]; [left; auto | right; auto].
Qed.

End Facts.

(** C1.  Whenever some quadrature point of the sweep has a failure value
    not below the seed [-1e20] of [ks_max_fail], [evalConstraint] returns
    [M + log(S)/ks_weight], where [M] is the maximum of the failure values
    [fval] over every element of every process and every point of the
    tensor Gauss rule (evaluated on the reconstruction [recon] of the
    element), and [S] is the sum over the same list of points of
    [detJ*w_ii*w_jj*w_kk*exp(ks_weight*(fval - M))]. *)
Theorem evalConstraint_ks_value {Elem : Type} (c : StressConstraint Elem)
  (procs : list (list Elem))
  (Hseed : exists q, In q (sweep c procs) /\ -1e20 <= fval_at c (fst q) (snd q)) :
  exists ks_max_fail,
    In ks_max_fail (map (fun q => fval_at c (fst q) (snd q)) (sweep c procs)) /\
    (forall q, In q (sweep c procs) -> fval_at c (fst q) (snd q) <= ks_max_fail) /\
    evalConstraint c procs =
      ks_max_fail +
      ln (list_sum (map (fun q => detJw_at c (fst q) (snd q) *
                                  exp (ks_weight c * (fval_at c (fst q) (snd q) - ks_max_fail)))
                        (sweep c procs))) / ks_weight c.
Proof.
  set (M := allreduce_max (map (local_max_fail c) procs)).
  assert (Hne : map (local_max_fail c) procs <> []).
  { destruct procs as [|p procs]; [| discriminate].
    destruct Hseed as [q [[] _]]. }
  destruct (allreduce_max_spec _ Hne) as [Hub HM]. fold M in Hub, HM.
  assert (Hbound : forall q, In q (sweep c procs) -> fval_at c (fst q) (snd q) <= M).
  { intros q Hq. unfold sweep in Hq. apply in_flat_map in Hq.
    destruct Hq as [p [Hp Hq]].
    destruct (local_max_fail_spec c p) as [_ [H2 _]].
    specialize (H2 q Hq).
    specialize (Hub (local_max_fail c p) (in_map _ _ _ Hp)).
    simpl in H2. lra. }
  exists M. split; [| split; [exact Hbound |]].
  - apply in_map_iff in HM. destruct HM as [p [Hp Hin]].
    destruct (local_max_fail_spec c p) as [_ [_ [H3 | H3]]].
    + destruct Hseed as [q [Hq Hf]].
      specialize (Hbound q Hq).
      replace M with (fval_at c (fst q) (snd q)) by lra.
      apply (in_map (fun q => fval_at c (fst q) (snd q))), Hq.
    + rewrite <- Hp. apply in_map_iff in H3. destruct H3 as [q [Hfq Hq]].
      rewrite <- Hfq. apply (in_map (fun q => fval_at c (fst q) (snd q))).
      unfold sweep. apply in_flat_map. exists p. auto.
  - unfold evalConstraint. fold M. rewrite sweep_fail_sum. reflexivity.
Qed.

Lemma evalConstraint_ks_value_witness :
  let c0 := {| num_quad_pts := 1; gaussPts := [0]; gaussWts := [2];
               recon := fun _ : unit => []; evalStrain := fun _ _ _ => (1, []);
               failure := fun _ _ _ => 0; ks_weight := 1 |} in
  (exists q, In q (sweep c0 [[tt]]) /\ -1e20 <= fval_at c0 (fst q) (snd q)) /\
  exists ks_max_fail,
    In ks_max_fail (map (fun q => fval_at c0 (fst q) (snd q)) (sweep c0 [[tt]])) /\
    (forall q, In q (sweep c0 [[tt]]) -> fval_at c0 (fst q) (snd q) <= ks_max_fail) /\
    evalConstraint c0 [[tt]] =
      ks_max_fail +
      ln (list_sum (map (fun q => detJw_at c0 (fst q) (snd q) *
                                  exp (ks_weight c0 * (fval_at c0 (fst q) (snd q) - ks_max_fail)))
                        (sweep c0 [[tt]]))) / ks_weight c0.
Proof.
  intros c0.
  assert (Hs : exists q, In q (sweep c0 [[tt]]) /\ -1e20 <= fval_at c0 (fst q) (snd q)).
  { exists (tt, (0, 0, 0)%nat). split; [simpl; left; reflexivity | simpl; lra]. }
  split; [exact Hs | apply (evalConstraint_ks_value c0 [[tt]] Hs)].
Defined.

(** C8 (counterexample).  One element, one Gauss point of weight 2 and a
    Jacobian determinant of [-1]: the code adds [-8*exp(0) = -8] to
    [ks_fail_sum], whereas skipping non-positive determinants would leave
    it at 0. *)
Lemma ks_degenerate_counterexample :
  let c0 := {| num_quad_pts := 1; gaussPts := [0]; gaussWts := [2];
               recon := fun _ : unit => []; evalStrain := fun _ _ _ => (-1, []);
               failure := fun _ _ _ => 0; ks_weight := 1 |} in
  local_fail_sum c0 0 [tt] = -8 /\ spec_local_fail_sum c0 0 [tt] = 0 /\
  local_fail_sum c0 0 [tt] <> spec_local_fail_sum c0 0 [tt].
Proof.
  intros c0.
  assert (H1 : local_fail_sum c0 0 [tt] = -8).
  { unfold local_fail_sum, fail_sum_elem, c0. simpl.
    rewrite Rminus_0_r, Rmult_0_r, exp_0. unfold at_. simpl. lra. }
  assert (H2 : spec_local_fail_sum c0 0 [tt] = 0).
  { unfold spec_local_fail_sum, spec_fail_sum_elem, c0. simpl.
    unfold detJw_at, at_. simpl.
    destruct (Rle_dec (-1 * (2 * 2 * 2)) 0) as [_ | Hn]; [reflexivity | lra]. }
  split; [exact H1 | split; [exact H2 | rewrite H1, H2; lra]].
Qed.

(** C8 (amended).  [evalConstraint] applies no guard to the Jacobian
    determinant: on every process, [ks_fail_sum] is the sum over every
    element and every quadrature point of [detJ*w_g*exp(k*(f - M))],
    whatever the sign of [detJ], and a point with [detJ*w_g < 0] adds a
    strictly negative term. *)
Theorem ks_fail_sum_unguarded {Elem : Type} (c : StressConstraint Elem)
  (M : R) (elems : list Elem) :
  local_fail_sum c M elems =
    list_sum (map (fun q => detJw_at c (fst q) (snd q) *
                            exp (ks_weight c * (fval_at c (fst q) (snd q) - M)))
                  (flat_map (fun el => map (pair el) (quad_loop c)) elems)) /\
  (forall el q, detJw_at c el q < 0 ->
     detJw_at c el q * exp (ks_weight c * (fval_at c el q - M)) < 0).
Proof.
  split.
  - apply local_fail_sum_sum.
  - intros el q Hneg.
    pose proof (exp_pos (ks_weight c * (fval_at c el q - M))) as Hp. nra.
Qed.

End KSFacts.

Module ProjectorFacts.
Import Enrichment Projector.

(** *** Index arithmetic of the nested loops *)

Lemma idx_lt (bs o i r : nat) : (i < o)%nat -> (r < bs)%nat -> (bs * i + r < bs * o)%nat.
Proof.
  intros Hi Hr.
  assert (H : (bs * (i + 1) <= bs * o)%nat) by (apply Nat.mul_le_mono_l; lia).
  lia.
Qed.

Ltac idx_side :=
  intros; auto; try rewrite length_seq;
  first [ lia | apply idx_lt; [lia | first [lia | apply idx_lt; lia]] ].

Lemma nth_flat_map_uniform {A B : Type} (f : A -> list B) (l : list A)
  (bs i r : nat) (d : B) (x0 : A) :
  (forall x, In x l -> length (f x) = bs) -> (i < length l)%nat -> (r < bs)%nat ->
  nth (bs * i + r) (flat_map f l) d = nth r (f (nth i l x0)) d.
Proof.
  revert i; induction l as [|x l IH]; intros i Hf Hi Hr; simpl in *; [lia |].
  assert (Hx : length (f x) = bs) by auto.
  destruct i as [|i].
  - rewrite Nat.mul_0_r, Nat.add_0_l. apply app_nth1. lia.
  - rewrite app_nth2 by nia. rewrite Hx.
    replace (bs * S i + r - bs)%nat with (bs * i + r)%nat by nia.
    apply IH; auto; lia.
Qed.

Lemma length_flat_map_uniform {A B : Type} (f : A -> list B) (l : list A) (bs : nat) :
  (forall x, In x l -> length (f x) = bs) -> length (flat_map f l) = (bs * length l)%nat.
Proof.
  induction l as [|x l IH]; intros Hf; simpl; [lia |].
  rewrite length_app, (Hf x (or_introl eq_refl)), IH
    by (intros y Hy; apply Hf; right; exact Hy).
  lia.
Qed.

Lemma at_all_zero (l : list R) (i : nat) :
  (forall x, In x l -> x = 0) -> at_ l i = 0.
Proof.
  intros H. unfold at_.
  destruct (Nat.lt_ge_cases i (length l)) as [Hi | Hi].
  - apply H, nth_In, Hi.
  - apply nth_overflow, Hi.
Qed.

Lemma at_flat_map3 (o bs : nat) (F : nat -> nat -> nat -> list R) (ii jj kk r : nat) :
  (forall a b c, length (F a b c) = bs) ->
  (ii < o)%nat -> (jj < o)%nat -> (kk < o)%nat -> (r < bs)%nat ->
  at_ (flat_map (fun kk =>
         flat_map (fun jj => flat_map (fun ii => F ii jj kk) (seq 0 o)) (seq 0 o))
       (seq 0 o))
      (bs * (ii + jj * o + kk * o * o) + r)%nat = at_ (F ii jj kk) r.
Proof.
  intros HF Hi Hj Hk Hr. unfold at_.
  assert (L1 : forall jj kk, length (flat_map (fun ii => F ii jj kk) (seq 0 o)) = (bs * o)%nat).
  { intros. rewrite (length_flat_map_uniform _ _ bs), length_seq; auto. }
  assert (L2 : forall kk, length (flat_map (fun jj => flat_map (fun ii => F ii jj kk)
                 (seq 0 o)) (seq 0 o)) = (bs * o * o)%nat).
  { intros. rewrite (length_flat_map_uniform _ _ (bs * o)), length_seq; auto. }
  replace (bs * (ii + jj * o + kk * o * o) + r)%nat
    with ((bs * o * o) * kk + ((bs * o) * jj + (bs * ii + r)))%nat by ring.
  rewrite (nth_flat_map_uniform _ _ (bs * o * o) kk _ 0 0%nat) by idx_side.
  rewrite seq_nth by lia. simpl.
  rewrite (nth_flat_map_uniform _ _ (bs * o) jj _ 0 0%nat) by idx_side.
  rewrite seq_nth by lia. simpl.
  rewrite (nth_flat_map_uniform _ _ bs ii _ 0 0%nat) by idx_side.
  rewrite seq_nth by lia. reflexivity.
Qed.

Lemma at_flat_map2 (o bs : nat) (F : nat -> nat -> list R) (ii jj r : nat) :
  (forall a b, length (F a b) = bs) ->
  (ii < o)%nat -> (jj < o)%nat -> (r < bs)%nat ->
  at_ (flat_map (fun jj => flat_map (fun ii => F ii jj) (seq 0 o)) (seq 0 o))
      (bs * (ii + jj * o) + r)%nat = at_ (F ii jj) r.
Proof.
  intros HF Hi Hj Hr. unfold at_.
  assert (L1 : forall jj, length (flat_map (fun ii => F ii jj) (seq 0 o)) = (bs * o)%nat).
  { intros. rewrite (length_flat_map_uniform _ _ bs), length_seq; auto. }
  replace (bs * (ii + jj * o) + r)%nat with ((bs * o) * jj + (bs * ii + r))%nat by ring.
  rewrite (nth_flat_map_uniform _ _ (bs * o) jj _ 0 0%nat) by idx_side.
  rewrite seq_nth by lia. simpl.
  rewrite (nth_flat_map_uniform _ _ bs ii _ 0 0%nat) by idx_side.
  rewrite seq_nth by lia. reflexivity.
Qed.

(** Entry [3*k + a] of the per-variable triples [d[0..2]]. *)
Lemma at_triples (vpn : nat) (x0 x1 x2 : nat -> R) (comp : nat) :
  (comp < 3 * vpn)%nat ->
  at_ (flat_map (fun k => [x0 k; x1 k; x2 k]) (seq 0 vpn)) comp =
  nth (comp mod 3) [x0 (comp / 3)%nat; x1 (comp / 3)%nat; x2 (comp / 3)%nat] 0.
Proof.
  intros Hc. unfold at_.
  rewrite (Nat.div_mod_eq comp 3) at 1.
  rewrite (nth_flat_map_uniform _ _ 3 (comp / 3) _ 0 0%nat); auto.
  - rewrite seq_nth; [reflexivity | apply Nat.Div0.div_lt_upper_bound; lia].
  - rewrite length_seq. apply Nat.Div0.div_lt_upper_bound; lia.
  - apply Nat.mod_upper_bound; lia.
Qed.

(** [getValues(len, nodes, vals)] places node [nodes[i]] at [bs*i]. *)
Lemma at_getValues (dn : DepNodes) (st : Store) (bs : nat) (nodes : list Z)
  (i comp : nat) :
  (i < length nodes)%nat -> (comp < bs)%nat ->
  at_ (getValues dn st bs nodes) (bs * i + comp)%nat =
  getValue dn st (nth i nodes 0%Z) comp.
Proof.
  intros Hi Hc. unfold getValues, at_.
  rewrite (nth_flat_map_uniform _ _ bs i _ 0 0%Z); auto.
  - rewrite nth_indep with (d' := getValue dn st (nth i nodes 0%Z) 0%nat)
      by (rewrite length_map, length_seq; lia).
    rewrite map_nth, seq_nth by lia. reflexivity.
  - intros x _. rewrite length_map, length_seq. reflexivity.
Qed.

Lemma decode3 (o s : nat) :
  (s < o * o * o)%nat ->
  (s mod o + (s / o) mod o * o + s / (o * o) * o * o)%nat = s /\
  (s mod o < o)%nat /\ ((s / o) mod o < o)%nat /\ (s / (o * o) < o)%nat.
Proof.
  intros Hs.
  assert (Ho : o <> 0%nat) by (intros ->; simpl in Hs; lia).
  pose proof (Nat.div_mod_eq s o) as E1.
  pose proof (Nat.div_mod_eq (s / o) o) as E2.
  rewrite Nat.Div0.div_div in E2.
  split; [nia |].
  split; [apply Nat.mod_upper_bound; auto |].
  split; [apply Nat.mod_upper_bound; auto |].
  apply Nat.Div0.div_lt_upper_bound. nia.
Qed.

Lemma decode2 (o s : nat) :
  (s < o * o)%nat ->
  (s mod o + s / o * o)%nat = s /\ (s mod o < o)%nat /\ (s / o < o)%nat.
Proof.
  intros Hs.
  assert (Ho : o <> 0%nat) by (intros ->; simpl in Hs; lia).
  pose proof (Nat.div_mod_eq s o) as E1.
  split; [nia |].
  split; [apply Nat.mod_upper_bound; auto |].
  apply Nat.Div0.div_lt_upper_bound. nia.
Qed.

(** *** Sums *)

Lemma sum_upto_ext (n : nat) (f g : nat -> R) :
  (forall i, (i < n)%nat -> f i = g i) -> sum_upto n f = sum_upto n g.
Proof.
  induction n as [|n IH]; intros H; simpl; [reflexivity |].
  rewrite IH by (intros; apply H; lia). rewrite H by lia. reflexivity.
Qed.

Lemma sum_upto_scal (n : nat) (c : R) (f : nat -> R) :
  sum_upto n (fun i => c * f i) = c * sum_upto n f.
Proof.
  induction n as [|n IH]; simpl; [ring | rewrite IH; ring].
Qed.

Lemma sum_upto_zero (n : nat) (f : nat -> R) :
  (forall i, (i < n)%nat -> f i = 0) -> sum_upto n f = 0.
Proof.
  intros H. rewrite (sum_upto_ext n f (fun _ => 0)) by auto.
  clear H. induction n as [|n IH]; simpl; [reflexivity | rewrite IH; ring].
Qed.

Lemma sum_upto_nonneg (n : nat) (f : nat -> R) :
  (forall i, (i < n)%nat -> 0 <= f i) -> 0 <= sum_upto n f.
Proof.
  induction n as [|n IH]; intros H; simpl; [lra |].
  pose proof (H n ltac:(lia)). pose proof (IH ltac:(intros; apply H; lia)). lra.
Qed.

Lemma sum_upto_nonneg_zero (n : nat) (f : nat -> R) :
  (forall i, (i < n)%nat -> 0 <= f i) -> sum_upto n f = 0 ->
  forall i, (i < n)%nat -> f i = 0.
Proof.
  induction n as [|n IH]; intros H Hs i Hi; simpl in *; [lia |].
  pose proof (H n ltac:(lia)) as Hn.
  pose proof (sum_upto_nonneg n f ltac:(intros; apply H; lia)) as Hp.
  destruct (Nat.eq_dec i n) as [-> | Hne]; [lra |].
  apply IH; [intros; apply H; lia | lra | lia].
Qed.

Lemma list_sum_map_scal {A : Type} (c : R) (f : A -> R) (l : list A) :
  list_sum (map (fun x => c * f x) l) = c * list_sum (map f l).
Proof.
  induction l as [|x l IH]; simpl; [ring | rewrite IH; ring].
Qed.

Lemma list_sum_map_ext {A : Type} (f g : A -> R) (l : list A) :
  (forall x, In x l -> f x = g x) -> list_sum (map f l) = list_sum (map g l).
Proof.
  induction l as [|x l IH]; intros H; simpl; [reflexivity |].
  rewrite H by (left; reflexivity).
  rewrite IH by (intros; apply H; right; auto). reflexivity.
Qed.

Lemma list_sum_map_zero {A : Type} (f : A -> R) (l : list A) :
  (forall x, In x l -> f x = 0) -> list_sum (map f l) = 0.
Proof.
  induction l as [|x l IH]; intros H; simpl; [reflexivity |].
  rewrite H by (left; reflexivity).
  rewrite IH by (intros; apply H; right; auto). ring.
Qed.

(** *** The vector model *)

Lemma setValues_add_spec (bs : nat) (nodes : list Z) (vals : list R) (st : Store)
  (n : Z) (comp : nat) :
  setValues_add bs nodes vals st n comp =
  st n comp +
  (if Nat.ltb comp bs then
     sum_upto (length nodes) (fun j =>
       if Z.eqb n (nth j nodes 0%Z) then at_ vals (bs * j + comp)%nat else 0)
   else 0).
Proof.
  unfold setValues_add.
  generalize (length nodes) as m. intros m.
  induction m as [|m IH].
  - simpl. destruct (Nat.ltb comp bs); ring.
  - rewrite seq_S, fold_left_app. simpl. unfold add_entry at 1.
    rewrite IH.
    destruct (Z.eqb n (nth m nodes 0%Z)), (Nat.ltb comp bs); simpl; ring.
Qed.

Lemma accum_elems (bs : nat) (G : Store -> PElem -> Store) (V : PElem -> list R)
  (HG : forall st el, G st el = setValues_add bs (el_nodes el) (V el) st)
  (elems : list PElem) (st : Store) (n : Z) (comp : nat) :
  fold_left G elems st n comp =
  st n comp +
  (if Nat.ltb comp bs then
     list_sum (map (fun el =>
       sum_upto (length (el_nodes el)) (fun j =>
         if Z.eqb n (nth j (el_nodes el) 0%Z) then at_ (V el) (bs * j + comp)%nat
         else 0)) elems)
   else 0).
Proof.
  revert st; induction elems as [|el elems IH]; intros st; simpl.
  - destruct (Nat.ltb comp bs); ring.
  - rewrite IH, HG, setValues_add_spec.
    destruct (Nat.ltb comp bs); ring.
Qed.

Lemma dep_transfer_zero (dn : DepNodes) (st : Store) (n : Z) (comp : nat) :
  (forall d, (d < 0)%Z -> st d comp = 0) -> dep_transfer dn st n comp = 0.
Proof.
  intros H. unfold dep_transfer.
  generalize (num_dep dn) as m. intros m.
  assert (G2 : forall (i : nat) l a, fold_left (fun acc (p : Z * R) =>
      if Z.eqb (fst p) n then acc + snd p * st (- Z.of_nat i - 1)%Z comp else acc) l a = a).
  { intros i. induction l as [|p l IH]; intros a; simpl; [reflexivity |].
    destruct (Z.eqb (fst p) n); rewrite IH; [rewrite H by lia; ring | reflexivity]. }
  induction m as [|m IH]; [reflexivity |].
  rewrite seq_S, fold_left_app, IH. simpl. apply G2.
Qed.

Lemma getValue_finalized (dn : DepNodes) (st : Store) (n : Z) (comp : nat) :
  (0 <= n)%Z -> (forall d, (d < 0)%Z -> st d comp = 0) ->
  getValue dn (endSetValues_add dn st) n comp = st n comp.
Proof.
  intros Hn Hd. unfold getValue, endSetValues_add.
  replace (Z.leb 0 n) with true by (symmetry; apply Z.leb_le; lia).
  rewrite dep_transfer_zero by auto. ring.
Qed.

Lemma at_map_nodes (f : Z -> R) (nodes : list Z) (j : nat) :
  (j < length nodes)%nat -> at_ (map f nodes) j = f (nth j nodes 0%Z).
Proof.
  intros Hj. unfold at_.
  rewrite nth_indep with (d' := f 0%Z) by (rewrite length_map; lia).
  apply map_nth.
Qed.

Lemma triples_length (vpn : nat) (x0 x1 x2 : nat -> R) :
  length (flat_map (fun k => [x0 k; x1 k; x2 k]) (seq 0 vpn)) = (3 * vpn)%nat.
Proof.
  rewrite (length_flat_map_uniform _ _ 3), length_seq; [lia | reflexivity].
Qed.

Lemma zero_triples_entry (vpn comp : nat) :
  at_ (flat_map (fun _ : nat => [0; 0; 0]) (seq 0 vpn)) comp = 0.
Proof.
  apply at_all_zero. intros x Hx. apply in_flat_map in Hx.
  destruct Hx as [k [_ [<- | [<- | [<- | []]]]]]; reflexivity.
Qed.

(** The weights vector of [computeLocalWeights]: at an independent node,
    the number of element slots referencing it. *)
Lemma computeLocalWeights_raw (elems : list PElem) (n : Z) :
  fold_left (fun st el =>
      let welem := map (fun n => if Z.ltb n 0 then 0 else 1) (el_nodes el) in
      setValues_add 1 (el_nodes el) welem st) elems zeroEntries n 0%nat =
  list_sum (map (fun el =>
    sum_upto (length (el_nodes el)) (fun j =>
      if Z.eqb n (nth j (el_nodes el) 0%Z) then (if Z.ltb n 0 then 0 else 1) else 0))
    elems).
Proof.
  rewrite (accum_elems 1 _ (fun el => map (fun n => if Z.ltb n 0 then 0 else 1) (el_nodes el)))
    by reflexivity.
  simpl Nat.ltb. cbv iota. unfold zeroEntries. rewrite Rplus_0_l.
  apply list_sum_map_ext. intros el _.
  apply sum_upto_ext. intros j Hj.
  destruct (Z.eqb n (nth j (el_nodes el) 0%Z)) eqn:E; [| reflexivity].
  apply Z.eqb_eq in E.
  replace (1 * j + 0)%nat with j by lia.
  rewrite at_map_nodes by exact Hj. rewrite <- E. reflexivity.
Qed.

Lemma computeLocalWeights_value (dn : DepNodes) (elems : list PElem) (n : Z) :
  (0 <= n)%Z ->
  getValue dn (computeLocalWeights dn elems) n 0 =
  list_sum (map (fun el =>
    sum_upto (length (el_nodes el)) (fun j =>
      if Z.eqb n (nth j (el_nodes el) 0%Z) then 1 else 0)) elems).
Proof.
  intros Hn. unfold computeLocalWeights.
  rewrite getValue_finalized; auto.
  - rewrite computeLocalWeights_raw.
    replace (Z.ltb n 0) with false by (symmetry; apply Z.ltb_ge; lia).
    reflexivity.
  - intros d Hd. rewrite computeLocalWeights_raw.
    replace (Z.ltb d 0) with true by (symmetry; apply Z.ltb_lt; lia).
    apply list_sum_map_zero. intros el _.
    apply sum_upto_zero. intros j _. destruct (Z.eqb d _); reflexivity.
Qed.

Section Deriv3DFacts.
Variable dn : DepNodes.
Variable fe : FElib.
Variable vpn : nat.
Variable forest : OctForest.

Lemma block3D_length (el : PElem) (ue we : list R) (ii jj kk : nat) :
  length (node_deriv_block3D fe vpn forest el ue we ii jj kk) = (3 * vpn)%nat.
Proof.
  unfold node_deriv_block3D.
  destruct (oct_evalInterp forest _) as [[[N Na] Nb] Nc].
  destruct (Z.leb 0 _).
  - apply triples_length.
  - rewrite (length_flat_map_uniform _ _ 3), length_seq; [lia | reflexivity].
Qed.

Lemma delem3D_entry (el : PElem) (ue we : list R) (s comp : nat) :
  let o := oct_order forest in
  (s < o * o * o)%nat -> (comp < 3 * vpn)%nat ->
  at_ (delem3D fe vpn forest el ue we) (3 * vpn * s + comp)%nat =
  at_ (node_deriv_block3D fe vpn forest el ue we
         (s mod o) ((s / o) mod o) (s / (o * o))) comp.
Proof.
  intros o Hs Hc.
  destruct (decode3 o s Hs) as [E [H1 [H2 H3]]].
  set (ii := (s mod o)%nat) in *. set (jj := ((s / o) mod o)%nat) in *.
  set (kk := (s / (o * o))%nat) in *.
  rewrite <- E. unfold delem3D. fold o.
  apply (at_flat_map3 o (3 * vpn)
           (fun ii jj kk => node_deriv_block3D fe vpn forest el ue we ii jj kk));
    auto.
  intros. apply block3D_length.
Qed.

(** The entry of [delem] for element-local node [j] and component
    [comp]: zero at a dependent node, otherwise [1/welem[j]] times the
    gradient sample. *)
Lemma delem3D_slot (uvec weights : Store) (el : PElem) (j comp : nat) :
  let o := oct_order forest in
  length (el_nodes el) = (o * o * o)%nat ->
  (j < o * o * o)%nat -> (comp < 3 * vpn)%nat ->
  at_ (delem3D fe vpn forest el (getValues dn uvec vpn (el_nodes el))
               (getValues dn weights 1 (el_nodes el))) (3 * vpn * j + comp)%nat =
  if Z.leb 0 (nth j (el_nodes el) 0%Z) then
    / getValue dn weights (nth j (el_nodes el) 0%Z) 0 *
    spec_grad_sample3D dn fe forest uvec el j (comp / 3) (comp mod 3)
  else 0.
Proof.
  intros o Hlen Hj Hc.
  rewrite delem3D_entry by assumption.
  destruct (decode3 o j Hj) as [E [H1 [H2 H3]]].
  unfold node_deriv_block3D, spec_grad_sample3D. fold o.
  set (ii := (j mod o)%nat) in *. set (jj := ((j / o) mod o)%nat) in *.
  set (kk := (j / (o * o))%nat) in *.
  destruct (oct_evalInterp forest _) as [[[N Na] Nb] Nc].
  cbv zeta. rewrite E.
  destruct (Z.leb 0 (nth j (el_nodes el) 0%Z)); [| apply zero_triples_entry].
  rewrite at_triples by assumption.
  assert (Hk : (comp / 3 < vpn)%nat) by (apply Nat.Div0.div_lt_upper_bound; lia).
  assert (Hu : forall M, sum_upto (o * o * o) (fun i =>
              at_ (getValues dn uvec vpn (el_nodes el)) (vpn * i + comp / 3)%nat * at_ M i) =
            sum_upto (o * o * o) (fun i =>
              getValue dn uvec (nth i (el_nodes el) 0%Z) (comp / 3) * at_ M i)).
  { intros M. apply sum_upto_ext. intros i Hi.
    rewrite at_getValues by lia. reflexivity. }
  replace (at_ (getValues dn weights 1 (el_nodes el)) j)
    with (getValue dn weights (nth j (el_nodes el) 0%Z) 0).
  2:{ pose proof (at_getValues dn weights 1 (el_nodes el) j 0 ltac:(lia) ltac:(lia)) as Hw.
      rewrite Nat.mul_1_l, Nat.add_0_r in Hw. rewrite Hw. reflexivity. }
  rewrite !Hu.
  assert (Ha : (comp mod 3 < 3)%nat) by (apply Nat.mod_upper_bound; lia).
  destruct (comp mod 3) as [|[|[|a]]]; [..| lia]; simpl; unfold Rdiv; ring.
Qed.

Lemma nodeDeriv3D_raw_spec (uvec weights : Store) (elems : list PElem)
  (n : Z) (comp : nat) :
  let o := oct_order forest in
  (forall el, In el elems -> length (el_nodes el) = (o * o * o)%nat) ->
  computeNodeDeriv3D_raw dn fe vpn forest uvec weights elems n comp =
  if Nat.ltb comp (3 * vpn) then
    list_sum (map (fun el =>
      sum_upto (o * o * o) (fun j =>
        if Z.eqb n (nth j (el_nodes el) 0%Z) then
          (if Z.leb 0 n then
             / getValue dn weights n 0 *
             spec_grad_sample3D dn fe forest uvec el j (comp / 3) (comp mod 3)
           else 0)
        else 0)) elems)
  else 0.
Proof.
  intros o Hlen. unfold computeNodeDeriv3D_raw.
  rewrite (accum_elems (3 * vpn) _
             (fun el => delem3D fe vpn forest el (getValues dn uvec vpn (el_nodes el))
                                (getValues dn weights 1 (el_nodes el))))
    by reflexivity.
  unfold zeroEntries. rewrite Rplus_0_l.
  destruct (Nat.ltb comp (3 * vpn)) eqn:Hc; [| reflexivity].
  apply Nat.ltb_lt in Hc.
  apply list_sum_map_ext. intros el Hel.
  rewrite (Hlen el Hel).
  apply sum_upto_ext. intros j Hj.
  destruct (Z.eqb n (nth j (el_nodes el) 0%Z)) eqn:E; [| reflexivity].
  apply Z.eqb_eq in E.
  rewrite delem3D_slot by auto. rewrite <- E. reflexivity.
Qed.

Lemma nodeDeriv3D_dep_zero (uvec weights : Store) (elems : list PElem)
  (d : Z) (comp : nat) :
  let o := oct_order forest in
  (forall el, In el elems -> length (el_nodes el) = (o * o * o)%nat) ->
  (d < 0)%Z ->
  computeNodeDeriv3D_raw dn fe vpn forest uvec weights elems d comp = 0.
Proof.
  intros o Hlen Hd. rewrite nodeDeriv3D_raw_spec by exact Hlen.
  destruct (Nat.ltb comp (3 * vpn)); [| reflexivity].
  apply list_sum_map_zero. intros el _. apply sum_upto_zero. intros j _.
  replace (Z.leb 0 d) with false by (symmetry; apply Z.leb_gt; lia).
  destruct (Z.eqb d _); reflexivity.
Qed.

Lemma nodeDeriv3D_value (uvec weights : Store) (elems : list PElem)
  (n : Z) (comp : nat) :
  let o := oct_order forest in
  (forall el, In el elems -> length (el_nodes el) = (o * o * o)%nat) ->
  (0 <= n)%Z -> (comp < 3 * vpn)%nat ->
  getValue dn (computeNodeDeriv3D dn fe vpn forest uvec weights elems) n comp =
  / getValue dn weights n 0 *
  list_sum (map (fun el =>
    sum_upto (o * o * o) (fun j =>
      if Z.eqb n (nth j (el_nodes el) 0%Z) then
        spec_grad_sample3D dn fe forest uvec el j (comp / 3) (comp mod 3)
      else 0)) elems).
Proof.
  intros o Hlen Hn Hc. unfold computeNodeDeriv3D.
  rewrite getValue_finalized by (auto; intros; apply nodeDeriv3D_dep_zero; auto).
  rewrite nodeDeriv3D_raw_spec by exact Hlen.
  replace (Nat.ltb comp (3 * vpn)) with true by (symmetry; apply Nat.ltb_lt; lia).
  replace (Z.leb 0 n) with true by (symmetry; apply Z.leb_le; lia).
  rewrite <- list_sum_map_scal. apply list_sum_map_ext. intros el _.
  rewrite <- sum_upto_scal. apply sum_upto_ext. intros j _.
  destruct (Z.eqb n _); ring.
Qed.

End Deriv3DFacts.

Section Deriv2DFacts.
Variable dn : DepNodes.
Variable fe : FElib.
Variable vpn : nat.
Variable forest : QuadForest.

Lemma block2D_length (el : PElem) (ue we : list R) (ii jj : nat) :
  length (node_deriv_block2D fe vpn forest el ue we ii jj) = (3 * vpn)%nat.
Proof.
  unfold node_deriv_block2D.
  destruct (quad_evalInterp forest _) as [[N Na] Nb].
  destruct (Z.leb 0 _).
  - apply triples_length.
  - rewrite (length_flat_map_uniform _ _ 3), length_seq; [lia | reflexivity].
Qed.

Lemma delem2D_entry (el : PElem) (ue we : list R) (s comp : nat) :
  let o := quad_order forest in
  (s < o * o)%nat -> (comp < 3 * vpn)%nat ->
  at_ (delem2D fe vpn forest el ue we) (3 * vpn * s + comp)%nat =
  at_ (node_deriv_block2D fe vpn forest el ue we (s mod o) (s / o)) comp.
Proof.
  intros o Hs Hc.
  destruct (decode2 o s Hs) as [E [H1 H2]].
  set (ii := (s mod o)%nat) in *. set (jj := (s / o)%nat) in *.
  rewrite <- E. unfold delem2D. fold o.
  apply (at_flat_map2 o (3 * vpn)
           (fun ii jj => node_deriv_block2D fe vpn forest el ue we ii jj));
    auto.
  intros. apply block2D_length.
Qed.

Lemma delem2D_slot (uvec weights : Store) (el : PElem) (j comp : nat) :
  let o := quad_order forest in
  length (el_nodes el) = (o * o)%nat ->
  (j < o * o)%nat -> (comp < 3 * vpn)%nat ->
  at_ (delem2D fe vpn forest el (getValues dn uvec vpn (el_nodes el))
               (getValues dn weights 1 (el_nodes el))) (3 * vpn * j + comp)%nat =
  if Z.leb 0 (nth j (el_nodes el) 0%Z) then
    / getValue dn weights (nth j (el_nodes el) 0%Z) 0 *
    spec_grad_sample2D dn fe forest uvec el j (comp / 3) (comp mod 3)
  else 0.
Proof.
  intros o Hlen Hj Hc.
  rewrite delem2D_entry by assumption.
  destruct (decode2 o j Hj) as [E [H1 H2]].
  unfold node_deriv_block2D, spec_grad_sample2D. fold o.
  set (ii := (j mod o)%nat) in *. set (jj := (j / o)%nat) in *.
  destruct (quad_evalInterp forest _) as [[N Na] Nb].
  cbv zeta. rewrite E.
  destruct (Z.leb 0 (nth j (el_nodes el) 0%Z)); [| apply zero_triples_entry].
  rewrite at_triples by assumption.
  assert (Hk : (comp / 3 < vpn)%nat) by (apply Nat.Div0.div_lt_upper_bound; lia).
  assert (Hu : forall M, sum_upto (o * o) (fun i =>
              at_ (getValues dn uvec vpn (el_nodes el)) (vpn * i + comp / 3)%nat * at_ M i) =
            sum_upto (o * o) (fun i =>
              getValue dn uvec (nth i (el_nodes el) 0%Z) (comp / 3) * at_ M i)).
  { intros M. apply sum_upto_ext. intros i Hi.
    rewrite at_getValues by lia. reflexivity. }
  replace (at_ (getValues dn weights 1 (el_nodes el)) j)
    with (getValue dn weights (nth j (el_nodes el) 0%Z) 0).
  2:{ pose proof (at_getValues dn weights 1 (el_nodes el) j 0 ltac:(lia) ltac:(lia)) as Hw.
      rewrite Nat.mul_1_l, Nat.add_0_r in Hw. rewrite Hw. reflexivity. }
  rewrite !Hu.
  assert (Ha : (comp mod 3 < 3)%nat) by (apply Nat.mod_upper_bound; lia).
  destruct (comp mod 3) as [|[|[|a]]]; [..| lia]; simpl; unfold Rdiv; ring.
Qed.

Lemma nodeDeriv2D_raw_spec (uvec weights : Store) (elems : list PElem)
  (n : Z) (comp : nat) :
  let o := quad_order forest in
  (forall el, In el elems -> length (el_nodes el) = (o * o)%nat) ->
  computeNodeDeriv2D_raw dn fe vpn forest uvec weights elems n comp =
  if Nat.ltb comp (3 * vpn) then
    list_sum (map (fun el =>
      sum_upto (o * o) (fun j =>
        if Z.eqb n (nth j (el_nodes el) 0%Z) then
          (if Z.leb 0 n then
             / getValue dn weights n 0 *
             spec_grad_sample2D dn fe forest uvec el j (comp / 3) (comp mod 3)
           else 0)
        else 0)) elems)
  else 0.
Proof.
  intros o Hlen. unfold computeNodeDeriv2D_raw.
  rewrite (accum_elems (3 * vpn) _
             (fun el => delem2D fe vpn forest el (getValues dn uvec vpn (el_nodes el))
                                (getValues dn weights 1 (el_nodes el))))
    by reflexivity.
  unfold zeroEntries. rewrite Rplus_0_l.
  destruct (Nat.ltb comp (3 * vpn)) eqn:Hc; [| reflexivity].
  apply Nat.ltb_lt in Hc.
  apply list_sum_map_ext. intros el Hel.
  rewrite (Hlen el Hel).
  apply sum_upto_ext. intros j Hj.
  destruct (Z.eqb n (nth j (el_nodes el) 0%Z)) eqn:E; [| reflexivity].
  apply Z.eqb_eq in E.
  rewrite delem2D_slot by auto. rewrite <- E. reflexivity.
Qed.

Lemma nodeDeriv2D_dep_zero (uvec weights : Store) (elems : list PElem)
  (d : Z) (comp : nat) :
  let o := quad_order forest in
  (forall el, In el elems -> length (el_nodes el) = (o * o)%nat) ->
  (d < 0)%Z ->
  computeNodeDeriv2D_raw dn fe vpn forest uvec weights elems d comp = 0.
Proof.
  intros o Hlen Hd. rewrite nodeDeriv2D_raw_spec by exact Hlen.
  destruct (Nat.ltb comp (3 * vpn)); [| reflexivity].
  apply list_sum_map_zero. intros el _. apply sum_upto_zero. intros j _.
  replace (Z.leb 0 d) with false by (symmetry; apply Z.leb_gt; lia).
  destruct (Z.eqb d _); reflexivity.
Qed.

Lemma nodeDeriv2D_value (uvec weights : Store) (elems : list PElem)
  (n : Z) (comp : nat) :
  let o := quad_order forest in
  (forall el, In el elems -> length (el_nodes el) = (o * o)%nat) ->
  (0 <= n)%Z -> (comp < 3 * vpn)%nat ->
  getValue dn (computeNodeDeriv2D dn fe vpn forest uvec weights elems) n comp =
  / getValue dn weights n 0 *
  list_sum (map (fun el =>
    sum_upto (o * o) (fun j =>
      if Z.eqb n (nth j (el_nodes el) 0%Z) then
        spec_grad_sample2D dn fe forest uvec el j (comp / 3) (comp mod 3)
      else 0)) elems).
Proof.
  intros o Hlen Hn Hc. unfold computeNodeDeriv2D.
  rewrite getValue_finalized by (auto; intros; apply nodeDeriv2D_dep_zero; auto).
  rewrite nodeDeriv2D_raw_spec by exact Hlen.
  replace (Nat.ltb comp (3 * vpn)) with true by (symmetry; apply Nat.ltb_lt; lia).
  replace (Z.leb 0 n) with true by (symmetry; apply Z.leb_le; lia).
  rewrite <- list_sum_map_scal. apply list_sum_map_ext. intros el _.
  rewrite <- sum_upto_scal. apply sum_upto_ext. intros j _.
  destruct (Z.eqb n _); ring.
Qed.

End Deriv2DFacts.

(** *** Constant fields *)

Lemma fold_acc_zero (f : Z * R -> R) (Hf : forall p, f p = 0) (l : list (Z * R)) (a : R) :
  fold_left (fun acc p => acc + f p) l a = a.
Proof.
  revert a; induction l as [|p l IH]; intros a; simpl; [reflexivity |].
  rewrite IH, Hf. ring.
Qed.

Lemma getValue_finalized_zero (dn : DepNodes) (st : Store) :
  (forall n c, st n c = 0) ->
  forall n c, getValue dn (endSetValues_add dn st) n c = 0.
Proof.
  intros H.
  assert (H2 : forall n c, endSetValues_add dn st n c = 0).
  { intros n c. unfold endSetValues_add.
    destruct (Z.leb 0 n); [rewrite dep_transfer_zero by auto; rewrite H; ring | apply H]. }
  intros n c. unfold getValue. destruct (Z.leb 0 n); [apply H2 |].
  apply (fold_acc_zero (fun p => snd p * endSetValues_add dn st (fst p) c)).
  intros p. rewrite H2. ring.
Qed.

Lemma getValues_zero (dn : DepNodes) (st : Store) (bs : nat) (nodes : list Z) :
  (forall n c, getValue dn st n c = 0) -> forall i, at_ (getValues dn st bs nodes) i = 0.
Proof.
  intros H i. apply at_all_zero. intros x Hx.
  unfold getValues in Hx. apply in_flat_map in Hx. destruct Hx as [n [_ Hx]].
  apply in_map_iff in Hx. destruct Hx as [c [<- _]]. apply H.
Qed.

Lemma const_interp_sum (dn : DepNodes) (uvec : Store) (cst : nat -> R)
  (Hconst : forall n k, getValue dn uvec n k = cst k)
  (nodes : list Z) (nn k : nat) (M : list R) :
  sum_upto nn (at_ M) = 0 ->
  sum_upto nn (fun i => getValue dn uvec (nth i nodes 0%Z) k * at_ M i) = 0.
Proof.
  intros HM.
  rewrite (sum_upto_ext nn _ (fun i => cst k * at_ M i)) by (intros; rewrite Hconst; reflexivity).
  rewrite sum_upto_scal, HM. ring.
Qed.

Lemma const_uvals_sum (dn : DepNodes) (uvec : Store) (cst : nat -> R)
  (Hconst : forall n k, getValue dn uvec n k = cst k)
  (vpn : nat) (nodes : list Z) (nn k : nat) (M : list R) :
  length nodes = nn -> (k < vpn)%nat -> sum_upto nn (at_ M) = 0 ->
  sum_upto nn (fun i => at_ (getValues dn uvec vpn nodes) (vpn * i + k)%nat * at_ M i) = 0.
Proof.
  intros Hl Hk HM.
  rewrite (sum_upto_ext nn _ (fun i => getValue dn uvec (nth i nodes 0%Z) k * at_ M i)).
  - apply (const_interp_sum dn uvec cst Hconst); auto.
  - intros i Hi. rewrite at_getValues by lia. reflexivity.
Qed.

(** The least-squares problem with a vanishing right-hand side: zero is
    its minimum-norm solution, and the only one. *)
Lemma lsq_residual_zero_rhs (m n : nat) (A B : list R) (j : nat) (x : nat -> R) :
  (forall i, at_ B i = 0) ->
  lsq_residual m n A B j x =
  sum_upto m (fun r => (sum_upto n (fun i => at_ A (m * i + r)%nat * x i)) ^ 2).
Proof.
  intros HB. unfold lsq_residual. apply sum_upto_ext. intros r _.
  rewrite HB. f_equal. ring.
Qed.

Lemma lsq_residual_nonneg (m n : nat) (A B : list R) (j : nat) (x : nat -> R) :
  0 <= lsq_residual m n A B j x.
Proof.
  apply sum_upto_nonneg. intros r _. apply pow2_ge_0.
Qed.

Lemma lsq_residual_at_zero (m n : nat) (A B : list R) (j : nat) (x : nat -> R) :
  (forall i, at_ B i = 0) -> (forall i, x i = 0) -> lsq_residual m n A B j x = 0.
Proof.
  intros HB Hx. rewrite lsq_residual_zero_rhs by exact HB.
  apply sum_upto_zero. intros r _.
  rewrite (sum_upto_zero n) by (intros; rewrite Hx; ring). ring.
Qed.

Lemma minnorm_zero_rhs (m n nrhs : nat) (A B : list R) :
  (forall i, at_ B i = 0) ->
  dgelss_minnorm m n nrhs A B (repeat 0 (m * nrhs)) /\
  (forall X, dgelss_minnorm m n nrhs A B X ->
   forall j i, (j < nrhs)%nat -> (i < n)%nat -> at_ X (m * j + i)%nat = 0).
Proof.
  intros HB.
  assert (Hrep : forall idx, at_ (repeat 0 (m * nrhs)) idx = 0)
    by (intros idx; unfold at_; apply nth_repeat).
  split.
  - intros j Hj y x. split.
    + rewrite (lsq_residual_at_zero m n A B j x) by (auto; intros; apply Hrep).
      apply lsq_residual_nonneg.
    + intros _. unfold sq_norm.
      rewrite (sum_upto_zero n (fun i => x i ^ 2)) by (intros; unfold x; rewrite Hrep; ring).
      apply sum_upto_nonneg. intros. apply pow2_ge_0.
  - intros X HX j i Hj Hi.
    destruct (HX j Hj (fun _ => 0)) as [H1 H2].
    set (x := fun i => at_ X (m * j + i)%nat) in *.
    rewrite (lsq_residual_at_zero m n A B j (fun _ => 0)) in H1, H2 by auto.
    pose proof (lsq_residual_nonneg m n A B j x) as H0.
    assert (Hn : sq_norm n x <= 0).
    { assert (E : sq_norm n (fun _ => 0) = 0)
        by (unfold sq_norm; apply sum_upto_zero; intros; ring).
      rewrite <- E. apply H2. lra. }
    assert (Hn0 : sq_norm n x = 0).
    { pose proof (sum_upto_nonneg n (fun i => x i ^ 2) ltac:(intros; apply pow2_ge_0)).
      unfold sq_norm in *. lra. }
    pose proof (sum_upto_nonneg_zero n (fun i => x i ^ 2)
                  ltac:(intros; apply pow2_ge_0) Hn0 i Hi) as Hi0.
    change (x i = 0). nra.
Qed.

Section ConstFacts.
Variable dn : DepNodes.
Variable fe : FElib.
Variable vpn : nat.
Variable uvec : Store.
Variable cst : nat -> R.
Hypothesis Hconst : forall n k, getValue dn uvec n k = cst k.

Lemma sample3D_const (forest : OctForest)
  (Hsum : forall pt N Na Nb Nc, oct_evalInterp forest pt = (N, Na, Nb, Nc) ->
     let nn := (oct_order forest * oct_order forest * oct_order forest)%nat in
     sum_upto nn (at_ Na) = 0 /\ sum_upto nn (at_ Nb) = 0 /\ sum_upto nn (at_ Nc) = 0)
  (el : PElem) (j k a : nat) :
  spec_grad_sample3D dn fe forest uvec el j k a = 0.
Proof.
  unfold spec_grad_sample3D.
  destruct (oct_evalInterp forest _) as [[[N Na] Nb] Nc] eqn:Ev.
  apply Hsum in Ev. destruct Ev as [Ha [Hb Hc]].
  cbv zeta.
  rewrite !(const_interp_sum dn uvec cst Hconst) by assumption. ring.
Qed.

Lemma sample2D_const (forest : QuadForest)
  (Hsum : forall pt N Na Nb, quad_evalInterp forest pt = (N, Na, Nb) ->
     let nn := (quad_order forest * quad_order forest)%nat in
     sum_upto nn (at_ Na) = 0 /\ sum_upto nn (at_ Nb) = 0)
  (el : PElem) (j k a : nat) :
  spec_grad_sample2D dn fe forest uvec el j k a = 0.
Proof.
  unfold spec_grad_sample2D.
  destruct (quad_evalInterp forest _) as [[N Na] Nb] eqn:Ev.
  apply Hsum in Ev. destruct Ev as [Ha Hb].
  cbv zeta.
  rewrite !(const_interp_sum dn uvec cst Hconst) by assumption. ring.
Qed.

Lemma nodeDeriv3D_const (forest : OctForest)
  (Hsum : forall pt N Na Nb Nc, oct_evalInterp forest pt = (N, Na, Nb, Nc) ->
     let nn := (oct_order forest * oct_order forest * oct_order forest)%nat in
     sum_upto nn (at_ Na) = 0 /\ sum_upto nn (at_ Nb) = 0 /\ sum_upto nn (at_ Nc) = 0)
  (weights : Store) (elems : list PElem)
  (Hlen : forall el, In el elems ->
     length (el_nodes el) = (oct_order forest * oct_order forest * oct_order forest)%nat) :
  forall n c, getValue dn (computeNodeDeriv3D dn fe vpn forest uvec weights elems) n c = 0.
Proof.
  unfold computeNodeDeriv3D. apply getValue_finalized_zero.
  intros n c. rewrite nodeDeriv3D_raw_spec by exact Hlen.
  destruct (Nat.ltb c (3 * vpn)); [| reflexivity].
  apply list_sum_map_zero. intros el _. apply sum_upto_zero. intros j _.
  rewrite sample3D_const by exact Hsum.
  destruct (Z.eqb n _), (Z.leb 0 n); ring.
Qed.

Lemma nodeDeriv2D_const (forest : QuadForest)
  (Hsum : forall pt N Na Nb, quad_evalInterp forest pt = (N, Na, Nb) ->
     let nn := (quad_order forest * quad_order forest)%nat in
     sum_upto nn (at_ Na) = 0 /\ sum_upto nn (at_ Nb) = 0)
  (weights : Store) (elems : list PElem)
  (Hlen : forall el, In el elems ->
     length (el_nodes el) = (quad_order forest * quad_order forest)%nat) :
  forall n c, getValue dn (computeNodeDeriv2D dn fe vpn forest uvec weights elems) n c = 0.
Proof.
  unfold computeNodeDeriv2D. apply getValue_finalized_zero.
  intros n c. rewrite nodeDeriv2D_raw_spec by exact Hlen.
  destruct (Nat.ltb c (3 * vpn)); [| reflexivity].
  apply list_sum_map_zero. intros el _. apply sum_upto_zero. intros j _.
  rewrite sample2D_const by exact Hsum.
  destruct (Z.eqb n _), (Z.leb 0 n); ring.
Qed.

Lemma recon3D_rhs_zero (forest refined_forest : OctForest) (uninit : list R)
  (Hsum : forall pt N Na Nb Nc, oct_evalInterp forest pt = (N, Na, Nb, Nc) ->
     let nn := (oct_order forest * oct_order forest * oct_order forest)%nat in
     sum_upto nn (at_ Na) = 0 /\ sum_upto nn (at_ Nb) = 0 /\ sum_upto nn (at_ Nc) = 0)
  (D : Store) (HD : forall n c, getValue dn D n c = 0)
  (nodes : list Z) (Xpts : list R)
  (Hl : length nodes = (oct_order forest * oct_order forest * oct_order forest)%nat) :
  forall i, at_ (snd (computeElemRecon3D_system fe vpn forest refined_forest uninit Xpts
                        (getValues dn uvec vpn nodes)
                        (getValues dn D (3 * vpn) nodes))) i = 0.
Proof.
  intros i. apply at_all_zero. intros x Hx. simpl in Hx.
  apply in_flat_map in Hx. destruct Hx as [k [Hk Hx]].
  apply in_seq in Hk.
  apply in_flat_map in Hx. destruct Hx as [[[ii jj] kk] [_ Hx]].
  unfold recon_rhs3D in Hx.
  destruct (oct_evalInterp refined_forest _) as [[[Nr Nar] Nbr] Ncr].
  destruct (oct_evalInterp forest _) as [[[N Na] Nb] Nc] eqn:Ev.
  apply Hsum in Ev. destruct Ev as [Ha [Hb Hc]].
  cbv zeta in Hx.
  rewrite !(getValues_zero dn D (3 * vpn) nodes HD) in Hx.
  rewrite !(const_uvals_sum dn uvec cst Hconst vpn nodes _ k) in Hx
    by (auto; lia).
  destruct Hx as [<- | [<- | [<- | []]]]; ring.
Qed.

Lemma recon2D_rhs_zero (forest refined_forest : QuadForest)
  (Hsum : forall pt N Na Nb, quad_evalInterp forest pt = (N, Na, Nb) ->
     let nn := (quad_order forest * quad_order forest)%nat in
     sum_upto nn (at_ Na) = 0 /\ sum_upto nn (at_ Nb) = 0)
  (D : Store) (HD : forall n c, getValue dn D n c = 0)
  (nodes : list Z) (Xpts : list R)
  (Hl : length nodes = (quad_order forest * quad_order forest)%nat) :
  forall i, at_ (snd (computeElemRecon2D_system fe vpn forest refined_forest Xpts
                        (getValues dn uvec vpn nodes)
                        (getValues dn D (3 * vpn) nodes))) i = 0.
Proof.
  intros i. apply at_all_zero. intros x Hx. simpl in Hx.
  apply in_flat_map in Hx. destruct Hx as [k [Hk Hx]].
  apply in_seq in Hk.
  apply in_flat_map in Hx. destruct Hx as [[ii jj] [_ Hx]].
  unfold recon_rhs2D in Hx.
  destruct (quad_evalInterp refined_forest _) as [[Nr Nar] Nbr].
  destruct (computeJacobianTrans2D fe _ _ _ _) as [[detJ Xd] J].
  destruct (quad_evalInterp forest _) as [[N Na] Nb] eqn:Ev.
  apply Hsum in Ev. destruct Ev as [Ha Hb].
  cbv zeta in Hx.
  rewrite !(getValues_zero dn D (3 * vpn) nodes HD) in Hx.
  rewrite !(const_uvals_sum dn uvec cst Hconst vpn nodes _ k) in Hx
    by (auto; lia).
  unfold dot3 in Hx. simpl in Hx.
  destruct Hx as [<- | [<- | []]]; unfold at_; simpl; ring.
Qed.

End ConstFacts.

Lemma ubar3D_zero (vpn : nat) (forest : OctForest) (X : list R) :
  let o := oct_order forest in
  (forall j i, (j < vpn)%nat -> (i < getNum3dEnrich o)%nat ->
     at_ X (3 * o * o * o * j + i)%nat = 0) ->
  forall i, at_ (computeElemRecon3D_ubar vpn forest X) i = 0.
Proof.
  intros o HX i. apply at_all_zero. intros x Hx.
  unfold computeElemRecon3D_ubar in Hx. fold o in Hx.
  apply in_flat_map in Hx. destruct Hx as [a [Ha Hx]].
  apply in_map_iff in Hx. destruct Hx as [j [<- Hj]].
  apply in_seq in Ha, Hj. apply HX; lia.
Qed.

Lemma ubar2D_zero (vpn : nat) (forest : QuadForest) (X : list R) :
  let o := quad_order forest in
  (forall j i, (j < vpn)%nat -> (i < getNum2dEnrich o)%nat ->
     at_ X (2 * o * o * j + i)%nat = 0) ->
  forall i, at_ (computeElemRecon2D_ubar vpn forest X) i = 0.
Proof.
  intros o HX i. apply at_all_zero. intros x Hx.
  unfold computeElemRecon2D_ubar in Hx. fold o in Hx.
  apply in_flat_map in Hx. destruct Hx as [a [Ha Hx]].
  apply in_map_iff in Hx. destruct Hx as [j [<- Hj]].
  apply in_seq in Ha, Hj. apply HX; lia.
Qed.

(** C4.  After [computeNodeDeriv3D] and [computeNodeDeriv2D], with the
    weights [w] of [computeLocalWeights]: [w[n]] counts the element slots
    that reference the independent node [n]; no contribution is stored at a
    dependent (negative) index, so nothing is distributed from dependent
    slots; and at every independent node [D[n]] is [1/w[n]] times the sum,
    over the slots of the elements that reference [n], of that element's
    physical-gradient sample at [n].  (In the reals [1/w[n]] needs no guard:
    the identity also holds where [w[n] = 0], both sides being 0 there.) *)
Theorem nodeDeriv_weighted_average (dn : DepNodes) (fe : FElib) (vpn : nat)
  (uvec : Store) (forest3 : OctForest) (elems3 : list PElem)
  (forest2 : QuadForest) (elems2 : list PElem)
  (Hlen3 : forall el, In el elems3 ->
     length (el_nodes el) = (oct_order forest3 * oct_order forest3 * oct_order forest3)%nat)
  (Hlen2 : forall el, In el elems2 ->
     length (el_nodes el) = (quad_order forest2 * quad_order forest2)%nat) :
  (let o := oct_order forest3 in
   let w := computeLocalWeights dn elems3 in
   (forall n, (0 <= n)%Z ->
      getValue dn w n 0 =
      list_sum (map (fun el => sum_upto (o * o * o) (fun j =>
        if Z.eqb n (nth j (el_nodes el) 0%Z) then 1 else 0)) elems3)) /\
   (forall d comp, (d < 0)%Z ->
      computeNodeDeriv3D_raw dn fe vpn forest3 uvec w elems3 d comp = 0) /\
   (forall n comp, (0 <= n)%Z -> (comp < 3 * vpn)%nat ->
      getValue dn (computeNodeDeriv3D dn fe vpn forest3 uvec w elems3) n comp =
      / getValue dn w n 0 *
      list_sum (map (fun el => sum_upto (o * o * o) (fun j =>
        if Z.eqb n (nth j (el_nodes el) 0%Z) then
          spec_grad_sample3D dn fe forest3 uvec el j (comp / 3) (comp mod 3)
        else 0)) elems3))) /\
  (let o := quad_order forest2 in
   let w := computeLocalWeights dn elems2 in
   (forall n, (0 <= n)%Z ->
      getValue dn w n 0 =
      list_sum (map (fun el => sum_upto (o * o) (fun j =>
        if Z.eqb n (nth j (el_nodes el) 0%Z) then 1 else 0)) elems2)) /\
   (forall d comp, (d < 0)%Z ->
      computeNodeDeriv2D_raw dn fe vpn forest2 uvec w elems2 d comp = 0) /\
   (forall n comp, (0 <= n)%Z -> (comp < 3 * vpn)%nat ->
      getValue dn (computeNodeDeriv2D dn fe vpn forest2 uvec w elems2) n comp =
      / getValue dn w n 0 *
      list_sum (map (fun el => sum_upto (o * o) (fun j =>
        if Z.eqb n (nth j (el_nodes el) 0%Z) then
          spec_grad_sample2D dn fe forest2 uvec el j (comp / 3) (comp mod 3)
        else 0)) elems2))).
Proof.
  split; cbv zeta; (split; [| split]).
  - intros n Hn. rewrite computeLocalWeights_value by exact Hn.
    apply list_sum_map_ext. intros el Hel. rewrite Hlen3 by exact Hel. reflexivity.
  - intros d comp Hd. apply nodeDeriv3D_dep_zero; assumption.
  - intros n comp Hn Hc. apply nodeDeriv3D_value; assumption.
  - intros n Hn. rewrite computeLocalWeights_value by exact Hn.
    apply list_sum_map_ext. intros el Hel. rewrite Hlen2 by exact Hel. reflexivity.
  - intros d comp Hd. apply nodeDeriv2D_dep_zero; assumption.
  - intros n comp Hn Hc. apply nodeDeriv2D_value; assumption.
Qed.

Lemma nodeDeriv_weighted_average_witness :
  let dn0 := {| num_dep := 0; dep_conn := fun _ => [] |} in
  let fe0 := {| jacobian3d := fun _ => (1, [1; 0; 0; 0; 1; 0; 0; 0; 1]);
                crossProduct3D := fun _ _ => [0; 0; 1];
                normalize3D := fun v => v |} in
  let oct0 := {| oct_order := 2; oct_knots := [-1; 1];
                 oct_evalInterp := fun _ => ([], [], [], []) |} in
  let quad0 := {| quad_order := 2; quad_knots := [-1; 1];
                  quad_evalInterp := fun _ => ([], [], []) |} in
  let hex0 := {| el_nodes := [0; 1; 2; 3; 4; 5; 6; 7]%Z; el_Xpts := [] |} in
  let qel0 := {| el_nodes := [0; 1; 2; 3]%Z; el_Xpts := [] |} in
  (forall el, In el [hex0] ->
     length (el_nodes el) = (oct_order oct0 * oct_order oct0 * oct_order oct0)%nat) /\
  (forall el, In el [qel0] ->
     length (el_nodes el) = (quad_order quad0 * quad_order quad0)%nat) /\
  getValue dn0 (computeLocalWeights dn0 [hex0]) 3%Z 0 =
  list_sum (map (fun el => sum_upto (2 * 2 * 2) (fun j =>
    if Z.eqb 3 (nth j (el_nodes el) 0%Z) then 1 else 0)) [hex0]).
Proof.
  intros dn0 fe0 oct0 quad0 hex0 qel0.
  assert (H3 : forall el, In el [hex0] ->
     length (el_nodes el) = (oct_order oct0 * oct_order oct0 * oct_order oct0)%nat)
    by (intros el [<- | []]; reflexivity).
  assert (H2 : forall el, In el [qel0] ->
     length (el_nodes el) = (quad_order quad0 * quad_order quad0)%nat)
    by (intros el [<- | []]; reflexivity).
  split; [exact H3 | split; [exact H2 |]].
  destruct (nodeDeriv_weighted_average dn0 fe0 1 (fun _ _ => 0)
              oct0 [hex0] quad0 [qel0] H3 H2) as [[Hw _] _].
  apply Hw. lia.
Defined.

(** C3.  For a constant nodal field ([getValue uvec n k = c k] at every
    node) and Lagrange basis derivatives that sum to zero at every point,
    in 3D and in 2D: the nodal derivatives [D] of [computeNodeDeriv3D] /
    [computeNodeDeriv2D] (weights of [computeLocalWeights]) are zero at
    every node; and for every element of the mesh (any [nodes] of the
    element size, any refined coordinates) the right-hand side of the
    least-squares system of [computeElemRecon3D] / [computeElemRecon2D]
    vanishes, the zero matrix is its minimum-norm solution, and any
    minimum-norm solution returned by [LAPACKdgelss] gives [ubar = 0]. *)
Theorem constant_field_null_reconstruction (dn : DepNodes) (fe : FElib) (vpn : nat)
  (uvec : Store) (cst : nat -> R)
  (Hconst : forall n k, getValue dn uvec n k = cst k)
  (forest3 refined3 : OctForest) (uninit : list R) (elems3 : list PElem)
  (forest2 refined2 : QuadForest) (elems2 : list PElem)
  (Hsum3 : forall pt N Na Nb Nc, oct_evalInterp forest3 pt = (N, Na, Nb, Nc) ->
     let nn := (oct_order forest3 * oct_order forest3 * oct_order forest3)%nat in
     sum_upto nn (at_ Na) = 0 /\ sum_upto nn (at_ Nb) = 0 /\ sum_upto nn (at_ Nc) = 0)
  (Hsum2 : forall pt N Na Nb, quad_evalInterp forest2 pt = (N, Na, Nb) ->
     let nn := (quad_order forest2 * quad_order forest2)%nat in
     sum_upto nn (at_ Na) = 0 /\ sum_upto nn (at_ Nb) = 0)
  (Hlen3 : forall el, In el elems3 ->
     length (el_nodes el) = (oct_order forest3 * oct_order forest3 * oct_order forest3)%nat)
  (Hlen2 : forall el, In el elems2 ->
     length (el_nodes el) = (quad_order forest2 * quad_order forest2)%nat) :
  (let o := oct_order forest3 in
   let D := computeNodeDeriv3D dn fe vpn forest3 uvec (computeLocalWeights dn elems3) elems3 in
   let m := (3 * o * o * o)%nat in
   (forall n comp, getValue dn D n comp = 0) /\
   (forall nodes Xpts, length nodes = (o * o * o)%nat ->
      let Ab := computeElemRecon3D_system fe vpn forest3 refined3 uninit Xpts
                  (getValues dn uvec vpn nodes) (getValues dn D (3 * vpn) nodes) in
      (forall i, at_ (snd Ab) i = 0) /\
      dgelss_minnorm m (getNum3dEnrich o) vpn (fst Ab) (snd Ab) (repeat 0 (m * vpn)) /\
      (forall X, dgelss_minnorm m (getNum3dEnrich o) vpn (fst Ab) (snd Ab) X ->
         forall i, at_ (computeElemRecon3D_ubar vpn forest3 X) i = 0))) /\
  (let o := quad_order forest2 in
   let D := computeNodeDeriv2D dn fe vpn forest2 uvec (computeLocalWeights dn elems2) elems2 in
   let m := (2 * o * o)%nat in
   (forall n comp, getValue dn D n comp = 0) /\
   (forall nodes Xpts, length nodes = (o * o)%nat ->
      let Ab := computeElemRecon2D_system fe vpn forest2 refined2 Xpts
                  (getValues dn uvec vpn nodes) (getValues dn D (3 * vpn) nodes) in
      (forall i, at_ (snd Ab) i = 0) /\
      dgelss_minnorm m (getNum2dEnrich o) vpn (fst Ab) (snd Ab) (repeat 0 (m * vpn)) /\
      (forall X, dgelss_minnorm m (getNum2dEnrich o) vpn (fst Ab) (snd Ab) X ->
         forall i, at_ (computeElemRecon2D_ubar vpn forest2 X) i = 0))).
Proof.
  split; intros o D m.
  - pose proof (nodeDeriv3D_const dn fe vpn uvec cst Hconst forest3 Hsum3
                  (computeLocalWeights dn elems3) elems3 Hlen3) as HD.
    split; [exact HD |].
    intros nodes Xpts Hl Ab.
    pose proof (recon3D_rhs_zero dn fe vpn uvec cst Hconst forest3 refined3 uninit Hsum3
                  _ HD nodes Xpts Hl) as Hb.
    destruct (minnorm_zero_rhs (3 * oct_order forest3 * oct_order forest3 * oct_order forest3)
                (getNum3dEnrich (oct_order forest3)) vpn (fst Ab) (snd Ab) Hb) as [H0 Huniq].
    split; [exact Hb | split; [exact H0 |]].
    intros X HX. apply ubar3D_zero. intros j i Hj Hi. apply (Huniq X HX); assumption.
  - pose proof (nodeDeriv2D_const dn fe vpn uvec cst Hconst forest2 Hsum2
                  (computeLocalWeights dn elems2) elems2 Hlen2) as HD.
    split; [exact HD |].
    intros nodes Xpts Hl Ab.
    pose proof (recon2D_rhs_zero dn fe vpn uvec cst Hconst forest2 refined2 Hsum2
                  _ HD nodes Xpts Hl) as Hb.
    destruct (minnorm_zero_rhs (2 * quad_order forest2 * quad_order forest2)
                (getNum2dEnrich (quad_order forest2)) vpn (fst Ab) (snd Ab) Hb) as [H0 Huniq].
    split; [exact Hb | split; [exact H0 |]].
    intros X HX. apply ubar2D_zero. intros j i Hj Hi. apply (Huniq X HX); assumption.
Qed.

(** Witness for [C3]: the constant field 5, one dependent node (-1) that
    is the average of nodes 0 and 1, trilinear and bilinear Lagrange bases
    on [-1, 1]; a hexahedron and a quadrilateral that both use the
    dependent node. *)
Lemma constant_field_null_reconstruction_witness :
  let dn0 := {| num_dep := 1; dep_conn := fun _ => [(0%Z, 0.5); (1%Z, 0.5)] |} in
  let fe0 := {| jacobian3d := fun _ => (1, [1; 0; 0; 0; 1; 0; 0; 0; 1]);
                crossProduct3D := fun _ _ => [0; 0; 1];
                normalize3D := fun v => v |} in
  let oct0 := {| oct_order := 2; oct_knots := [-1; 1];
                 oct_evalInterp :=
        fun pt => let x := at_ pt 0 in let y := at_ pt 1 in let z := at_ pt 2 in
          ([((1 - x) / 2) * ((1 - y) / 2) * ((1 - z) / 2);
           ((1 + x) / 2) * ((1 - y) / 2) * ((1 - z) / 2);
           ((1 - x) / 2) * ((1 + y) / 2) * ((1 - z) / 2);
           ((1 + x) / 2) * ((1 + y) / 2) * ((1 - z) / 2);
           ((1 - x) / 2) * ((1 - y) / 2) * ((1 + z) / 2);
           ((1 + x) / 2) * ((1 - y) / 2) * ((1 + z) / 2);
           ((1 - x) / 2) * ((1 + y) / 2) * ((1 + z) / 2);
           ((1 + x) / 2) * ((1 + y) / 2) * ((1 + z) / 2)],
           [(- (1 / 2)) * ((1 - y) / 2) * ((1 - z) / 2);
           (1 / 2) * ((1 - y) / 2) * ((1 - z) / 2);
           (- (1 / 2)) * ((1 + y) / 2) * ((1 - z) / 2);
           (1 / 2) * ((1 + y) / 2) * ((1 - z) / 2);
           (- (1 / 2)) * ((1 - y) / 2) * ((1 + z) / 2);
           (1 / 2) * ((1 - y) / 2) * ((1 + z) / 2);
           (- (1 / 2)) * ((1 + y) / 2) * ((1 + z) / 2);
           (1 / 2) * ((1 + y) / 2) * ((1 + z) / 2)],
           [((1 - x) / 2) * (- (1 / 2)) * ((1 - z) / 2);
           ((1 + x) / 2) * (- (1 / 2)) * ((1 - z) / 2);
           ((1 - x) / 2) * (1 / 2) * ((1 - z) / 2);
           ((1 + x) / 2) * (1 / 2) * ((1 - z) / 2);
           ((1 - x) / 2) * (- (1 / 2)) * ((1 + z) / 2);
           ((1 + x) / 2) * (- (1 / 2)) * ((1 + z) / 2);
           ((1 - x) / 2) * (1 / 2) * ((1 + z) / 2);
           ((1 + x) / 2) * (1 / 2) * ((1 + z) / 2)],
           [((1 - x) / 2) * ((1 - y) / 2) * (- (1 / 2));
           ((1 + x) / 2) * ((1 - y) / 2) * (- (1 / 2));
           ((1 - x) / 2) * ((1 + y) / 2) * (- (1 / 2));
           ((1 + x) / 2) * ((1 + y) / 2) * (- (1 / 2));
           ((1 - x) / 2) * ((1 - y) / 2) * (1 / 2);
           ((1 + x) / 2) * ((1 - y) / 2) * (1 / 2);
           ((1 - x) / 2) * ((1 + y) / 2) * (1 / 2);
           ((1 + x) / 2) * ((1 + y) / 2) * (1 / 2)]) |} in
  let quad0 := {| quad_order := 2; quad_knots := [-1; 1];
                  quad_evalInterp :=
        fun pt => let x := at_ pt 0 in let y := at_ pt 1 in
          ([((1 - x) / 2) * ((1 - y) / 2);
           ((1 + x) / 2) * ((1 - y) / 2);
           ((1 - x) / 2) * ((1 + y) / 2);
           ((1 + x) / 2) * ((1 + y) / 2)],
           [(- (1 / 2)) * ((1 - y) / 2);
           (1 / 2) * ((1 - y) / 2);
           (- (1 / 2)) * ((1 + y) / 2);
           (1 / 2) * ((1 + y) / 2)],
           [((1 - x) / 2) * (- (1 / 2));
           ((1 + x) / 2) * (- (1 / 2));
           ((1 - x) / 2) * (1 / 2);
           ((1 + x) / 2) * (1 / 2)]) |} in
  let hex0 := {| el_nodes := [0; 1; 2; 3; 4; 5; 6; -1]%Z;
                 el_Xpts := [0; 0; 0; 1; 0; 0; 0; 1; 0; 1; 1; 0;
                             0; 0; 1; 1; 0; 1; 0; 1; 1; 1; 1; 1] |} in
  let qel0 := {| el_nodes := [0; 1; 2; -1]%Z; el_Xpts := [0; 0; 0; 1; 0; 0; 0; 1; 0; 1; 1; 0] |} in
  let u0 : Store := fun _ _ => 5 in
  (forall n k, getValue dn0 u0 n k = (fun _ => 5) k) /\
  (forall pt N Na Nb Nc, oct_evalInterp oct0 pt = (N, Na, Nb, Nc) ->
     let nn := (oct_order oct0 * oct_order oct0 * oct_order oct0)%nat in
     sum_upto nn (at_ Na) = 0 /\ sum_upto nn (at_ Nb) = 0 /\ sum_upto nn (at_ Nc) = 0) /\
  (forall pt N Na Nb, quad_evalInterp quad0 pt = (N, Na, Nb) ->
     let nn := (quad_order quad0 * quad_order quad0)%nat in
     sum_upto nn (at_ Na) = 0 /\ sum_upto nn (at_ Nb) = 0) /\
  (forall el, In el [hex0] ->
     length (el_nodes el) = (oct_order oct0 * oct_order oct0 * oct_order oct0)%nat) /\
  (forall el, In el [qel0] ->
     length (el_nodes el) = (quad_order quad0 * quad_order quad0)%nat) /\
  getValue dn0 (computeNodeDeriv3D dn0 fe0 1 oct0 u0 (computeLocalWeights dn0 [hex0]) [hex0])
    2%Z 1 = 0 /\
  getValue dn0 (computeNodeDeriv2D dn0 fe0 1 quad0 u0 (computeLocalWeights dn0 [qel0]) [qel0])
    (-1)%Z 0 = 0.
Proof.
  intros dn0 fe0 oct0 quad0 hex0 qel0 u0.
  assert (Hc : forall n k, getValue dn0 u0 n k = (fun _ => 5) k).
  { intros n k. unfold getValue, u0. cbv beta.
    destruct (Z.leb 0 n); [reflexivity|]. cbn. lra. }
  assert (Hs3 : forall pt N Na Nb Nc, oct_evalInterp oct0 pt = (N, Na, Nb, Nc) ->
     let nn := (oct_order oct0 * oct_order oct0 * oct_order oct0)%nat in
     sum_upto nn (at_ Na) = 0 /\ sum_upto nn (at_ Nb) = 0 /\ sum_upto nn (at_ Nc) = 0).
  { intros pt N Na Nb Nc E. cbn [oct0 oct_evalInterp] in E. injection E as <- <- <- <-.
    cbv zeta. cbn [oct_order oct0 Nat.mul Nat.add sum_upto at_ nth]. repeat split; field. }
  assert (Hs2 : forall pt N Na Nb, quad_evalInterp quad0 pt = (N, Na, Nb) ->
     let nn := (quad_order quad0 * quad_order quad0)%nat in
     sum_upto nn (at_ Na) = 0 /\ sum_upto nn (at_ Nb) = 0).
  { intros pt N Na Nb E. cbn [quad0 quad_evalInterp] in E. injection E as <- <- <-.
    cbv zeta. cbn [quad_order quad0 Nat.mul Nat.add sum_upto at_ nth]. split; field. }
  assert (H3 : forall el, In el [hex0] ->
     length (el_nodes el) = (oct_order oct0 * oct_order oct0 * oct_order oct0)%nat)
    by (intros el [<- | []]; reflexivity).
  assert (H2 : forall el, In el [qel0] ->
     length (el_nodes el) = (quad_order quad0 * quad_order quad0)%nat)
    by (intros el [<- | []]; reflexivity).
  repeat (split; [assumption |]).
  destruct (constant_field_null_reconstruction dn0 fe0 1 u0 (fun _ => 5) Hc
              oct0 oct0 [] [hex0] quad0 quad0 [qel0] Hs3 Hs2 H3 H2) as [[HD _] [HD2 _]].
  split; [apply HD | apply HD2].
Defined.

End ProjectorFacts.

Module CurveFacts.
Import Curve.

Lemma pointDist_nonneg (a b : Point) : 0 <= pointDist a b.
Proof. unfold pointDist. apply sqrt_pos. Qed.

Lemma pow2_pos (k : nat) : (1 <= 2 ^ k)%nat.
Proof. induction k; simpl; lia. Qed.

Lemma pow2_lower (n : nat) : (2 ^ (6 - n) <= 2 * 2 ^ (6 - S n))%nat.
Proof.
  destruct (Nat.le_gt_cases n 5).
  - replace (6 - n)%nat with (S (6 - S n)) by lia. simpl. lia.
  - replace (6 - n)%nat with 0%nat by lia.
    pose proof (pow2_pos (6 - S n)). simpl Nat.pow at 1. lia.
Qed.

Lemma pow2_upper (n : nat) : (n <= 20)%nat -> (2 ^ (21 - n) = 2 * 2 ^ (21 - S n))%nat.
Proof. intros. replace (21 - n)%nat with (S (21 - S n)) by lia. simpl. lia. Qed.

Section Shape.
Variable ev : R -> Point.

(** The recursion of [integrateEdge] closes before the fuel runs out and
    appends an even number of entries, ending at [t2]. *)
Lemma integrateEdge_shape : forall fuel t1 p1 t2 tol n pts,
  (21 - n <= fuel)%nat -> (n <= 21)%nat ->
  exists S k, integrateEdge_fuel ev fuel t1 p1 t2 tol n pts = S ++ pts /\
    length S = (2 * k)%nat /\ (2 ^ (6 - n) <= k <= 2 ^ (21 - n))%nat /\
    fst (hd (0, 0) S) = t2.
Proof.
  induction fuel as [|f IH]; intros t1 p1 t2 tol n pts Hf Hn; cbn [integrateEdge_fuel].
  - destruct (Nat.ltb_spec 20 n); [|lia]. rewrite Bool.orb_true_r.
    eexists [_; _], 1%nat. split; [reflexivity|]. cbn [length]. split; [lia|].
    replace (6 - n)%nat with 0%nat by lia. replace (21 - n)%nat with 0%nat by lia.
    simpl Nat.pow. split; [lia|reflexivity].
  - set (stop := ((Nat.ltb 5 n && _) || Nat.ltb 20 n)%bool).
    destruct stop eqn:Hs.
    + eexists [_; _], 1%nat. split; [reflexivity|]. cbn [length]. split; [lia|].
      assert (6 <= n)%nat.
      { unfold stop in Hs. apply Bool.orb_true_iff in Hs as [Hs|Hs].
        - apply andb_prop in Hs as [Hs _]. apply Nat.ltb_lt in Hs. lia.
        - apply Nat.ltb_lt in Hs. lia. }
      replace (6 - n)%nat with 0%nat by lia.
      pose proof (pow2_pos (21 - n)). simpl Nat.pow at 1. split; [lia|reflexivity].
    + assert (n <= 20)%nat.
      { unfold stop in Hs. apply Bool.orb_false_iff in Hs as [_ Hs].
        apply Nat.ltb_ge in Hs. lia. }
      destruct (IH t1 p1 (0.5 * (t1 + t2)) tol (S n) pts) as (S1 & k1 & E1 & L1 & B1 & _);
        [lia|lia|].
      rewrite E1.
      destruct (IH (0.5 * (t1 + t2)) (ev (0.5 * (t1 + t2))) t2 tol (S n) (S1 ++ pts))
        as (S2 & k2 & E2 & L2 & B2 & H2); [lia|lia|].
      rewrite E2. exists (S2 ++ S1), (k1 + k2)%nat.
      rewrite app_assoc. split; [reflexivity|].
      rewrite length_app. split; [lia|].
      pose proof (pow2_lower n). pose proof (pow2_upper n H).
      split; [lia|].
      destruct S2 as [|s S2]; [simpl in L2; pose proof (pow2_pos (6 - S n)); lia|].
      exact H2.
Qed.

Lemma sorted_app_last (l : list R) (b : R) :
  Sorted Rle l -> (forall x, In x l -> x <= b) -> Sorted Rle (l ++ [b]).
Proof.
  induction 1 as [|x l Hl IH Hhd]; intros Hb; simpl.
  - repeat constructor.
  - constructor.
    + apply IH. intros y Hy. apply Hb. right. exact Hy.
    + destruct l as [|y l]; simpl; constructor.
      * apply Hb. left. reflexivity.
      * inversion Hhd. assumption.
Qed.

Lemma sorted_rev_le (l : list R) :
  Sorted (fun x y => y <= x) l -> Sorted Rle (rev l).
Proof.
  intros H. induction l as [|a l IH]; simpl; [constructor|].
  pose proof H as Hs. apply Sorted_inv in H as [H _].
  apply sorted_app_last; [apply IH, H|].
  apply Sorted_StronglySorted in Hs; [|intros x y z; simpl; lra].
  apply StronglySorted_inv in Hs as [_ Hf].
  intros x Hx. apply in_rev in Hx. rewrite Forall_forall in Hf. apply Hf, Hx.
Qed.

Lemma nth_map_last {A B : Type} (f : A -> B) (l : list A) (x : A) (d : B) :
  nth (length l) (map f (l ++ [x])) d = f x.
Proof. rewrite map_app. rewrite <- (length_map f l). apply nth_middle. Qed.

Lemma desc_cons2 (a b : R) (l : list R) :
  Sorted (fun x y => y <= x) (b :: l) -> b <= a ->
  Sorted (fun x y => y <= x) (a :: b :: l).
Proof. intros H Hb. constructor; [exact H | constructor; exact Hb]. Qed.

(** On an increasing interval the entries appended by [integrateEdge]
    keep both [t] and [dist] monotone (the list is newest first). *)
Lemma integrateEdge_order : forall fuel t1 p1 t2 tol n d rest,
  (21 - n <= fuel)%nat -> (n <= 21)%nat -> t1 <= t2 ->
  Sorted (fun x y => y <= x) (map fst ((t1, d) :: rest)) ->
  Sorted (fun x y => y <= x) (map snd ((t1, d) :: rest)) ->
  exists d' rest', integrateEdge_fuel ev fuel t1 p1 t2 tol n ((t1, d) :: rest) =
      (t2, d') :: rest' /\ d <= d' /\
    Sorted (fun x y => y <= x) (map fst ((t2, d') :: rest')) /\
    Sorted (fun x y => y <= x) (map snd ((t2, d') :: rest')).
Proof.
  induction fuel as [|f IH]; intros t1 p1 t2 tol n d rest Hf Hn Ht Hd1 Hd2;
    cbn [integrateEdge_fuel].
  - destruct (Nat.ltb_spec 20 n); [|lia]. rewrite Bool.orb_true_r.
    pose proof (pointDist_nonneg p1 (ev (0.5 * (t1 + t2)))).
    pose proof (pointDist_nonneg (ev (0.5 * (t1 + t2))) (ev t2)).
    eexists _, _. split; [reflexivity|]. cbn [map fst snd hd] in *.
    split; [nra|].
    split; (apply desc_cons2; [apply desc_cons2; [assumption|]|]); nra.
  - set (stop := ((Nat.ltb 5 n && _) || Nat.ltb 20 n)%bool).
    destruct stop eqn:Hs.
    + pose proof (pointDist_nonneg p1 (ev (0.5 * (t1 + t2)))).
      pose proof (pointDist_nonneg (ev (0.5 * (t1 + t2))) (ev t2)).
      eexists _, _. split; [reflexivity|]. cbn [map fst snd hd] in *.
      split; [nra|].
      split; (apply desc_cons2; [apply desc_cons2; [assumption|]|]); nra.
    + assert (n <= 20)%nat.
      { unfold stop in Hs. apply Bool.orb_false_iff in Hs as [_ Hs].
        apply Nat.ltb_ge in Hs. lia. }
      destruct (IH t1 p1 (0.5 * (t1 + t2)) tol (S n) d rest)
        as (d1 & rest1 & E1 & D1 & A1 & B1); [lia|lia|lra|assumption|assumption|].
      rewrite E1.
      destruct (IH (0.5 * (t1 + t2)) (ev (0.5 * (t1 + t2))) t2 tol (S n) d1 rest1)
        as (d2 & rest2 & E2 & D2 & A2 & B2); [lia|lia|lra|assumption|assumption|].
      exists d2, rest2. split; [exact E2|]. split; [lra|]. split; assumption.
Qed.

(** [X1] [TMRCurve::integrate] returns arrays [tvals] and [dist] of
    length [nvals] that start at [(t1, 0)] and end at [t2], returns the last
    [dist] entry as the length, and [nvals] is odd with
    [129 <= nvals <= 2^22 + 1]: the recursion of [integrateEdge] always
    splits at least 6 and at most 21 times before it stops. *)
Theorem integrate_layout (t1 t2 tol : R) :
  let '(len, tvals, dist, nvals) := integrate ev t1 t2 tol in
  length tvals = nvals /\ length dist = nvals /\
  nth 0 tvals 0 = t1 /\ nth 0 dist 0 = 0 /\
  nth (nvals - 1) tvals 0 = t2 /\ len = nth (nvals - 1) dist 0 /\
  Nat.Odd nvals /\ (129 <= nvals <= 2 ^ 22 + 1)%nat.
Proof.
  unfold integrate, integrateEdge. change (21 - 0)%nat with 21%nat.
  destruct (integrateEdge_shape 21 t1 (ev t1) t2 tol 0 [(t1, 0)])
    as (S & k & E & L & B & H); [lia|lia|].
  rewrite E. destruct S as [|s S]; [cbn [length] in L; pose proof (pow2_pos (6 - 0)); lia|].
  cbn [hd] in H.
  replace (rev ((s :: S) ++ [(t1, 0)])) with (((t1, 0) :: rev S) ++ [s])
    by (simpl; rewrite rev_app_distr; reflexivity).
  assert (Hl : length ((t1, 0) :: rev S) = (2 * k)%nat)
    by (cbn [length] in *; rewrite length_rev; lia).
  rewrite last_last, !length_map, length_app, Hl.
  cbn [length Nat.add]. replace (2 * k + 1 - 1)%nat with (2 * k)%nat by lia.
  rewrite <- Hl, !nth_map_last. cbn [nth map fst snd]. rewrite Hl.
  split; [reflexivity|]. split; [reflexivity|].
  split; [reflexivity|]. split; [reflexivity|].
  split; [exact H|]. split; [reflexivity|].
  split; [exists k; lia|].
  change (6 - 0)%nat with 6%nat in B. change (21 - 0)%nat with 21%nat in B.
  rewrite (Nat.pow_succ_r' 2 21). change (2 ^ 6)%nat with 64%nat in B. lia.
Qed.

(** [X2] When [t1 <= t2], the parameter values [tvals] and the
    accumulated distances [dist] returned by [TMRCurve::integrate] are
    nondecreasing and the returned length is nonnegative. *)
Theorem integrate_monotone (t1 t2 tol : R) (Ht : t1 <= t2) :
  let '(len, tvals, dist, nvals) := integrate ev t1 t2 tol in
  Sorted Rle tvals /\ Sorted Rle dist /\ 0 <= len.
Proof.
  unfold integrate, integrateEdge. change (21 - 0)%nat with 21%nat.
  destruct (integrateEdge_order 21 t1 (ev t1) t2 tol 0 0 [])
    as (d' & rest' & E & D & A & B);
    [lia|lia|exact Ht|repeat constructor|repeat constructor|].
  rewrite E, !map_rev. split; [apply sorted_rev_le, A|].
  split; [apply sorted_rev_le, B|].
  simpl rev. rewrite last_last. simpl. exact D.
Qed.

End Shape.

(** A witness for [integrate_monotone] on the straight line [x = t]. *)
Lemma integrate_monotone_witness :
  0 <= 1 /\
  let '(len, tvals, dist, nvals) :=
    integrate (fun t => {| px := t; py := 0; pz := 0 |}) 0 1 (1 / 1000) in
  Sorted Rle tvals /\ Sorted Rle dist /\ 0 <= len.
Proof.
  split; [lra|].
  apply (integrate_monotone (fun t => {| px := t; py := 0; pz := 0 |}) 0 1 (1 / 1000)).
  lra.
Defined.

Section DerivFacts.
Variable tmin tmax : R.
Variable evalPoint : R -> Z * Point.
Variable h : R.

(** [X3] [TMRCurve::evalDeriv] returns [1] and leaves [Xt] untouched for a
    parameter outside [[tmin, tmax]], and whenever it returns a nonzero
    status [Xt] is left as it was. *)
Theorem evalDeriv_failure (t : R) (Xt : Point) :
  (t < tmin \/ tmax < t -> evalDeriv tmin tmax evalPoint h t Xt = (1%Z, Xt)) /\
  (fst (evalDeriv tmin tmax evalPoint h t Xt) <> 0%Z ->
   snd (evalDeriv tmin tmax evalPoint h t Xt) = Xt).
Proof.
  split.
  - intros Ht. unfold evalDeriv.
    destruct (Rge_dec t tmin); [|reflexivity].
    destruct (Rle_dec t tmax); [lra|reflexivity].
  - unfold evalDeriv.
    destruct (Rge_dec t tmin); [|reflexivity].
    destruct (Rle_dec t tmax); [|reflexivity].
    destruct (evalPoint t) as [fail p].
    destruct (Z.eqb_spec fail 0); [|reflexivity]. simpl negb. cbv iota.
    destruct (Rle_dec (t + h) tmax).
    + destruct (evalPoint (t + h)) as [fail2 p2].
      destruct (Z.eqb_spec fail2 0); simpl; [congruence|reflexivity].
    + destruct (Rge_dec t (tmin + h)); [|reflexivity].
      destruct (evalPoint (t - h)) as [fail2 p2].
      destruct (Z.eqb_spec fail2 0); simpl; [congruence|reflexivity].
Qed.

(** [X4] When the points it evaluates succeed, [TMRCurve::evalDeriv]
    returns [0] with the forward difference [(X(t+h) - X(t))/h] if
    [t + h <= tmax], and otherwise, if [t >= tmin + h], the backward
    difference [(X(t) - X(t-h))/h]. *)
Theorem evalDeriv_difference (t : R) (Xt p : Point)
  (Hmin : tmin <= t) (Hmax : t <= tmax) (Hp : evalPoint t = (0%Z, p)) :
  (forall p2, t + h <= tmax -> evalPoint (t + h) = (0%Z, p2) ->
   evalDeriv tmin tmax evalPoint h t Xt =
   (0%Z, {| px := (px p2 - px p) / h; py := (py p2 - py p) / h;
            pz := (pz p2 - pz p) / h |})) /\
  (forall p2, tmax < t + h -> tmin + h <= t -> evalPoint (t - h) = (0%Z, p2) ->
   evalDeriv tmin tmax evalPoint h t Xt =
   (0%Z, {| px := (px p - px p2) / h; py := (py p - py p2) / h;
            pz := (pz p - pz p2) / h |})).
Proof.
  unfold evalDeriv.
  destruct (Rge_dec t tmin); [|lra]. destruct (Rle_dec t tmax); [|lra].
  rewrite Hp. simpl Z.eqb. cbv iota beta. simpl negb. cbv iota.
  split.
  - intros p2 H1 H2. destruct (Rle_dec (t + h) tmax); [|lra].
    rewrite H2. reflexivity.
  - intros p2 H1 H2 H3. destruct (Rle_dec (t + h) tmax); [lra|].
    destruct (Rge_dec t (tmin + h)); [|lra].
    rewrite H3. reflexivity.
Qed.

(** [X5] When the parameter range is shorter than the step on both sides
    ([t + h > tmax] and [t < tmin + h]), [TMRCurve::evalDeriv] reports
    success ([0]) without writing [Xt]. *)
Theorem evalDeriv_short_range_unwritten (t : R) (Xt p : Point)
  (Hmin : tmin <= t) (Hmax : t <= tmax) (Hp : evalPoint t = (0%Z, p))
  (Hf : tmax < t + h) (Hb : t < tmin + h) :
  evalDeriv tmin tmax evalPoint h t Xt = (0%Z, Xt).
Proof.
  unfold evalDeriv.
  destruct (Rge_dec t tmin); [|lra]. destruct (Rle_dec t tmax); [|lra].
  rewrite Hp. simpl Z.eqb. cbv iota beta. simpl negb. cbv iota.
  destruct (Rle_dec (t + h) tmax); [lra|].
  destruct (Rge_dec t (tmin + h)); [lra|reflexivity].
Qed.

End DerivFacts.

(** A witness for [evalDeriv_difference] on the line [x = t] over [[0, 1]]. *)
Lemma evalDeriv_difference_witness :
  let ev := fun t : R => (0%Z, {| px := t; py := 0; pz := 0 |}) in
  let h := 1 / 1000000 in
  (0 <= 1 / 2 /\ 1 / 2 <= 1 /\ ev (1 / 2) = (0%Z, {| px := 1 / 2; py := 0; pz := 0 |})) /\
  ((forall p2, 1 / 2 + h <= 1 -> ev (1 / 2 + h) = (0%Z, p2) ->
    evalDeriv 0 1 ev h (1 / 2) {| px := 0; py := 0; pz := 0 |} =
    (0%Z, {| px := (px p2 - 1 / 2) / h; py := (py p2 - 0) / h;
             pz := (pz p2 - 0) / h |})) /\
   (forall p2, 1 < 1 / 2 + h -> 0 + h <= 1 / 2 -> ev (1 / 2 - h) = (0%Z, p2) ->
    evalDeriv 0 1 ev h (1 / 2) {| px := 0; py := 0; pz := 0 |} =
    (0%Z, {| px := (1 / 2 - px p2) / h; py := (0 - py p2) / h;
             pz := (0 - pz p2) / h |}))).
Proof.
  intros ev h. split; [split; [lra|split; [lra|reflexivity]]|].
  apply (evalDeriv_difference 0 1 ev h (1 / 2) {| px := 0; py := 0; pz := 0 |}
           {| px := 1 / 2; py := 0; pz := 0 |}); [lra|lra|reflexivity].
Defined.

(** A witness for [evalDeriv_short_range_unwritten]: the range
    [[0, 1e-7]] is shorter than the default step [1e-6]. *)
Lemma evalDeriv_short_range_unwritten_witness :
  let ev := fun t : R => (0%Z, {| px := t; py := 0; pz := 0 |}) in
  let h := 1 / 1000000 in
  (0 <= 0 /\ 0 <= 1 / 10000000 /\ ev 0 = (0%Z, {| px := 0; py := 0; pz := 0 |}) /\
   1 / 10000000 < 0 + h /\ 0 < 0 + h) /\
  evalDeriv 0 (1 / 10000000) ev h 0 {| px := 5; py := 5; pz := 5 |} =
  (0%Z, {| px := 5; py := 5; pz := 5 |}).
Proof.
  intros ev h. unfold h.
  split; [split; [lra|split; [lra|split; [reflexivity|split; lra]]]|].
  apply (evalDeriv_short_range_unwritten 0 (1 / 10000000) ev (1 / 1000000) 0
           {| px := 5; py := 5; pz := 5 |} {| px := 0; py := 0; pz := 0 |});
    [lra|lra|reflexivity|lra|lra].
Defined.

(** A witness for [evalDeriv_failure] at a parameter below the range. *)
Lemma evalDeriv_failure_witness :
  let ev := fun t : R => (0%Z, {| px := t; py := 0; pz := 0 |}) in
  (-1 < 0 \/ 1 < -1) /\
  evalDeriv 0 1 ev (1 / 1000000) (-1) {| px := 5; py := 5; pz := 5 |} =
  (1%Z, {| px := 5; py := 5; pz := 5 |}).
Proof.
  intros ev. split; [left; lra|].
  apply (proj1 (evalDeriv_failure 0 1 ev (1 / 1000000) (-1)
                  {| px := 5; py := 5; pz := 5 |})).
  left; lra.
Defined.

End CurveFacts.

Module ErrorBinsFacts.
Import ErrorBins.

Lemma bin_bounds_lt (j : nat) : bin_bounds j < bin_bounds (S j).
Proof.
  unfold bin_bounds. apply Rpower_lt; [lra|].
  rewrite S_INR. assert (0 < INR NUM_BINS) by (apply lt_0_INR; unfold NUM_BINS; lia).
  unfold low, high. apply Rplus_lt_compat_l. unfold Rdiv.
  apply Rmult_lt_compat_r; [apply Rinv_0_lt_compat; lra|]. lra.
Qed.

Lemma bin_bounds_le (i j : nat) : (i <= j)%nat -> bin_bounds i <= bin_bounds j.
Proof.
  induction 1; [lra|]. pose proof (bin_bounds_lt m). lra.
Qed.

Lemma bins_incr_at (bins : Bins) (i k : nat) :
  bins_incr bins i k = (bins k + (if Nat.eqb k i then 1 else 0))%nat.
Proof. unfold bins_incr. destruct (Nat.eqb k i); lia. Qed.

Lemma bin_scan_at (e : R) (bins : Bins) (n k : nat) :
  fold_left (fun bs j =>
     if ((if Rge_dec e (bin_bounds j) then true else false) &&
         (if Rlt_dec e (bin_bounds (j + 1)) then true else false))%bool
     then bins_incr bs (j + 1) else bs) (seq 0 n) bins k =
  (bins k + match k with
            | O => 0
            | S j => if Nat.ltb j n then
                       if ((if Rge_dec e (bin_bounds j) then true else false) &&
                           (if Rlt_dec e (bin_bounds (S j)) then true else false))%bool
                       then 1 else 0
                     else 0
            end)%nat.
Proof.
  induction n as [|n IH].
  - simpl. destruct k; lia.
  - rewrite seq_S, fold_left_app. cbn [fold_left].
    replace (0 + n)%nat with n by lia. replace (n + 1)%nat with (S n) by lia.
    set (c := ((if Rge_dec e (bin_bounds n) then true else false) &&
               (if Rlt_dec e (bin_bounds (S n)) then true else false))%bool).
    assert (Hc : forall X : Bins, (if c then bins_incr X (S n) else X) k =
                 (X k + (if c then (if Nat.eqb k (S n) then 1 else 0) else 0))%nat)
      by (intros X; destruct c; [apply bins_incr_at | lia]).
    rewrite Hc, IH. clear Hc IH.
    destruct k as [|j]; [simpl; destruct c; lia|].
    destruct (Nat.lt_total j n) as [Hlt|[Heq|Hgt]].
    + replace (j <? n) with true by (symmetry; apply Nat.ltb_lt; lia).
      replace (j <? S n) with true by (symmetry; apply Nat.ltb_lt; lia).
      replace (S j =? S n) with false by (symmetry; apply Nat.eqb_neq; lia).
      destruct c; lia.
    + subst j. rewrite Nat.ltb_irrefl.
      replace (n <? S n) with true by (symmetry; apply Nat.ltb_lt; lia).
      rewrite Nat.eqb_refl. fold c. destruct c; lia.
    + replace (j <? n) with false by (symmetry; apply Nat.ltb_ge; lia).
      replace (j <? S n) with false by (symmetry; apply Nat.ltb_ge; lia).
      replace (S j =? S n) with false by (symmetry; apply Nat.eqb_neq; lia).
      destruct c; lia.
Qed.

Lemma bin_bounds_0_lt_n : bin_bounds 0 < bin_bounds NUM_BINS.
Proof.
  pose proof (bin_bounds_lt 0). pose proof (bin_bounds_le 1 NUM_BINS).
  unfold NUM_BINS in *. assert (1 <= 30)%nat by lia. specialize (H0 H1). lra.
Qed.

Lemma in_bin_low (e : R) (k : nat) :
  e <= bin_bounds 0 -> spec_in_bin k e = Nat.eqb k 0.
Proof.
  intros He. pose proof bin_bounds_0_lt_n.
  destruct k as [|j]; simpl spec_in_bin.
  - destruct (Rle_dec e (bin_bounds 0)); [reflexivity|lra].
  - destruct (Rlt_dec (bin_bounds 0) e); [lra|].
    destruct (j <? NUM_BINS); [reflexivity|].
    destruct (j =? NUM_BINS); [|reflexivity].
    destruct (Rle_dec (bin_bounds NUM_BINS) e); [lra|reflexivity].
Qed.

Lemma in_bin_high (e : R) (k : nat) :
  bin_bounds 0 < e -> bin_bounds NUM_BINS <= e ->
  spec_in_bin k e = Nat.eqb k (S NUM_BINS).
Proof.
  intros H0 H1. destruct k as [|j]; simpl spec_in_bin.
  - destruct (Rle_dec e (bin_bounds 0)); [lra|reflexivity].
  - destruct (Nat.ltb_spec j NUM_BINS).
    + pose proof (bin_bounds_le (S j) NUM_BINS ltac:(lia)).
      destruct (Rlt_dec e (bin_bounds (S j))); [lra|].
      rewrite Bool.andb_false_r. symmetry. apply Nat.eqb_neq. lia.
    + destruct (Nat.eqb_spec j NUM_BINS).
      * subst j. rewrite Nat.eqb_refl.
        destruct (Rle_dec (bin_bounds NUM_BINS) e); [reflexivity|lra].
      * symmetry. apply Nat.eqb_neq. lia.
Qed.

Lemma in_bin_mid (e : R) (k : nat) :
  bin_bounds 0 < e -> e < bin_bounds NUM_BINS ->
  spec_in_bin k e =
  match k with
  | O => false
  | S j => if Nat.ltb j NUM_BINS then
             ((if Rge_dec e (bin_bounds j) then true else false) &&
              (if Rlt_dec e (bin_bounds (S j)) then true else false))%bool
           else false
  end.
Proof.
  intros H0 H1. destruct k as [|j]; simpl spec_in_bin.
  - destruct (Rle_dec e (bin_bounds 0)); [lra|reflexivity].
  - destruct (j <? NUM_BINS).
    + destruct (Rlt_dec (bin_bounds 0) e); [|lra]. simpl andb.
      destruct (Rle_dec (bin_bounds j) e), (Rge_dec e (bin_bounds j));
        try reflexivity; lra.
    + destruct (j =? NUM_BINS); [|reflexivity].
      destruct (Rle_dec (bin_bounds NUM_BINS) e); [lra|reflexivity].
Qed.

(** One element increments exactly the bin [spec_in_bin] names. *)
Lemma bin_error_at (bins : Bins) (e : R) (k : nat) :
  bin_error bins e k = (bins k + (if spec_in_bin k e then 1 else 0))%nat.
Proof.
  unfold bin_error. destruct (Rle_dec e (bin_bounds 0)) as [Hl|Hl].
  - rewrite bins_incr_at, (in_bin_low e k Hl). reflexivity.
  - destruct (Rge_dec e (bin_bounds NUM_BINS)) as [Hh|Hh].
    + rewrite bins_incr_at, (in_bin_high e k ltac:(lra) ltac:(lra)). reflexivity.
    + rewrite bin_scan_at, (in_bin_mid e k ltac:(lra) ltac:(lra)).
      destruct k as [|j]; [reflexivity|].
      destruct (j <? NUM_BINS); [|reflexivity].
      destruct (_ && _)%bool; reflexivity.
Qed.

Lemma fold_bin_error_at (errs : list R) (bins : Bins) (k : nat) :
  fold_left bin_error errs bins k =
  (bins k + length (filter (spec_in_bin k) errs))%nat.
Proof.
  revert bins. induction errs as [|e errs IH]; intros bins; simpl; [lia|].
  rewrite IH, bin_error_at. destruct (spec_in_bin k e); simpl; lia.
Qed.

Lemma nsum_upto_ext (n : nat) (f g : nat -> nat) :
  (forall i, (i < n)%nat -> f i = g i) -> nsum_upto n f = nsum_upto n g.
Proof.
  induction n as [|n IH]; intros H; simpl; [reflexivity|].
  rewrite IH, H; [reflexivity|lia|intros i Hi; apply H; lia].
Qed.

Lemma nsum_upto_add (n : nat) (f g : nat -> nat) :
  nsum_upto n (fun i => f i + g i)%nat = (nsum_upto n f + nsum_upto n g)%nat.
Proof. induction n as [|n IH]; simpl; lia. Qed.

Lemma nsum_upto_shift (n : nat) (f : nat -> nat) :
  nsum_upto (S n) f = (f 0%nat + nsum_upto n (fun j => f (S j)))%nat.
Proof. induction n as [|n IH]; [simpl; lia|]. cbn [nsum_upto] in *. rewrite IH. lia. Qed.

(** Above the first bound, the scan of the bounds matches at most once. *)
Lemma bin_scan_count (e : R) (n : nat) :
  bin_bounds 0 <= e ->
  nsum_upto n (fun j =>
    if ((if Rge_dec e (bin_bounds j) then true else false) &&
        (if Rlt_dec e (bin_bounds (S j)) then true else false))%bool
    then 1 else 0)%nat =
  (if Rlt_dec e (bin_bounds n) then 1 else 0)%nat.
Proof.
  intros H0. induction n as [|n IH]; cbn [nsum_upto].
  - destruct (Rlt_dec e (bin_bounds 0)); [lra|reflexivity].
  - rewrite IH. pose proof (bin_bounds_lt n).
    destruct (Rlt_dec e (bin_bounds n)), (Rge_dec e (bin_bounds n)),
      (Rlt_dec e (bin_bounds (S n))); simpl; try lia; lra.
Qed.

Lemma in_bin_once (e : R) :
  nsum_upto (NUM_BINS + 2) (fun k => if spec_in_bin k e then 1 else 0)%nat = 1%nat.
Proof.
  destruct (Rle_dec e (bin_bounds 0)) as [Hl|Hl].
  - rewrite (nsum_upto_ext _ _ (fun k => if Nat.eqb k 0 then 1 else 0)%nat)
      by (intros i _; rewrite (in_bin_low e i Hl); reflexivity).
    reflexivity.
  - destruct (Rle_dec (bin_bounds NUM_BINS) e) as [Hh|Hh].
    + rewrite (nsum_upto_ext _ _ (fun k => if Nat.eqb k (S NUM_BINS) then 1 else 0)%nat)
        by (intros i _; rewrite (in_bin_high e i ltac:(lra) Hh); reflexivity).
      reflexivity.
    + replace (NUM_BINS + 2)%nat with (S (S NUM_BINS)) by (unfold NUM_BINS; lia).
      rewrite nsum_upto_shift. cbn [nsum_upto].
      rewrite (in_bin_mid e 0 ltac:(lra) ltac:(lra)).
      rewrite (in_bin_mid e (S NUM_BINS) ltac:(lra) ltac:(lra)).
      rewrite Nat.ltb_irrefl.
      rewrite (nsum_upto_ext _ _ (fun j =>
        if ((if Rge_dec e (bin_bounds j) then true else false) &&
            (if Rlt_dec e (bin_bounds (S j)) then true else false))%bool
        then 1 else 0)%nat).
      * rewrite bin_scan_count by lra.
        destruct (Rlt_dec e (bin_bounds NUM_BINS)); [reflexivity|lra].
      * intros i Hi. rewrite (in_bin_mid e (S i) ltac:(lra) ltac:(lra)).
        replace (i <? NUM_BINS) with true by (symmetry; apply Nat.ltb_lt; lia).
        reflexivity.
Qed.

(** [X6] For every process, the local bin [k] of [TMR_PrintErrorBins]
    counts exactly the local elements whose error lies in the interval of
    bin [k]: [error <= bin_bounds[0]] for bin [0],
    [bin_bounds[j] <= error < bin_bounds[j+1]] (above [bin_bounds[0]]) for
    bin [j+1], and [error >= bin_bounds[NUM_BINS]] for the last bin. *)
Theorem local_bins_count (error : list R) (k : nat) :
  local_bins error k = length (filter (spec_in_bin k) error).
Proof. unfold local_bins. rewrite fold_bin_error_at. reflexivity. Qed.

(** [X7] The bounds of [TMR_PrintErrorBins] increase strictly, so every
    element lands in exactly one bin: the [total] of the reduced bins
    equals [ntotal], the number of elements over all processes. *)
Theorem printErrorBins_total (procs : list (list R)) :
  snd (TMR_PrintErrorBins_bins procs) = ntotal procs.
Proof.
  unfold TMR_PrintErrorBins_bins. cbn [snd].
  induction procs as [|errs procs IH].
  - unfold allreduce_bins. simpl. reflexivity.
  - unfold allreduce_bins in *. cbn [fold_right ntotal].
    rewrite nsum_upto_add, IH. f_equal.
    unfold local_bins.
    rewrite (nsum_upto_ext _ _ (fun k => length (filter (spec_in_bin k) errs)))
      by (intros k _; rewrite fold_bin_error_at; reflexivity).
    clear IH. induction errs as [|e errs IHe].
    + rewrite (nsum_upto_ext _ _ (fun _ => 0%nat)) by (intros; reflexivity).
      reflexivity.
    + rewrite (nsum_upto_ext _ _ (fun k =>
        (if spec_in_bin k e then 1 else 0) + length (filter (spec_in_bin k) errs))%nat)
        by (intros k _; simpl; destruct (spec_in_bin k e); reflexivity).
      rewrite nsum_upto_add, in_bin_once, IHe. reflexivity.
Qed.

End ErrorBinsFacts.

Module CurvatureConstraintFacts.
Import Curvature CurvatureConstraint EnrichmentFacts.

Ltac dpl_poly :=
  cbn [at_ evalPoly fst snd nth];
  eapply dpl_value; [dpl_build | cbv beta; ring].

Lemma evalPoly_dx (x y z : R) (j : nat) : (j < 20)%nat ->
  derivable_pt_lim (fun t => at_ (fst (fst (fst (evalPoly [t; y; z])))) j) x
    (at_ (snd (fst (fst (evalPoly [x; y; z])))) j).
Proof. intros Hj. by_index j dpl_poly. Qed.

Lemma evalPoly_dy (x y z : R) (j : nat) : (j < 20)%nat ->
  derivable_pt_lim (fun t => at_ (fst (fst (fst (evalPoly [x; t; z])))) j) y
    (at_ (snd (fst (evalPoly [x; y; z]))) j).
Proof. intros Hj. by_index j dpl_poly. Qed.

Lemma evalPoly_dz (x y z : R) (j : nat) : (j < 20)%nat ->
  derivable_pt_lim (fun t => at_ (fst (fst (fst (evalPoly [x; y; t])))) j) z
    (at_ (snd (evalPoly [x; y; z])) j).
Proof. intros Hj. by_index j dpl_poly. Qed.

(** [X8] For each of the 20 basis functions, the arrays [Nx], [Ny] and [Nz]
    written by [evalPoly] are the exact partial derivatives of [N] with
    respect to [x[0]], [x[1]] and [x[2]]. *)
Theorem evalPoly_derivatives_exact (x y z : R) (j : nat) (Hj : (j < 20)%nat) :
  derivable_pt_lim (fun t => at_ (fst (fst (fst (evalPoly [t; y; z])))) j) x
    (at_ (snd (fst (fst (evalPoly [x; y; z])))) j) /\
  derivable_pt_lim (fun t => at_ (fst (fst (fst (evalPoly [x; t; z])))) j) y
    (at_ (snd (fst (evalPoly [x; y; z]))) j) /\
  derivable_pt_lim (fun t => at_ (fst (fst (fst (evalPoly [x; y; t])))) j) z
    (at_ (snd (evalPoly [x; y; z])) j).
Proof.
  split; [apply evalPoly_dx, Hj | split; [apply evalPoly_dy, Hj | apply evalPoly_dz, Hj]].
Qed.

Lemma evalPoly_derivatives_exact_witness :
  (13 < 20)%nat /\
  derivable_pt_lim (fun t => at_ (fst (fst (fst (evalPoly [t; 2; 3])))) 13) 1
    (at_ (snd (fst (fst (evalPoly [1; 2; 3])))) 13) /\
  derivable_pt_lim (fun t => at_ (fst (fst (fst (evalPoly [1; t; 3])))) 13) 2
    (at_ (snd (fst (evalPoly [1; 2; 3]))) 13) /\
  derivable_pt_lim (fun t => at_ (fst (fst (fst (evalPoly [1; 2; t])))) 13) 3
    (at_ (snd (evalPoly [1; 2; 3])) 13).
Proof.
  split; [lia|]. apply (evalPoly_derivatives_exact 1 2 3 13). lia.
Defined.

Lemma dpl_sum_upto (n : nat) (f : nat -> R -> R) (l : nat -> R) (x : R) :
  (forall j, (j < n)%nat -> derivable_pt_lim (f j) x (l j)) ->
  derivable_pt_lim (fun t => sum_upto n (fun j => f j t)) x (sum_upto n l).
Proof.
  induction n as [|n IH]; intros H; cbn [sum_upto].
  - apply dpl_const.
  - apply dpl_plus; [apply IH; intros j Hj; apply H; lia | apply H; lia].
Qed.

Lemma dpl_scale (c : R) (f : R -> R) (x l : R) :
  derivable_pt_lim f x l -> derivable_pt_lim (fun t => c * f t) x (c * l).
Proof.
  intros H. eapply dpl_value; [apply (dpl_mult (fun _ => c) f x 0 l); [apply dpl_const | exact H]|]. cbv beta. ring.
Qed.

(** [X9] [estimateHessian] returns the value and the perturbed gradient
    of the fitted model [sum_j c[j] N[j](x)] at the centroid ([x = 0]), but
    its [H] is not the model Hessian there: the off-diagonal entries are the
    mixed second derivatives while each diagonal entry [H[0]], [H[3]],
    [H[5]] is half of the corresponding second derivative ([c] is the
    [dgelss] solution; [spec_fitted_model_x] and the like are the first
    derivatives of the model, as the first part shows). *)
Theorem estimateHessian_model (dgelss : list R -> list R -> list R)
  (Xpts vals derivs : list R) :
  let c := dgelss (hessian_A Xpts) (hessian_rhs vals derivs) in
  let '(val, g, H) := estimateHessian dgelss Xpts vals derivs in
  (forall x0 x1 x2,
     derivable_pt_lim (fun t => spec_fitted_model c [t; x1; x2]) x0
       (spec_fitted_model_x c [x0; x1; x2]) /\
     derivable_pt_lim (fun t => spec_fitted_model c [x0; t; x2]) x1
       (spec_fitted_model_y c [x0; x1; x2]) /\
     derivable_pt_lim (fun t => spec_fitted_model c [x0; x1; t]) x2
       (spec_fitted_model_z c [x0; x1; x2])) /\
  spec_fitted_model c [0; 0; 0] = val /\
  at_ g 0 = perturb (spec_fitted_model_x c [0; 0; 0]) /\
  at_ g 1 = perturb (spec_fitted_model_y c [0; 0; 0]) /\
  at_ g 2 = perturb (spec_fitted_model_z c [0; 0; 0]) /\
  derivable_pt_lim (fun t => spec_fitted_model_x c [t; 0; 0]) 0 (2 * at_ H 0) /\
  derivable_pt_lim (fun t => spec_fitted_model_x c [0; t; 0]) 0 (at_ H 1) /\
  derivable_pt_lim (fun t => spec_fitted_model_x c [0; 0; t]) 0 (at_ H 2) /\
  derivable_pt_lim (fun t => spec_fitted_model_y c [0; t; 0]) 0 (2 * at_ H 3) /\
  derivable_pt_lim (fun t => spec_fitted_model_y c [0; 0; t]) 0 (at_ H 4) /\
  derivable_pt_lim (fun t => spec_fitted_model_z c [0; 0; t]) 0 (2 * at_ H 5).
Proof.
  intros c. unfold estimateHessian. fold c.
  split; [|split; [|split; [|split; [|split]]]].
  - intros x0 x1 x2. unfold spec_fitted_model, spec_fitted_model_x,
      spec_fitted_model_y, spec_fitted_model_z.
    split; [|split]; apply dpl_sum_upto; intros j Hj; apply dpl_scale.
    + apply (evalPoly_dx x0 x1 x2 j Hj).
    + apply (evalPoly_dy x0 x1 x2 j Hj).
    + apply (evalPoly_dz x0 x1 x2 j Hj).
  - unfold spec_fitted_model. cbn [evalPoly sum_upto at_ nth fst snd]. ring.
  - unfold spec_fitted_model_x. cbn [evalPoly sum_upto at_ nth fst snd].
    f_equal. ring.
  - unfold spec_fitted_model_y. cbn [evalPoly sum_upto at_ nth fst snd].
    f_equal. ring.
  - unfold spec_fitted_model_z. cbn [evalPoly sum_upto at_ nth fst snd].
    f_equal. ring.
  - unfold spec_fitted_model_x, spec_fitted_model_y, spec_fitted_model_z.
    cbn [evalPoly sum_upto at_ nth fst snd].
    repeat split; (eapply dpl_value; [dpl_build | cbv beta; ring]).
Qed.

(** [X10] Every gradient component returned by [estimateHessian] is at
    least [1e-6] in absolute value, so [gn >= 3e-12] and [evalCurvature]
    never takes its zero-gradient branch on an estimated gradient. *)
Theorem estimateHessian_gradient_nonzero (dgelss : list R -> list R -> list R)
  (Xpts vals derivs : list R) :
  let '(_, g, _) := estimateHessian dgelss Xpts vals derivs in
  1 / 1000000 <= Rabs (at_ g 0) /\ 1 / 1000000 <= Rabs (at_ g 1) /\
  1 / 1000000 <= Rabs (at_ g 2) /\
  3 / 1000000000000 <= grad_norm2 g.
Proof.
  unfold estimateHessian. cbn [at_ nth].
  assert (P : forall x, 1 / 1000000 <= Rabs (perturb x)).
  { intros x. unfold perturb. destruct (Rlt_dec x 0).
    - rewrite Rabs_left by lra. lra.
    - rewrite Rabs_right by lra. lra. }
  assert (Q : forall x, 1 / 1000000000000 <= perturb x * perturb x).
  { intros x. pose proof (P x).
    assert (E : perturb x * perturb x = Rabs (perturb x) * Rabs (perturb x))
      by (rewrite <- Rabs_mult; rewrite Rabs_right; [reflexivity | nra]).
    rewrite E. nra. }
  unfold grad_norm2. cbn [at_ nth].
  pose proof (Q (at_ (dgelss (hessian_A Xpts) (hessian_rhs vals derivs)) 1)).
  pose proof (Q (at_ (dgelss (hessian_A Xpts) (hessian_rhs vals derivs)) 2)).
  pose proof (Q (at_ (dgelss (hessian_A Xpts) (hessian_rhs vals derivs)) 3)).
  split; [apply P|split; [apply P|split; [apply P|lra]]].
Qed.

Ltac destruct_ifs :=
  repeat match goal with
  | |- context [if ?c then _ else _] => destruct c
  end.

Lemma evalCurvDeriv_result (w val : R) (g H : list R) :
  fst (fst (fst (evalCurvDeriv w val g H))) = evalCurvature w val g H.
Proof.
  unfold evalCurvDeriv, evalCurvature.
  destruct (curv_kmax_kdiff (curv_KG g H) (curv_KM g H)) as [kmax kdiff].
  destruct_ifs; reflexivity.
Qed.

Lemma evalCurvDeriv_dval_eq (w val : R) (g H : list R) :
  snd (fst (fst (evalCurvDeriv w val g H))) =
  let '(kmax, kdiff) := curv_kmax_kdiff (curv_KG g H) (curv_KM g H) in
  -64 * (kmax + ln (1 + exp (w * kdiff)) / w) * (val - 0.5) * (val - 0.5) * (val - 0.5).
Proof.
  unfold evalCurvDeriv.
  destruct (curv_kmax_kdiff (curv_KG g H) (curv_KM g H)) as [kmax kdiff].
  destruct_ifs; reflexivity.
Qed.

Lemma evalCurvDeriv_dval (w val : R) (g H : list R) :
  derivable_pt_lim (fun v => evalCurvature w v g H) val
    (snd (fst (fst (evalCurvDeriv w val g H)))).
Proof.
  rewrite evalCurvDeriv_dval_eq. unfold evalCurvature.
  destruct (curv_kmax_kdiff (curv_KG g H) (curv_KM g H)) as [kmax kdiff].
  unfold indicator_factor.
  eapply dpl_value; [dpl_build | cbv beta; ring].
Qed.

(** [X11] [evalCurvDeriv] returns the same value as [evalCurvature] for
    the same [(val, g, H)], and its [dval] is the exact derivative of that
    value with respect to [val]. *)
Theorem evalCurvDeriv_value_and_dval (w val : R) (g H : list R) :
  fst (fst (fst (evalCurvDeriv w val g H))) = evalCurvature w val g H /\
  derivable_pt_lim (fun v => evalCurvature w v g H) val
    (snd (fst (fst (evalCurvDeriv w val g H)))).
Proof. split; [apply evalCurvDeriv_result | apply evalCurvDeriv_dval]. Qed.

Lemma kmax_kdiff_props (KG KM : R) :
  let '(kmax, kdiff) := curv_kmax_kdiff KG KM in 0 <= kmax /\ kdiff <= 0.
Proof.
  unfold curv_kmax_kdiff.
  pose proof (Rabs_pos (KM + sqrt (KM * KM - KG))).
  pose proof (Rabs_pos (KM - sqrt (KM * KM - KG))).
  destruct (Rgt_dec _ _); lra.
Qed.

(** [X12] For a positive [aggregate_weight] [w], [evalCurvature] returns
    [factor*s] where [s] overestimates the larger principal curvature
    [kmax >= 0] by more than [0] and at most [ln 2 / w].  With a zero
    Hessian both curvatures are zero and the result is still
    [factor*ln 2/w], for every gradient. *)
Theorem evalCurvature_softmax_bounds (w val : R) (g H : list R) (Hw : 0 < w) :
  (let '(kmax, _) := curv_kmax_kdiff (curv_KG g H) (curv_KM g H) in
   0 <= kmax /\
   exists s, evalCurvature w val g H = indicator_factor val * s /\
             kmax < s <= kmax + ln 2 / w) /\
  (H = [0; 0; 0; 0; 0; 0] ->
   evalCurvature w val g H = indicator_factor val * (ln 2 / w)).
Proof.
  split.
  - unfold evalCurvature.
    pose proof (kmax_kdiff_props (curv_KG g H) (curv_KM g H)) as P.
    destruct (curv_kmax_kdiff (curv_KG g H) (curv_KM g H)) as [kmax kdiff].
    destruct P as [P1 P2]. split; [exact P1|].
    exists (kmax + ln (1 + exp (w * kdiff)) / w). split; [reflexivity|].
    pose proof (exp_pos (w * kdiff)) as E0.
    assert (E1 : exp (w * kdiff) <= 1).
    { rewrite <- exp_0. destruct (Req_dec (w * kdiff) 0) as [Z|Z].
      - rewrite Z. lra.
      - left. apply exp_increasing. nra. }
    assert (L0 : 0 < ln (1 + exp (w * kdiff))).
    { rewrite <- ln_1. apply ln_increasing; lra. }
    assert (L1 : ln (1 + exp (w * kdiff)) <= ln 2).
    { destruct (Req_dec (1 + exp (w * kdiff)) 2) as [Q|Q];
        [rewrite Q; lra | left; apply ln_increasing; lra]. }
    assert (Iw : 0 < / w) by (apply Rinv_0_lt_compat, Hw).
    unfold Rdiv. split; [nra|]. apply Rplus_le_compat_l.
    apply Rmult_le_compat_r; lra.
  - intros ->. unfold evalCurvature, curv_KG, curv_KM, curv_kmax_kdiff, cofactor, sym_quad.
    cbn [at_ nth].
    assert (Z : forall a b c : R, a * (0 * a + 0 * b + 0 * c) + b * (0 * a + 0 * b + 0 * c) +
                       c * (0 * a + 0 * b + 0 * c) = 0) by (intros; ring).
    replace (0 * 0 - 0 * 0) with 0 by ring. rewrite !Z.
    assert (K : (if Req_EM_T (grad_norm2 g) 0 then 0 else 0 / (grad_norm2 g * grad_norm2 g)) = 0)
      by (destruct (Req_EM_T _ _); [reflexivity | unfold Rdiv; ring]).
    assert (K2 : (if Req_EM_T (grad_norm2 g) 0 then 0
                  else 0.5 * (0 - grad_norm2 g * (0 + 0 + 0)) /
                       (grad_norm2 g * sqrt (grad_norm2 g))) = 0)
      by (destruct (Req_EM_T _ _); [reflexivity | unfold Rdiv; ring]).
    rewrite K, K2. replace (0 * 0 - 0) with 0 by ring. rewrite sqrt_0.
    replace (0 + 0) with 0 by ring. replace (0 - 0) with 0 by ring. rewrite Rabs_R0.
    destruct (Rgt_dec 0 0); [lra|].
    replace (w * (0 - 0)) with 0 by ring. rewrite exp_0.
    replace (1 + 1) with 2 by ring. ring.
Qed.

(** A witness for [evalCurvature_softmax_bounds] with [w = 20]. *)
Lemma evalCurvature_softmax_bounds_witness :
  0 < 20 /\
  ((let '(kmax, _) := curv_kmax_kdiff (curv_KG [1; 0; 0] [0; 0; 0; 1; 0; 1])
                                      (curv_KM [1; 0; 0] [0; 0; 0; 1; 0; 1]) in
    0 <= kmax /\
    exists s, evalCurvature 20 0.5 [1; 0; 0] [0; 0; 0; 1; 0; 1] = indicator_factor 0.5 * s /\
              kmax < s <= kmax + ln 2 / 20) /\
   ([0; 0; 0; 1; 0; 1] = [0; 0; 0; 0; 0; 0] ->
    evalCurvature 20 0.5 [1; 0; 0] [0; 0; 0; 1; 0; 1] = indicator_factor 0.5 * (ln 2 / 20))).
Proof.
  split; [lra|]. apply (evalCurvature_softmax_bounds 20 0.5 [1; 0; 0] [0; 0; 0; 1; 0; 1]). lra.
Defined.

Lemma sum_upto_add_at (M : nat) (f : nat -> R) (j : nat) (v : R) (w : nat -> R) :
  sum_upto M (fun k => add_at f j v k * w k) =
  sum_upto M (fun k => f k * w k) + (if Nat.ltb j M then v * w j else 0).
Proof.
  induction M as [|M IH]; cbn [sum_upto].
  - simpl. ring.
  - rewrite IH. unfold add_at at 1.
    destruct (Nat.eqb_spec M j) as [->|Hne].
    + rewrite (proj2 (Nat.ltb_ge j j)) by lia.
      rewrite (proj2 (Nat.ltb_lt j (S j))) by lia. ring.
    + destruct (Nat.ltb_spec j M).
      * rewrite (proj2 (Nat.ltb_lt j (S M))) by lia. ring.
      * rewrite (proj2 (Nat.ltb_ge j (S M))) by lia. ring.
Qed.

Lemma sum_upto_plus (n : nat) (f g : nat -> R) :
  sum_upto n f + sum_upto n g = sum_upto n (fun j => f j + g j).
Proof. induction n as [|n IH]; cbn [sum_upto]; [ring|]. rewrite <- IH. ring. Qed.

Lemma sum_upto_minus (n : nat) (f g w : nat -> R) :
  sum_upto n (fun k => (f k - g k) * w k) =
  sum_upto n (fun k => f k * w k) - sum_upto n (fun k => g k * w k).
Proof. induction n as [|n IH]; cbn [sum_upto]; [ring|]. rewrite IH. ring. Qed.

(** The accumulation loop of [addCurvDeriv], for any step that adds
    [vj j] at [dvals[j]] and [u0 j], [u1 j], [u2 j] at
    [dderiv[3*j]], [dderiv[3*j+1]], [dderiv[3*j+2]]. *)
Lemma fold_add_pairs
  (F : (nat -> R) * (nat -> R) -> nat -> (nat -> R) * (nat -> R))
  (vj u0 u1 u2 : nat -> R)
  (HF : forall dv dd j, F (dv, dd) j =
     (add_at dv j (vj j),
      add_at (add_at (add_at dd (3 * j) (u0 j)) (3 * j + 1) (u1 j)) (3 * j + 2) (u2 j)))
  (E : nat) (wv wd : nat -> R) :
  forall n dv0 dd0, (n <= E)%nat ->
  sum_upto E (fun k => fst (fold_left F (seq 0 n) (dv0, dd0)) k * wv k) =
    sum_upto E (fun k => dv0 k * wv k) + sum_upto n (fun j => vj j * wv j) /\
  sum_upto (3 * E) (fun k => snd (fold_left F (seq 0 n) (dv0, dd0)) k * wd k) =
    sum_upto (3 * E) (fun k => dd0 k * wd k) +
    sum_upto n (fun j => u0 j * wd (3 * j)%nat + u1 j * wd (3 * j + 1)%nat +
                         u2 j * wd (3 * j + 2)%nat).
Proof.
  induction n as [|n IH]; intros dv0 dd0 Hn.
  - simpl. split; ring.
  - rewrite seq_S, fold_left_app. cbn [fold_left].
    destruct (IH dv0 dd0 ltac:(lia)) as [IH1 IH2].
    destruct (fold_left F (seq 0 n) (dv0, dd0)) as [dv dd].
    rewrite HF. cbn [fst snd sum_upto] in *.
    rewrite !sum_upto_add_at, IH1, IH2.
    rewrite (proj2 (Nat.ltb_lt (0 + n) E)) by lia.
    rewrite (proj2 (Nat.ltb_lt (3 * (0 + n)) (3 * E))) by lia.
    rewrite (proj2 (Nat.ltb_lt (3 * (0 + n) + 1) (3 * E))) by lia.
    rewrite (proj2 (Nat.ltb_lt (3 * (0 + n) + 2) (3 * E))) by lia.
    replace (0 + n)%nat with n by lia. split; ring.
Qed.

(** The reverse-mode pass of [addCurvDeriv] through the Hessian assembly,
    as an identity of weighted sums. *)
Lemma curv_assemble_transpose (N Na Nb Nc J dirv dird dg dH : list R)
  (alpha dval : R) (n : nat) :
  let dh0 := at_ J 0 * at_ dH 0 + 0.5 * at_ J 1 * at_ dH 1 + 0.5 * at_ J 2 * at_ dH 2 in
  let dh1 := at_ J 3 * at_ dH 0 + 0.5 * at_ J 4 * at_ dH 1 + 0.5 * at_ J 5 * at_ dH 2 in
  let dh2 := at_ J 6 * at_ dH 0 + 0.5 * at_ J 7 * at_ dH 1 + 0.5 * at_ J 8 * at_ dH 2 in
  let dh3 := 0.5 * at_ J 0 * at_ dH 1 + at_ J 1 * at_ dH 3 + 0.5 * at_ J 2 * at_ dH 4 in
  let dh4 := 0.5 * at_ J 3 * at_ dH 1 + at_ J 4 * at_ dH 3 + 0.5 * at_ J 5 * at_ dH 4 in
  let dh5 := 0.5 * at_ J 6 * at_ dH 1 + at_ J 7 * at_ dH 3 + 0.5 * at_ J 8 * at_ dH 4 in
  let dh6 := 0.5 * at_ J 0 * at_ dH 2 + 0.5 * at_ J 1 * at_ dH 4 + at_ J 2 * at_ dH 5 in
  let dh7 := 0.5 * at_ J 3 * at_ dH 2 + 0.5 * at_ J 4 * at_ dH 4 + at_ J 5 * at_ dH 5 in
  let dh8 := 0.5 * at_ J 6 * at_ dH 2 + 0.5 * at_ J 7 * at_ dH 4 + at_ J 8 * at_ dH 5 in
  sum_upto n (fun j =>
    alpha * dval * at_ N j * at_ dirv j +
    (alpha * (at_ N j * at_ dg 0 + at_ Na j * dh0 + at_ Nb j * dh1 + at_ Nc j * dh2) *
       at_ dird (3 * j) +
     alpha * (at_ N j * at_ dg 1 + at_ Na j * dh3 + at_ Nb j * dh4 + at_ Nc j * dh5) *
       at_ dird (3 * j + 1) +
     alpha * (at_ N j * at_ dg 2 + at_ Na j * dh6 + at_ Nb j * dh7 + at_ Nc j * dh8) *
       at_ dird (3 * j + 2))) =
  let '(v', g', H') := curv_assemble n N Na Nb Nc J dirv dird in
  alpha * (dval * v' + sum_upto 3 (fun r => at_ dg r * at_ g' r) +
           sum_upto 6 (fun k => at_ dH k * at_ H' k)).
Proof.
  intros. unfold curv_assemble. cbn zeta.
  induction n as [|n IH]; cbn [sum_upto at_ nth] in *; [ring|].
  rewrite IH. unfold dh0, dh1, dh2, dh3, dh4, dh5, dh6, dh7, dh8.
  rewrite !Nat.add_0_r. ring.
Qed.

(** [X13] [addCurvDeriv] returns the value of the element [evalCurvature],
    and its increments of [dvals] and [dderiv] are the transpose of the
    linear map [(elem_vals, elem_deriv) -> (val, g, H)] of the element
    [evalCurvature], applied to [alpha*(dval, dg, dH)] from
    [evalCurvDeriv]: paired with any direction [(dirv, dird)] they give
    [alpha*(dval*val' + dg.g' + dH.H')], where [(val', g', H')] is that
    map applied to the direction. *)
Theorem addCurvDeriv_transpose (w alpha : R) (E : nat)
  (N Na Nb Nc J vals deriv : list R) (dvals dderiv : nat -> R) (dirv dird : list R) :
  let '(val, g, H) := curv_assemble E N Na Nb Nc J vals deriv in
  let '(result, dval, dg, dH) := evalCurvDeriv w val g H in
  let '(r, dv, dd) := addCurvDeriv w alpha E N Na Nb Nc J vals deriv dvals dderiv in
  let '(v', g', H') := curv_assemble E N Na Nb Nc J dirv dird in
  r = evalCurvature_elem w E N Na Nb Nc J vals deriv /\
  sum_upto E (fun j => (dv j - dvals j) * at_ dirv j) +
  sum_upto (3 * E) (fun k => (dd k - dderiv k) * at_ dird k) =
  alpha * (dval * v' + sum_upto 3 (fun r => at_ dg r * at_ g' r) +
           sum_upto 6 (fun k => at_ dH k * at_ H' k)).
Proof.
  pose proof (curv_assemble_transpose N Na Nb Nc J dirv dird) as T.
  unfold addCurvDeriv, evalCurvature_elem.
  destruct (curv_assemble E N Na Nb Nc J vals deriv) as [[val g] H].
  pose proof (evalCurvDeriv_result w val g H) as Er.
  destruct (evalCurvDeriv w val g H) as [[[result dval] dg] dH].
  cbn [fst] in Er.
  specialize (T dg dH alpha dval E). cbv zeta in T |- *.
  match goal with
  | |- context [fold_left ?F (seq 0 E) (dvals, dderiv)] =>
      pose proof (fold_add_pairs F _ _ _ _ (fun dv dd j => eq_refl) E (at_ dirv) (at_ dird)
                    E dvals dderiv (le_n E)) as [F1 F2];
      destruct (fold_left F (seq 0 E) (dvals, dderiv)) as [dv dd]
  end.
  cbn [fst snd] in F1, F2.
  destruct (curv_assemble E N Na Nb Nc J dirv dird) as [[v' g'] H'].
  split; [exact Er|].
  rewrite !sum_upto_minus, F1, F2, <- T.
  rewrite <- (sum_upto_plus E (fun j => alpha * dval * at_ N j * at_ dirv j)).
  ring.
Qed.

Lemma local_aggregate_sums (w : R) dgelss (M : R) (elems : list CElem) :
  let ex r := exp (w * (r - M)) in
  local_aggregate w dgelss M elems =
  (list_sum (map (fun r => r * ex r) (map (curv_elem_result w dgelss) elems)),
   list_sum (map ex (map (curv_elem_result w dgelss) elems))).
Proof.
  intros ex. unfold local_aggregate.
  enough (G : forall a b, fold_left (fun nd e =>
      (fst nd + curv_elem_result w dgelss e * exp (w * (curv_elem_result w dgelss e - M)),
       snd nd + exp (w * (curv_elem_result w dgelss e - M)))) elems (a, b) =
    (a + list_sum (map (fun r => r * ex r) (map (curv_elem_result w dgelss) elems)),
     b + list_sum (map ex (map (curv_elem_result w dgelss) elems)))).
  { rewrite G. f_equal; ring. }
  induction elems as [|e elems IH]; intros a b; cbn [fold_left map list_sum fst snd].
  - f_equal; ring.
  - rewrite IH. unfold ex. f_equal; ring.
Qed.

Lemma curv_sums_flatten (w : R) dgelss (M : R) (procs : list (list CElem)) :
  let ex r := exp (w * (r - M)) in
  let rs := flat_map (map (curv_elem_result w dgelss)) procs in
  list_sum (map fst (map (local_aggregate w dgelss M) procs)) =
    list_sum (map (fun r => r * ex r) rs) /\
  list_sum (map snd (map (local_aggregate w dgelss M) procs)) = list_sum (map ex rs).
Proof.
  intros ex rs. subst rs.
  induction procs as [|p procs [IH1 IH2]]; cbn [map flat_map list_sum]; [split; reflexivity|].
  rewrite (local_aggregate_sums w dgelss M p). cbn [fst snd].
  rewrite !map_app, !KSFacts.list_sum_app, IH1, IH2. split; reflexivity.
Qed.

Lemma list_sum_exp_pos (f : R -> R) (rs : list R) :
  (forall r, 0 < f r) -> rs <> [] -> 0 < list_sum (map f rs).
Proof.
  intros Hf. induction rs as [|r rs IH]; [congruence|]. intros _.
  cbn [map list_sum]. destruct rs as [|r' rs'].
  - cbn. specialize (Hf r). lra.
  - assert (0 < list_sum (map f (r' :: rs'))) by (apply IH; congruence).
    specialize (Hf r). lra.
Qed.

Lemma list_sum_weighted_bounds (f : R -> R) (lo hi : R) (rs : list R) :
  (forall r, 0 < f r) -> (forall r, In r rs -> lo <= r <= hi) ->
  lo * list_sum (map f rs) <= list_sum (map (fun r => r * f r) rs) <=
  hi * list_sum (map f rs).
Proof.
  intros Hf. induction rs as [|r rs IH]; intros Hb; cbn [map list_sum]; [lra|].
  assert (IH' := IH (fun x Hx => Hb x (or_intror Hx))).
  destruct (Hb r (or_introl eq_refl)) as [Hl Hh]. specialize (Hf r).
  split; nra.
Qed.

(** [X14] [TMRCurvatureConstraint::evalConstraint] returns the softmax
    mean [sum r*exp(w*(r - M)) / sum exp(w*(r - M))] of the curvature
    results [r] of all the elements of all the processes, with [M] the
    reduced maximum; so when there is at least one element, the value lies
    between any lower and upper bound of those results. *)
Theorem curv_evalConstraint_mean (w : R) dgelss (procs : list (list CElem)) (lo hi : R)
  (Hne : flat_map (map (curv_elem_result w dgelss)) procs <> [])
  (Hb : forall r, In r (flat_map (map (curv_elem_result w dgelss)) procs) -> lo <= r <= hi) :
  let M := KS.allreduce_max (map (local_max_curvature w dgelss) procs) in
  let rs := flat_map (map (curv_elem_result w dgelss)) procs in
  curv_evalConstraint w dgelss procs =
    list_sum (map (fun r => r * exp (w * (r - M))) rs) /
    list_sum (map (fun r => exp (w * (r - M))) rs) /\
  lo <= curv_evalConstraint w dgelss procs <= hi.
Proof.
  intros M rs. unfold curv_evalConstraint. fold M.
  destruct (curv_sums_flatten w dgelss M procs) as [E1 E2]. cbv zeta in E1, E2.
  rewrite E1, E2. fold rs. split; [reflexivity|].
  assert (Hd : 0 < list_sum (map (fun r => exp (w * (r - M))) rs))
    by (apply list_sum_exp_pos; [intros; apply exp_pos | exact Hne]).
  destruct (list_sum_weighted_bounds (fun r => exp (w * (r - M))) lo hi rs
              (fun r => exp_pos _) Hb) as [Hl Hh].
  split.
  - apply (Rmult_le_reg_r (list_sum (map (fun r => exp (w * (r - M))) rs))); [exact Hd|].
    unfold Rdiv. rewrite Rmult_assoc, Rinv_l by lra. lra.
  - apply (Rmult_le_reg_r (list_sum (map (fun r => exp (w * (r - M))) rs))); [exact Hd|].
    unfold Rdiv. rewrite Rmult_assoc, Rinv_l by lra. lra.
Qed.

Lemma curv_evalConstraint_mean_witness :
  let dg := fun (_ rhs : list R) => rhs in
  let e := {| ce_Xpts := []; ce_vals := []; ce_derivs := [] |} in
  let r := curv_elem_result 1 dg e in
  flat_map (map (curv_elem_result 1 dg)) [[e]] <> [] /\
  r <= curv_evalConstraint 1 dg [[e]] <= r.
Proof.
  intros dg e r. split; [cbn; congruence|].
  refine (proj2 (curv_evalConstraint_mean 1 dg [[e]] r r
                  ltac:(cbn; congruence) _)).
  intros x Hx. cbn [flat_map map app In] in Hx.
  destruct Hx as [Hx | []]. rewrite <- Hx. fold r. lra.
Defined.

End CurvatureConstraintFacts.

Module EnrichmentValueFacts.
Import Enrichment StrainEnergy EnrichmentValues.

Lemma at_zero_of_forall (l : list R) : Forall (fun v => v = 0) l -> forall i, at_ l i = 0.
Proof.
  intros H. induction H as [|v l Hv _ IH]; intros i; unfold at_ in *.
  - destruct i; reflexivity.
  - destruct i as [|i]; [exact Hv | apply IH].
Qed.

Ltac all_zero :=
  apply at_zero_of_forall; repeat constructor; ring.

(** [X15] For orders 2, 3 and 4 the value-only [evalEnrichmentFuncs2D]
    writes into [N] exactly the [getNum2dEnrich(order)] values that the
    derivative overload returns in its [N] output, and keeps the rest of
    the array; for any other order it leaves [N] unchanged. *)
Theorem evalEnrichmentFuncs2D_N_agrees (order : nat) (pt knots N : list R) :
  evalEnrichmentFuncs2D_N order pt knots N =
  if (Nat.eqb order 2 || Nat.eqb order 3 || Nat.eqb order 4)%bool
  then fst (fst (evalEnrichmentFuncs2D order pt knots)) ++ skipn (getNum2dEnrich order) N
  else N.
Proof.
  destruct order as [|[|[|[|[|o]]]]]; reflexivity.
Qed.

(** [X16] The arrays the enrichment evaluators fill have exactly the
    [nenrich] entries their callers read, [getNum2dEnrich(order)] and
    [getNum3dEnrich(order)]: for
    every order the 2D derivative overload returns [N], [Na], [Nb] of
    [getNum2dEnrich(order)] entries; the second-order 3D evaluators
    (both overloads) [getNum3dEnrich(2)] entries, and the third-order
    ones [getNum3dEnrich(3)] entries. *)
Theorem enrichment_array_sizes (order : nat) (pt knots : list R) :
  (let '(N, Na, Nb) := evalEnrichmentFuncs2D order pt knots in
   length N = getNum2dEnrich order /\ length Na = getNum2dEnrich order /\
   length Nb = getNum2dEnrich order) /\
  (let '(N, Na, Nb, Nc) := eval2ndEnrichmentFuncs3D pt in
   length N = getNum3dEnrich 2 /\ length Na = getNum3dEnrich 2 /\
   length Nb = getNum3dEnrich 2 /\ length Nc = getNum3dEnrich 2 /\
   length (eval2ndEnrichmentFuncs3D_N pt) = getNum3dEnrich 2) /\
  (let '(N, Na, Nb, Nc) := eval3rdEnrichmentFuncs3D pt in
   length N = getNum3dEnrich 3 /\ length Na = getNum3dEnrich 3 /\
   length Nb = getNum3dEnrich 3 /\ length Nc = getNum3dEnrich 3 /\
   length (eval3rdEnrichmentFuncs3D_N pt) = getNum3dEnrich 3).
Proof.
  split; [|split; cbn; repeat split].
  destruct order as [|[|[|[|o]]]]; cbn; repeat split.
Qed.

(** [X17] The 2D enrichment functions vanish at every node of the
    element: for order 2 at the points with both coordinates in
    [{-1, 1}], for order 3 in [{-1, 0, 1}], and for the fourth-order
    branch in [{-1, knots[1], knots[2], 1}], every entry of [N] is 0. *)
Theorem evalEnrichmentFuncs2D_vanish_at_nodes (order : nat) (pt knots : list R) :
  let nodes := if Nat.eqb order 2 then [-1; 1]
               else if Nat.eqb order 3 then [-1; 0; 1]
               else [-1; at_ knots 1; at_ knots 2; 1] in
  In (at_ pt 0) nodes -> In (at_ pt 1) nodes ->
  forall i, at_ (fst (fst (evalEnrichmentFuncs2D order pt knots))) i = 0.
Proof.
  intros nodes Hx Hy. unfold nodes, evalEnrichmentFuncs2D in *.
  destruct (Nat.eqb order 2); [|destruct (Nat.eqb order 3)];
    cbn [fst In] in Hx, Hy |- *;
    repeat (destruct Hx as [Hx|Hx]; [rewrite <- Hx|]); try contradiction;
    repeat (destruct Hy as [Hy|Hy]; [rewrite <- Hy|]); try contradiction;
    all_zero.
Qed.

(** [X18] The 3D enrichment functions vanish at every node of the
    element: the second-order functions at the points with all three
    coordinates in [{-1, 1}], the third-order ones in [{-1, 0, 1}]. *)
Theorem enrichment3D_vanish_at_nodes (pt : list R) :
  (In (at_ pt 0) [-1; 1] -> In (at_ pt 1) [-1; 1] -> In (at_ pt 2) [-1; 1] ->
   forall i, at_ (fst (fst (fst (eval2ndEnrichmentFuncs3D pt)))) i = 0) /\
  (In (at_ pt 0) [-1; 0; 1] -> In (at_ pt 1) [-1; 0; 1] -> In (at_ pt 2) [-1; 0; 1] ->
   forall i, at_ (fst (fst (fst (eval3rdEnrichmentFuncs3D pt)))) i = 0).
Proof.
  split; intros Hx Hy Hz; unfold eval2ndEnrichmentFuncs3D, eval3rdEnrichmentFuncs3D;
    cbn [fst In] in Hx, Hy, Hz |- *;
    repeat (destruct Hx as [Hx|Hx]; [rewrite <- Hx|]); try contradiction;
    repeat (destruct Hy as [Hy|Hy]; [rewrite <- Hy|]); try contradiction;
    repeat (destruct Hz as [Hz|Hz]; [rewrite <- Hz|]); try contradiction;
    all_zero.
Qed.

Lemma evalEnrichmentFuncs2D_vanish_at_nodes_witness :
  let pt := [-1; 0.25] in
  let knots := [-1; -0.5; 0.25; 1] in
  In (at_ pt 0) [-1; at_ knots 1; at_ knots 2; 1] /\
  In (at_ pt 1) [-1; at_ knots 1; at_ knots 2; 1] /\
  at_ (fst (fst (evalEnrichmentFuncs2D 4 pt knots))) 8 = 0.
Proof.
  intros pt knots.
  assert (H0 : In (at_ pt 0) [-1; at_ knots 1; at_ knots 2; 1]) by (cbn; left; reflexivity).
  assert (H1 : In (at_ pt 1) [-1; at_ knots 1; at_ knots 2; 1]) by (cbn; right; right; left; reflexivity).
  split; [exact H0 | split; [exact H1 |]].
  exact (evalEnrichmentFuncs2D_vanish_at_nodes 4 pt knots H0 H1 8).
Defined.

Lemma enrichment3D_vanish_at_nodes_witness :
  let pt := [1; -1; 0] in
  (In (at_ pt 0) [-1; 0; 1] /\ In (at_ pt 1) [-1; 0; 1] /\ In (at_ pt 2) [-1; 0; 1]) /\
  at_ (fst (fst (fst (eval3rdEnrichmentFuncs3D pt)))) 14 = 0.
Proof.
  intros pt.
  assert (H0 : In (at_ pt 0) [-1; 0; 1]) by (cbn; right; right; left; reflexivity).
  assert (H1 : In (at_ pt 1) [-1; 0; 1]) by (cbn; left; reflexivity).
  assert (H2 : In (at_ pt 2) [-1; 0; 1]) by (cbn; right; left; reflexivity).
  split; [repeat split; assumption|].
  exact (proj2 (enrichment3D_vanish_at_nodes pt) H0 H1 H2 14%nat).
Defined.

End EnrichmentValueFacts.

Module StrainFacts.
Import Enrichment Projector Strain.

(** The loops of [addStrainDeriv], paired with a direction [w]. *)
Lemma fold_strain_step (alpha : R) (dfde J Na Nb Nc : list R) (E : nat) (w : nat -> R) :
  forall n d0, (n <= E)%nat ->
  sum_upto (3 * E) (fun k =>
    fold_left (strain_deriv_step alpha dfde J Na Nb Nc) (seq 0 n) d0 k * w k) =
  sum_upto (3 * E) (fun k => d0 k * w k) +
  sum_upto n (fun i =>
    alpha * (at_ dfde 0 * (at_ Na i * at_ J 0 + at_ Nb i * at_ J 3 + at_ Nc i * at_ J 6) +
             at_ dfde 4 * (at_ Na i * at_ J 2 + at_ Nb i * at_ J 5 + at_ Nc i * at_ J 8) +
             at_ dfde 5 * (at_ Na i * at_ J 1 + at_ Nb i * at_ J 4 + at_ Nc i * at_ J 7)) *
      w (3 * i + 0)%nat +
    alpha * (at_ dfde 1 * (at_ Na i * at_ J 1 + at_ Nb i * at_ J 4 + at_ Nc i * at_ J 7) +
             at_ dfde 3 * (at_ Na i * at_ J 2 + at_ Nb i * at_ J 5 + at_ Nc i * at_ J 8) +
             at_ dfde 5 * (at_ Na i * at_ J 0 + at_ Nb i * at_ J 3 + at_ Nc i * at_ J 6)) *
      w (3 * i + 1)%nat +
    alpha * (at_ dfde 2 * (at_ Na i * at_ J 2 + at_ Nb i * at_ J 5 + at_ Nc i * at_ J 8) +
             at_ dfde 3 * (at_ Na i * at_ J 1 + at_ Nb i * at_ J 4 + at_ Nc i * at_ J 7) +
             at_ dfde 4 * (at_ Na i * at_ J 0 + at_ Nb i * at_ J 3 + at_ Nc i * at_ J 6)) *
      w (3 * i + 2)%nat).
Proof.
  induction n as [|n IH]; intros d0 Hn.
  - cbn [seq fold_left sum_upto]. ring.
  - rewrite seq_S, fold_left_app. cbn [fold_left sum_upto].
    unfold strain_deriv_step at 1.
    rewrite !CurvatureConstraintFacts.sum_upto_add_at.
    rewrite (IH d0) by lia.
    rewrite (proj2 (Nat.ltb_lt (3 * (0 + n)) (3 * E))) by lia.
    rewrite (proj2 (Nat.ltb_lt (3 * (0 + n) + 1) (3 * E))) by lia.
    rewrite (proj2 (Nat.ltb_lt (3 * (0 + n) + 2) (3 * E))) by lia.
    replace (0 + n)%nat with n by lia. rewrite (Nat.add_0_r (3 * n)). ring.
Qed.

(** The strain of a displacement gradient [Ud] (the [Ux] and [e] of
    [evalStrain]) paired with [dfde], against the loop sums. *)
Lemma strain_loop_transpose (alpha : R) (dfde J Na Nb Nc : list R)
  (P : nat -> nat -> R) (n : nat) :
  let S (N : list R) (r : nat) := sum_upto n (fun i => at_ N i * P i r) in
  let Ud := [S Na 0%nat; S Nb 0%nat; S Nc 0%nat; S Na 1%nat; S Nb 1%nat; S Nc 1%nat;
             S Na 2%nat; S Nb 2%nat; S Nc 2%nat] in
  let ux (r c : nat) :=
    at_ Ud (3 * r) * at_ J c + at_ Ud (3 * r + 1) * at_ J (3 + c) +
    at_ Ud (3 * r + 2) * at_ J (6 + c) in
  sum_upto n (fun i =>
    alpha * (at_ dfde 0 * (at_ Na i * at_ J 0 + at_ Nb i * at_ J 3 + at_ Nc i * at_ J 6) +
             at_ dfde 4 * (at_ Na i * at_ J 2 + at_ Nb i * at_ J 5 + at_ Nc i * at_ J 8) +
             at_ dfde 5 * (at_ Na i * at_ J 1 + at_ Nb i * at_ J 4 + at_ Nc i * at_ J 7)) *
      P i 0%nat +
    alpha * (at_ dfde 1 * (at_ Na i * at_ J 1 + at_ Nb i * at_ J 4 + at_ Nc i * at_ J 7) +
             at_ dfde 3 * (at_ Na i * at_ J 2 + at_ Nb i * at_ J 5 + at_ Nc i * at_ J 8) +
             at_ dfde 5 * (at_ Na i * at_ J 0 + at_ Nb i * at_ J 3 + at_ Nc i * at_ J 6)) *
      P i 1%nat +
    alpha * (at_ dfde 2 * (at_ Na i * at_ J 2 + at_ Nb i * at_ J 5 + at_ Nc i * at_ J 8) +
             at_ dfde 3 * (at_ Na i * at_ J 1 + at_ Nb i * at_ J 4 + at_ Nc i * at_ J 7) +
             at_ dfde 4 * (at_ Na i * at_ J 0 + at_ Nb i * at_ J 3 + at_ Nc i * at_ J 6)) *
      P i 2%nat) =
  alpha * (at_ dfde 0 * ux 0%nat 0%nat + at_ dfde 1 * ux 1%nat 1%nat +
           at_ dfde 2 * ux 2%nat 2%nat +
           at_ dfde 3 * (ux 1%nat 2%nat + ux 2%nat 1%nat) +
           at_ dfde 4 * (ux 0%nat 2%nat + ux 2%nat 0%nat) +
           at_ dfde 5 * (ux 0%nat 1%nat + ux 1%nat 0%nat)).
Proof.
  cbv zeta. cbn [at_ nth Nat.mul Nat.add].
  induction n as [|n IH]; cbn [sum_upto]; [ring|].
  rewrite IH. ring.
Qed.

(** [X19] For meshes of order 2 or 3 (where both functions fill their
    enrichment arrays), [addStrainDeriv] is the transpose of the strain map
    of [evalStrain]: with the [J] returned by [evalStrain] at the same point,
    the increments it adds to [dfdu] (the [order^3] nodes) and to
    [dfdubar] (the [getNum3dEnrich(order)] enrichment functions), paired
    with any [(vars, ubar)], equal [alpha] times [dfde] paired with the
    strain [e] that [evalStrain] computes from [(vars, ubar)]; and it
    returns 0.  The two calls have their own, unrelated, local arrays. *)
Theorem addStrainDeriv_transpose (fe : FElib) (forest interp_forest : OctForest)
  (order : nat) (Ho : order = 2%nat \/ order = 3%nat)
  (uninit_s uninit_d : list R * list R * list R * list R)
  (pt Xpts vars ubar : list R) (alpha : R) (dfde : list R) (dfdu dfdubar : nat -> R) :
  let '(detJ, J, e) := evalStrain fe forest interp_forest order uninit_s pt Xpts vars ubar in
  let '(r, dfdu', dfdubar') := addStrainDeriv forest order uninit_d pt J alpha dfde dfdu dfdubar in
  r = 0 /\
  sum_upto (3 * (order * order * order)) (fun k => (dfdu' k - dfdu k) * at_ vars k) +
  sum_upto (3 * getNum3dEnrich order) (fun k => (dfdubar' k - dfdubar k) * at_ ubar k) =
  alpha * sum_upto 6 (fun k => at_ dfde k * at_ e k).
Proof.
  assert (E : enrich3D order uninit_d pt = enrich3D order uninit_s pt)
    by (destruct Ho; subst order; reflexivity).
  unfold evalStrain, addStrainDeriv. rewrite E.
  destruct (oct_evalInterp forest pt) as [[[N Na] Nb] Nc].
  destruct (oct_evalInterp interp_forest pt) as [[[Nx Nax] Nbx] Ncx].
  destruct (jacobian3d fe _) as [detJ J].
  destruct (enrich3D order uninit_s pt) as [[[Nr Nar] Nbr] Ncr].
  split; [reflexivity|].
  rewrite !CurvatureConstraintFacts.sum_upto_minus.
  rewrite (fold_strain_step alpha dfde J Na Nb Nc _ (at_ vars) _ dfdu (le_n _)).
  rewrite (fold_strain_step alpha dfde J Nar Nbr Ncr _ (at_ ubar) _ dfdubar (le_n _)).
  pose proof (strain_loop_transpose alpha dfde J Na Nb Nc (fun i r => at_ vars (3 * i + r))
                (order * order * order)) as T1.
  pose proof (strain_loop_transpose alpha dfde J Nar Nbr Ncr (fun i r => at_ ubar (3 * i + r))
                (getNum3dEnrich order)) as T2.
  assert (C : forall (N : list R) (r : nat),
    sum_upto (getNum3dEnrich order) (fun i => at_ ubar (3 * i + r) * at_ N i) =
    sum_upto (getNum3dEnrich order) (fun i => at_ N i * at_ ubar (3 * i + r)))
    by (intros; apply ProjectorFacts.sum_upto_ext; intros; ring).
  cbv beta zeta in T1, T2 |- *. rewrite !C.
  cbn [sum_upto at_ nth Nat.mul Nat.add] in T1, T2 |- *.
  rewrite T1, T2. ring.
Qed.

(** Witness for [X19]: a mesh of order 2, identity Jacobian, constant
    interpolants, distinct contents of the two calls' local arrays. *)
Lemma addStrainDeriv_transpose_witness :
  (2 = 2 \/ 2 = 3)%nat /\
  (let fe0 := {| jacobian3d := fun _ => (1, [1;0;0; 0;1;0; 0;0;1]);
                 crossProduct3D := fun _ _ => [0;0;0];
                 normalize3D := fun v => v |} in
   let f0 := {| oct_order := 2; oct_knots := [-1;1];
                oct_evalInterp := fun _ => (repeat (1/8) 8, repeat (1/2) 8,
                                            repeat (-1/2) 8, repeat (1/4) 8) |} in
   let pt := [0.1; 0.2; 0.3] in
   let vars := map INR (seq 1 24) in let ubar := map INR (seq 2 27) in
   let dfde := [1;2;3;4;5;6] in
   let '(detJ, J, e) := evalStrain fe0 f0 f0 2 ([], [], [], []) pt (repeat 0 24) vars ubar in
   let '(r, dfdu', dfdubar') := addStrainDeriv f0 2 ([1], [2], [3], [4]) pt J 3 dfde
                                  (fun _ => 0) (fun _ => 0) in
   r = 0 /\
   sum_upto (3 * (2 * 2 * 2)) (fun k => (dfdu' k - 0) * at_ vars k) +
   sum_upto (3 * getNum3dEnrich 2) (fun k => (dfdubar' k - 0) * at_ ubar k) =
   3 * sum_upto 6 (fun k => at_ dfde k * at_ e k)).
Proof.
  split; [left; reflexivity|].
  intros fe0 f0 pt vars ubar dfde.
  exact (addStrainDeriv_transpose fe0 f0 f0 2 (or_introl eq_refl) ([], [], [], [])
           ([1], [2], [3], [4]) pt (repeat 0 24) vars ubar 3 dfde (fun _ => 0) (fun _ => 0)).
Defined.

End StrainFacts.

Module LocalWeightFacts.
Import Projector ProjectorFacts.

Lemma indicator_sum_count (n : Z) (l : list Z) :
  sum_upto (length l) (fun j => if Z.eqb n (nth j l 0%Z) then 1 else 0) =
  INR (length (filter (Z.eqb n) l)).
Proof.
  induction l as [|x l IH] using rev_ind; [reflexivity|].
  rewrite length_app, Nat.add_1_r. cbn [sum_upto].
  rewrite (sum_upto_ext (length l) _ (fun j => if Z.eqb n (nth j l 0%Z) then 1 else 0)).
  - rewrite IH, nth_middle, filter_app, length_app, plus_INR. cbn [filter].
    destruct (Z.eqb n x); cbn [length INR]; ring.
  - intros i Hi. rewrite app_nth1 by exact Hi. reflexivity.
Qed.

(** [X20] After [computeLocalWeights] (unit weights added for the
    independent slots, zero for the dependent ones, then finalised and
    distributed), the weight read back at an independent node [n] is the
    number of times [n] occurs in the node lists of the visited elements. *)
Theorem computeLocalWeights_count (dn : DepNodes) (elems : list PElem) (n : Z)
  (Hn : (0 <= n)%Z) :
  getValue dn (computeLocalWeights dn elems) n 0 =
  INR (length (filter (Z.eqb n) (flat_map el_nodes elems))).
Proof.
  rewrite (computeLocalWeights_value dn elems n Hn).
  induction elems as [|el elems IH]; [reflexivity|].
  cbn [map list_sum flat_map].
  rewrite IH, indicator_sum_count, filter_app, length_app, plus_INR. reflexivity.
Qed.

Lemma computeLocalWeights_count_witness :
  let dn := {| num_dep := 1; dep_conn := fun _ => [(0%Z, 0.5); (1%Z, 0.5)] |} in
  let elems := [{| el_nodes := [0%Z; 1%Z; (-1)%Z]; el_Xpts := [] |};
                {| el_nodes := [1%Z; 2%Z]; el_Xpts := [] |}] in
  (0 <= 1)%Z /\ getValue dn (computeLocalWeights dn elems) 1 0 = 2.
Proof.
  intros dn elems.
  assert (H : (0 <= 1)%Z) by lia. split; [exact H|].
  rewrite (computeLocalWeights_count dn elems 1 H). cbn. ring.
Defined.

End LocalWeightFacts.
